(** * brainstate.transform._make_jaxpr: the state-tracing function wrapper

    A shallow embedding of [StatefulFunction] (make_jaxpr, jaxpr_call,
    jaxpr_call_auto, the accessors, the cache) and of the helpers of
    [_make_jaxpr.py], with the properties of the wrapper proved over it.

    The wrapper rides on two collaborators that are not part of
    [_make_jaxpr.py]: JAX's tracing machinery, and the [State] / [StateTrace]
    classes of [brainstate._state].  Both are given small executable models
    below; every definition says which source function it embeds. *)

From Stdlib Require Import ZArith Lia.
From Stdlib Require Sorted.
From stdpp Require Import base option list gmap countable.

Local Open Scope Z_scope.
Set Warnings "-register-all".

(* ===================================================================== *)
(** ** Pytrees *)
(* ===================================================================== *)

(** A pytree: a leaf, or a container (tuple, list, dict in key order) of
    pytrees.  [None] and the empty tuple are [PNode []]. *)
Inductive pytree (L : Type) : Type :=
| PLeaf (x : L)
| PNode (ts : list (pytree L)).

Arguments PLeaf {L} x.
Arguments PNode {L} ts.

Section pytree_ops.
Context {L : Type}.

(** Induction that reaches the children of a container. *)
Lemma pytree_ind' (P : pytree L → Prop) :
  (∀ x, P (PLeaf x)) →
  (∀ ts, Forall P ts → P (PNode ts)) →
  ∀ t, P t.
Proof.
  intros Hleaf Hnode. fix IH 1. intros [x|ts].
  - apply Hleaf.
  - apply Hnode. induction ts as [|t ts IHts]; constructor; [apply IH | exact IHts].
Qed.

(** [jax.tree.leaves]: the leaves, left to right. *)
Fixpoint tree_leaves (t : pytree L) : list L :=
  match t with
  | PLeaf x => [x]
  | PNode ts => concat (map tree_leaves ts)
  end.

(** [jax.tree.map f t] for a unary [f]. *)
Fixpoint tree_map {L'} (f : L → L') (t : pytree L) : pytree L' :=
  match t with
  | PLeaf x => PLeaf (f x)
  | PNode ts => PNode (map (tree_map f) ts)
  end.

(** [jax.tree.structure]: the tree with its leaves forgotten. *)
Definition tree_structure (t : pytree L) : pytree () := tree_map (λ _, ()) t.

(** [treedef.unflatten], reading leaves off the front of [xs]; the rest is
    returned.  [None] when the leaves run out. *)
Fixpoint unflatten_from (d : pytree ()) (xs : list L) : option (pytree L * list L) :=
  match d with
  | PLeaf _ =>
      match xs with
      | x :: xs' => Some (PLeaf x, xs')
      | [] => None
      end
  | PNode ds =>
      let fix go (ds : list (pytree ())) (xs : list L) : option (list (pytree L) * list L) :=
        match ds with
        | [] => Some ([], xs)
        | d :: ds' =>
            match unflatten_from d xs with
            | Some (t, xs1) =>
                match go ds' xs1 with
                | Some (ts, xs2) => Some (t :: ts, xs2)
                | None => None
                end
            | None => None
            end
        end in
      match go ds xs with
      | Some (ts, rest) => Some (PNode ts, rest)
      | None => None
      end
  end.

(** [treedef.unflatten(xs)]: fails unless [xs] has exactly the leaves the
    structure asks for. *)
Definition tree_unflatten (d : pytree ()) (xs : list L) : option (pytree L) :=
  match unflatten_from d xs with
  | Some (t, []) => Some t
  | _ => None
  end.
End pytree_ops.

(** The list-level reader used inside [unflatten_from], named. *)
Fixpoint unflatten_list {L} (ds : list (pytree ())) (xs : list L)
  : option (list (pytree L) * list L) :=
  match ds with
  | [] => Some ([], xs)
  | d :: ds' =>
      match unflatten_from d xs with
      | Some (t, xs1) =>
          match unflatten_list ds' xs1 with
          | Some (ts, xs2) => Some (t :: ts, xs2)
          | None => None
          end
      | None => None
      end
  end.

(** Pytrees over a countable leaf type are countable, so that tuples of
    values can be dictionary keys. *)
Fixpoint pytree_to_gen {L} (t : pytree L) : gen_tree L :=
  match t with
  | PLeaf x => GenLeaf x
  | PNode ts => GenNode 0 (map pytree_to_gen ts)
  end.

Fixpoint pytree_of_gen {L} (g : gen_tree L) : pytree L :=
  match g with
  | GenLeaf x => PLeaf x
  | GenNode _ gs => PNode (map pytree_of_gen gs)
  end.

Lemma pytree_of_to_gen {L} (t : pytree L) : pytree_of_gen (pytree_to_gen t) = t.
Proof.
  induction t as [x|ts IH] using pytree_ind'; simpl; [done|].
  f_equal. induction IH as [|t ts Ht _ IHts]; simpl; [done|].
  by rewrite Ht, IHts.
Qed.

#[global] Instance pytree_eq_dec {L} `{EqDecision L} : EqDecision (pytree L).
Proof.
  intros t1 t2.
  destruct (decide (pytree_to_gen t1 = pytree_to_gen t2)) as [Heq|Hne].
  - left. rewrite <- (pytree_of_to_gen t1), <- (pytree_of_to_gen t2). by rewrite Heq.
  - right. intros ->. by apply Hne.
Defined.

#[global] Instance pytree_countable {L} `{Countable L} : Countable (pytree L) :=
  inj_countable' pytree_to_gen pytree_of_gen pytree_of_to_gen.

(* ===================================================================== *)
(** ** Values: arrays and tracers *)
(* ===================================================================== *)

(** The primitives a traced function may bind. *)
Inductive primop := Add | Sub | Mul.

Definition prim_eval (op : primop) (x y : Z) : Z :=
  match op with
  | Add => x + y
  | Sub => x - y
  | Mul => x * y
  end.

(** A JAX value.  [Lit z] is a concrete array (scalars stand for arrays);
    [Tracer n] is the [DynamicJaxprTracer] bound to input variable [n] of the
    frame being traced; [Prim op a b] is the tracer of the result of an
    equation [op a b].  An equation's result is identified with its defining
    expression, so a jaxpr's let-bindings appear inlined in its outputs. *)
Inductive jval :=
| Lit (z : Z)
| Tracer (n : nat)
| Prim (op : primop) (a b : jval).

(** Binding a primitive: concrete operands compute, a tracer operand records
    an equation. *)
Definition jax_bind (op : primop) (a b : jval) : jval :=
  match a, b with
  | Lit x, Lit y => Lit (prim_eval op x y)
  | _, _ => Prim op a b
  end.

#[global] Instance primop_eq_dec : EqDecision primop.
Proof. solve_decision. Defined.

#[global] Instance jval_eq_dec : EqDecision jval.
Proof. solve_decision. Defined.

Definition primop_code (op : primop) : nat :=
  match op with Add => 0%nat | Sub => 1%nat | Mul => 2%nat end.

Definition primop_of_code (n : nat) : primop :=
  match n with 0%nat => Add | 1%nat => Sub | _ => Mul end.

Fixpoint jval_to_gen (v : jval) : gen_tree (Z + nat) :=
  match v with
  | Lit z => GenLeaf (inl z)
  | Tracer n => GenLeaf (inr n)
  | Prim op a b => GenNode (primop_code op) [jval_to_gen a; jval_to_gen b]
  end.

Fixpoint jval_of_gen (g : gen_tree (Z + nat)) : option jval :=
  match g with
  | GenLeaf (inl z) => Some (Lit z)
  | GenLeaf (inr n) => Some (Tracer n)
  | GenNode c [ga; gb] =>
      match jval_of_gen ga, jval_of_gen gb with
      | Some a, Some b => Some (Prim (primop_of_code c) a b)
      | _, _ => None
      end
  | GenNode _ _ => None
  end.

Lemma jval_of_to_gen v : jval_of_gen (jval_to_gen v) = Some v.
Proof.
  induction v as [z|n|op a IHa b IHb]; simpl; [done|done|].
  rewrite IHa, IHb. by destruct op.
Qed.

#[global] Instance jval_countable : Countable jval :=
  inj_countable jval_to_gen jval_of_gen jval_of_to_gen.

(** The abstract value of an array: shape, dtype and weak-type flag, never
    data.  Every array of the model is a scalar of one dtype, so there is one
    abstract value. *)
Inductive aval := ShapedArray.

#[global] Instance aval_eq_dec : EqDecision aval.
Proof. solve_decision. Defined.

#[global] Instance aval_countable : Countable aval :=
  inj_countable' (λ _, ()) (λ _, ShapedArray) (λ a, match a with ShapedArray => eq_refl end).

(** [wrapped_abstractify] / [shaped_abstractify]. *)
Definition wrapped_abstractify (x : jval) : aval := ShapedArray.

(** A State object is known by its identity. *)
Definition cell := nat.

(** What a traced function may hand back at a leaf of its result: an array
    or tracer, a [State] object, or some other Python object (a generator
    object, say), which is not a JAX type. *)
Inductive pyobj :=
| OArr (v : jval)
| OState (c : cell)
| OOpaque.

(* ===================================================================== *)
(** ** Cache keys, exceptions, results *)
(* ===================================================================== *)

(** A cache key is a tuple of hashable things: argument values and, under the
    ['jit'] policy, abstract values. *)
Definition cache_key := pytree (jval + aval).

(** The default key of the accessors, [()]. *)
Definition empty_key : cache_key := PNode [].

(** Instances of Python's [Exception], the class [make_jaxpr] intercepts. *)
Inductive exn :=
| ValueError_not_called (k : cache_key)
    (* "the function is not called with the static arguments: {cache_key}" *)
| ValueError_invalid_cache_type
| ValueError_state_returned (c : cell)
    (* "State object is not allowed to be returned: {leaf}" *)
| ValueError_tree_mismatch (c : cell)
| TypeError_staticmethod
| TypeError_not_callable
| TypeError_generator
| TypeError_invalid_jax_type
| KeyError (k : cache_key)
| IndexError
| AssertionError
| ReferenceError (c : cell)
| ValueError_unpack
| JaxError
| UserError (n : nat).

(** The Python class of an exception. *)
Inductive exn_class := CValueError | CTypeError | CKeyError | CIndexError
                     | CAssertionError | CReferenceError | COther.

Definition class_of (e : exn) : exn_class :=
  match e with
  | ValueError_not_called _ | ValueError_invalid_cache_type
  | ValueError_state_returned _ | ValueError_tree_mismatch _
  | ValueError_unpack => CValueError
  | TypeError_staticmethod | TypeError_not_callable | TypeError_generator
  | TypeError_invalid_jax_type => CTypeError
  | KeyError _ => CKeyError
  | IndexError => CIndexError
  | AssertionError => CAssertionError
  | ReferenceError _ => CReferenceError
  | JaxError | UserError _ => COther
  end.

Inductive result (A : Type) : Type :=
| Ok (a : A)
| Err (e : exn).

Arguments Ok {A} a.
Arguments Err {A} e.

(* ===================================================================== *)
(** ** Traced functions *)
(* ===================================================================== *)

(** One call of a Python function, as the tree of its interactions with
    State objects: it returns a pytree, raises, reads [st.value] and goes on
    with what it read, or assigns [st.value = v] and goes on. *)
Inductive prog :=
| Return (out : pytree pyobj)
| Raise (e : exn)
| GetValue (c : cell) (k : pytree jval → prog)
| SetValue (c : cell) (v : pytree jval) (k : prog).

(** What [StatefulFunction] may be given as [fun]. *)
Inductive pyfun :=
| PyFunction (body : list (pytree jval) → pytree jval → prog)
| PyGeneratorFunction (body : list (pytree jval) → pytree jval → prog)
| PyStaticMethod (f : pyfun)
| PyNotCallable.

(** Calling [fun] on [args] and [kwargs].  Calling a generator function
    runs none of its body and returns a generator object; a staticmethod
    object forwards the call to the function it wraps (Python 3.10 and later,
    the versions the comment in [_check_callable] speaks of); calling what is
    not callable raises TypeError. *)
Fixpoint py_call (f : pyfun) (args : list (pytree jval)) (kwargs : pytree jval) : prog :=
  match f with
  | PyFunction body => body args kwargs
  | PyGeneratorFunction _ => Return (PLeaf OOpaque)
  | PyStaticMethod g => py_call g args kwargs
  | PyNotCallable => Raise TypeError_not_callable
  end.

(** What [_check_callable] asks of an object. *)
Record pyinfo := {
  isinstance_staticmethod : bool;
  callable : bool;
  isgeneratorfunction : bool;
}.

Definition pyfun_info (f : pyfun) : pyinfo :=
  match f with
  | PyFunction _ =>
      {| isinstance_staticmethod := false; callable := true; isgeneratorfunction := false |}
  | PyGeneratorFunction _ =>
      {| isinstance_staticmethod := false; callable := true; isgeneratorfunction := true |}
  | PyStaticMethod _ =>
      {| isinstance_staticmethod := true; callable := true; isgeneratorfunction := false |}
  | PyNotCallable =>
      {| isinstance_staticmethod := false; callable := false; isgeneratorfunction := false |}
  end.

(** [functools.partial(self._wrapped_fun_to_eval, cache_key)]: a partial
    object over a bound method that is an ordinary function. *)
Definition partial_bound_method_info : pyinfo :=
  {| isinstance_staticmethod := false; callable := true; isgeneratorfunction := false |}.

(** [_check_callable(fun)]. *)
Definition _check_callable (fun_ : pyinfo) : result () :=
  if isinstance_staticmethod fun_ then Err TypeError_staticmethod
  else if negb (callable fun_) then Err TypeError_not_callable
  else if isgeneratorfunction fun_ then Err TypeError_generator
  else Ok ().

(* ===================================================================== *)
(** ** The JAX side: frames and jaxprs *)
(* ===================================================================== *)

(** JAX is a library the wrapper calls.  What the wrapper uses of its
    tracing is modelled here: a frame collects input variables, a traced
    value is the expression that defines it, a jaxpr is its input variables
    and output expressions, and evaluating it substitutes the inputs. *)

(** [JaxprStackFrame]: the input variables created so far; variable [n] is
    the [n]-th entry. *)
Record JaxprStackFrame := { invars : list aval }.

(** [ClosedJaxpr]: input variables and outputs (no constants: literals are
    part of the output expressions). *)
Record ClosedJaxpr := {
  jaxpr_invars : list aval;
  jaxpr_outvars : list jval;
}.

(** [_new_arg(frame, trace, aval)]: a new tracer bound to a new input
    variable of the frame. *)
Definition _new_arg (frame : JaxprStackFrame) (a : aval) : jval * JaxprStackFrame :=
  (Tracer (length (invars frame)), {| invars := invars frame ++ [a] |}).

(** [jax.tree.map] with a function that threads a state. *)
Fixpoint tree_map_st {S L L'} (f : L → S → L' * S) (t : pytree L) (s : S) : pytree L' * S :=
  match t with
  | PLeaf x => let '(y, s1) := f x s in (PLeaf y, s1)
  | PNode ts =>
      let fix go (ts : list (pytree L)) (s : S) : list (pytree L') * S :=
        match ts with
        | [] => ([], s)
        | t :: ts' =>
            let '(u, s1) := tree_map_st f t s in
            let '(us, s2) := go ts' s1 in
            (u :: us, s2)
        end in
      let '(us, s1) := go ts s in (PNode us, s1)
  end.

(** The value of an output of a jaxpr when its input variables are bound to
    [env]: [jax.core.eval_jaxpr] on one output. *)
Fixpoint eval_jval (env : list jval) (v : jval) : option jval :=
  match v with
  | Lit z => Some (Lit z)
  | Tracer n => env !! n
  | Prim op a b =>
      match eval_jval env a, eval_jval env b with
      | Some x, Some y => Some (jax_bind op x y)
      | _, _ => None
      end
  end.

(** [jax.core.eval_jaxpr(jaxpr, consts, *args)]. *)
Definition eval_jaxpr (j : ClosedJaxpr) (args : list jval) : result (list jval) :=
  if decide (length args = length (jaxpr_invars j)) then
    match mapM (eval_jval args) (jaxpr_outvars j) with
    | Some outs => Ok outs
    | None => Err JaxError
    end
  else Err JaxError.

(** Raising an output of the traced function to a tracer: only JAX types
    pass. *)
Definition full_raise (o : pyobj) : option jval :=
  match o with
  | OArr v => Some v
  | _ => None
  end.

(* ===================================================================== *)
(** ** State objects and the state tracer *)
(* ===================================================================== *)

(** Modelled from the spec: the access category of a record.  The wrapper
    asks for ['read'] and ['write']; the spec's tracer also tags read-write. *)
Inductive category := read | write | read_write.

#[global] Instance category_eq_dec : EqDecision category.
Proof. solve_decision. Defined.

(** Modelled from the spec: the Access Record of [brainstate._state.StateTrace]
    (not in [_make_jaxpr.py]): the State cell, its access category, and the
    value the cell held before the trace touched it.  The cell itself holds
    the recorded value, which always reflects the most recent write. *)
Record access_record := {
  ar_state : cell;
  ar_type : category;
  ar_original : pytree jval;
}.

(** Modelled from the spec: a [StateTrace] is its ordered list of Access
    Records, in first-seen order, each State cell at most once. *)
Definition StateTrace := list access_record.

(** [state_trace.states] and [state_trace.types], the two parallel lists
    the wrapper reads. *)
Definition states (tr : StateTrace) : list cell := map ar_state tr.
Definition types (tr : StateTrace) : list category := map ar_type tr.

(** What runs inside [with _state_trace:]: the tracer, the frame its
    [new_arg] is bound to, and the values of the State objects. *)
Record trace_state := {
  ts_trace : StateTrace;
  ts_frame : JaxprStackFrame;
  ts_cells : gmap cell (pytree jval);
}.

(** Modelled from the spec: [StateTrace.new_arg(state)]: one symbolic input
    per leaf of the value, built by the [_new_arg] the wrapper installed
    with [set_new_arg]. *)
Definition new_arg (v : pytree jval) (frame : JaxprStackFrame) : pytree jval * JaxprStackFrame :=
  tree_map_st (λ x fr, _new_arg fr (wrapped_abstractify x)) v frame.

(** Whether the tracer has a record for a cell. *)
Definition recorded (c : cell) (tr : StateTrace) : bool :=
  bool_decide (c ∈ states tr).

(** Modelled from the spec: a write upgrades a prior read-only record to
    read-write. *)
Definition upgrade (c : cell) (tr : StateTrace) : StateTrace :=
  map (λ r, if decide (ar_state r = c ∧ ar_type r = read)
            then {| ar_state := ar_state r; ar_type := read_write;
                    ar_original := ar_original r |}
            else r) tr.

(** Modelled from the spec: [st.value] read while the tracer is active.  With
    no record of the cell yet, one tagged read is created, the value is
    snapshotted and the cell gets its symbolic input; with a record, it is
    reused. *)
Definition traced_get (c : cell) (s : trace_state) : result (pytree jval) * trace_state :=
  match ts_cells s !! c with
  | None => (Err (ReferenceError c), s)
  | Some v =>
      if recorded c (ts_trace s) then (Ok v, s)
      else
        let '(v', frame') := new_arg v (ts_frame s) in
        (Ok v',
         {| ts_trace := ts_trace s ++ [{| ar_state := c; ar_type := read; ar_original := v |}];
            ts_frame := frame';
            ts_cells := <[c := v']> (ts_cells s) |})
  end.

(** Modelled from the spec: [st.value = v] while the tracer is active.  The
    value must have the structure of the cell's previous value; with no
    record a record tagged write is created (with its symbolic input), a
    read record is upgraded to read-write; the cell takes the new value. *)
Definition traced_set (c : cell) (v : pytree jval) (s : trace_state) : result () * trace_state :=
  match ts_cells s !! c with
  | None => (Err (ReferenceError c), s)
  | Some old =>
      if decide (tree_structure v = tree_structure old) then
        if recorded c (ts_trace s) then
          (Ok (),
           {| ts_trace := upgrade c (ts_trace s);
              ts_frame := ts_frame s;
              ts_cells := <[c := v]> (ts_cells s) |})
        else
          let '(_, frame') := new_arg old (ts_frame s) in
          (Ok (),
           {| ts_trace := ts_trace s ++ [{| ar_state := c; ar_type := write; ar_original := old |}];
              ts_frame := frame';
              ts_cells := <[c := v]> (ts_cells s) |})
      else (Err (ValueError_tree_mismatch c), s)
  end.

(** The call of the traced function under the active tracer: every read and
    assignment of a State object goes through the tracer. *)
Fixpoint run_traced (p : prog) (s : trace_state) : result (pytree pyobj) * trace_state :=
  match p with
  | Return out => (Ok out, s)
  | Raise e => (Err e, s)
  | GetValue c k =>
      match traced_get c s with
      | (Ok v, s1) => run_traced (k v) s1
      | (Err e, s1) => (Err e, s1)
      end
  | SetValue c v k =>
      match traced_set c v s with
      | (Ok _, s1) => run_traced k s1
      | (Err e, s1) => (Err e, s1)
      end
  end.

(** Modelled from the spec: [st.value] of a [State] with no tracer active. *)
Definition state_get (c : cell) (cells : gmap cell (pytree jval)) : result (pytree jval) :=
  match cells !! c with
  | Some v => Ok v
  | None => Err (ReferenceError c)
  end.

(** Modelled from the spec: [st.value = v] with no tracer active; the
    structural check of the State contract runs on every write. *)
Definition state_set (c : cell) (v : pytree jval) (cells : gmap cell (pytree jval))
  : result (gmap cell (pytree jval)) :=
  match cells !! c with
  | None => Err (ReferenceError c)
  | Some old =>
      if decide (tree_structure v = tree_structure old) then Ok (<[c := v]> cells)
      else Err (ValueError_tree_mismatch c)
  end.

(** The call of the function with no tracer active: direct execution. *)
Fixpoint run_direct (p : prog) (cells : gmap cell (pytree jval))
  : result (pytree pyobj) * gmap cell (pytree jval) :=
  match p with
  | Return out => (Ok out, cells)
  | Raise e => (Err e, cells)
  | GetValue c k =>
      match state_get c cells with
      | Ok v => run_direct (k v) cells
      | Err e => (Err e, cells)
      end
  | SetValue c v k =>
      match state_set c v cells with
      | Ok cells1 => run_direct k cells1
      | Err e => (Err e, cells)
      end
  end.

(** Whether a record's category is among the requested ones; a read-write
    record is both read and written. *)
Definition selected (categories : list category) (ty : category) : bool :=
  match ty with
  | read_write => bool_decide (read ∈ categories) || bool_decide (write ∈ categories)
  | _ => bool_decide (ty ∈ categories)
  end.

(** Modelled from the spec: [StateTrace.collect_values] with its categories
    and [check_val_tree]: the current values of the recorded cells of the
    requested categories, in record order; with [check_val_tree] a value whose
    structure left that of the pre-trace snapshot is a structural mismatch. *)
Fixpoint collect_values (categories : list category) (check_val_tree : bool)
    (tr : StateTrace) (cells : gmap cell (pytree jval)) : result (list (pytree jval)) :=
  match tr with
  | [] => Ok []
  | r :: tr' =>
      if selected categories (ar_type r) then
        match cells !! ar_state r with
        | None => Err (ReferenceError (ar_state r))
        | Some val =>
            if check_val_tree && negb (bool_decide (tree_structure val = tree_structure (ar_original r)))
            then Err (ValueError_tree_mismatch (ar_state r))
            else
              match collect_values categories check_val_tree tr' cells with
              | Ok vals => Ok (val :: vals)
              | Err e => Err e
              end
        end
      else collect_values categories check_val_tree tr' cells
  end.

(** Modelled from the spec: [StateTrace.recovery_original_values()]: every
    touched cell gets back the value it held before the trace. *)
Definition recovery_original_values (tr : StateTrace) (cells : gmap cell (pytree jval))
  : gmap cell (pytree jval) :=
  foldl (λ cs r, <[ar_state r := ar_original r]> cs) cells tr.

(* ===================================================================== *)
(** ** StatefulFunction *)
(* ===================================================================== *)

(** The [cache_type] argument: [None], ['jit'], or anything else. *)
Inductive cache_policy := cache_None | cache_jit | cache_other.

(** The attributes of a [StatefulFunction] object.  [axis_env] and
    [abstracted_axes] are left at their default [None]. *)
Record StatefulFunction := {
  fun_ : pyfun;
  static_argnums : list Z;
  state_returns : list category;
  cache_type : cache_policy;
  _jaxpr : gmap cache_key ClosedJaxpr;
  _out_shapes : gmap cache_key (pytree aval);
  _jaxpr_out_tree : gmap cache_key (pytree ());
  _state_trace : gmap cache_key StateTrace;
}.

(** [StatefulFunction.__init__]. *)
Definition StatefulFunction_init (f : pyfun) (static_argnums : list Z)
    (state_returns : list category) (cache_type : cache_policy) : result StatefulFunction :=
  match cache_type with
  | cache_other => Err AssertionError
  | _ =>
      Ok {| fun_ := f; static_argnums := static_argnums; state_returns := state_returns;
            cache_type := cache_type;
            _jaxpr := ∅; _out_shapes := ∅; _jaxpr_out_tree := ∅; _state_trace := ∅ |}
  end.

(** The wrapper object, the State objects it may touch, and a count of the
    calls of [self.fun] (a ghost of the side-effecting counter a traced
    function may carry). *)
Record machine := {
  self : StatefulFunction;
  cells : gmap cell (pytree jval);
  fun_calls : nat;
}.

Definition with_self (m : machine) (w : StatefulFunction) : machine :=
  {| self := w; cells := cells m; fun_calls := fun_calls m |}.

Definition with_cells (m : machine) (cs : gmap cell (pytree jval)) : machine :=
  {| self := self m; cells := cs; fun_calls := fun_calls m |}.

(** [get_jaxpr]. *)
Definition get_jaxpr (w : StatefulFunction) (cache_key : cache_key) : result ClosedJaxpr :=
  match _jaxpr w !! cache_key with
  | None => Err (ValueError_not_called cache_key)
  | Some j => Ok j
  end.

(** [get_out_shapes]. *)
Definition get_out_shapes (w : StatefulFunction) (cache_key : cache_key) : result (pytree aval) :=
  match _out_shapes w !! cache_key with
  | None => Err (ValueError_not_called cache_key)
  | Some sh => Ok sh
  end.

(** [get_out_treedef]. *)
Definition get_out_treedef (w : StatefulFunction) (cache_key : cache_key) : result (pytree ()) :=
  match _jaxpr_out_tree w !! cache_key with
  | None => Err (ValueError_not_called cache_key)
  | Some d => Ok d
  end.

(** [get_states]. *)
Definition get_states (w : StatefulFunction) (cache_key : cache_key) : result (list cell) :=
  match _state_trace w !! cache_key with
  | None => Err (ValueError_not_called cache_key)
  | Some tr => Ok (states tr)
  end.

(** The states of [tr] whose type is [ty]:
    [[st for st, ty' in zip(tr.states, tr.types) if ty' == ty]]. *)
Definition states_of_type (ty : category) (tr : StateTrace) : list cell :=
  map fst (filter (λ p, snd p = ty) (zip (states tr) (types tr))).

(** [get_read_states]: the table is indexed without a membership test. *)
Definition get_read_states (w : StatefulFunction) (cache_key : cache_key) : result (list cell) :=
  match _state_trace w !! cache_key with
  | None => Err (KeyError cache_key)
  | Some tr => Ok (states_of_type read tr)
  end.

(** [get_write_states]: likewise. *)
Definition get_write_states (w : StatefulFunction) (cache_key : cache_key) : result (list cell) :=
  match _state_trace w !! cache_key with
  | None => Err (KeyError cache_key)
  | Some tr => Ok (states_of_type write tr)
  end.

(** Python's [args[i]]: a negative index counts from the end. *)
Definition py_index {A} (l : list A) (i : Z) : option A :=
  if decide (0 ≤ i) then l !! Z.to_nat i
  else if decide (- Z.of_nat (length l) ≤ i) then l !! Z.to_nat (Z.of_nat (length l) + i)
  else None.

(** [i in self.static_argnums] for a position [i] of the call. *)
Definition is_static (static_argnums : list Z) (i : nat) : bool :=
  bool_decide (Z.of_nat i ∈ static_argnums).

(** [[args[i] for i in range(len(args)) if i not in static_argnums]],
    counting positions from [i]. *)
Fixpoint select_dyn {A} (static_argnums : list Z) (i : nat) (args : list A) : list A :=
  match args with
  | [] => []
  | a :: args' =>
      if is_static static_argnums i then select_dyn static_argnums (S i) args'
      else a :: select_dyn static_argnums (S i) args'
  end.

(** The static arguments, the other half of that split (the ['jit'] branch
    of [get_arg_cache_key]). *)
Fixpoint select_static {A} (static_argnums : list Z) (i : nat) (args : list A) : list A :=
  match args with
  | [] => []
  | a :: args' =>
      if is_static static_argnums i then a :: select_static static_argnums (S i) args'
      else select_static static_argnums (S i) args'
  end.

(** A tuple of argument values as a key. *)
Definition key_of_values (vals : list (pytree jval)) : cache_key :=
  PNode (map (tree_map inl) vals).

Definition key_of_avals (avals : list aval) : cache_key :=
  PNode (map (λ a, PLeaf (inr a)) avals).

(** [tuple(args[i] for i in static_argnums if i < num_arg)]. *)
Fixpoint static_values (static_argnums : list Z) (args : list (pytree jval))
  : result (list (pytree jval)) :=
  match static_argnums with
  | [] => Ok []
  | i :: rest =>
      if decide (i < Z.of_nat (length args)) then
        match py_index args i with
        | None => Err IndexError
        | Some a =>
            match static_values rest args with
            | Ok vals => Ok (a :: vals)
            | Err e => Err e
            end
        end
      else static_values rest args
  end.

(** [get_arg_cache_key]. *)
Definition get_arg_cache_key (w : StatefulFunction) (args : list (pytree jval))
    (kwargs : pytree jval) : result cache_key :=
  match cache_type w with
  | cache_jit =>
      let static_args := select_static (static_argnums w) 0 args in
      let dyn_args := select_dyn (static_argnums w) 0 args in
      let dyn_args := map wrapped_abstractify (tree_leaves (PNode dyn_args)) in
      let dyn_kwargs := map wrapped_abstractify (tree_leaves kwargs) in
      Ok (PNode [key_of_values static_args; key_of_avals dyn_args; key_of_avals dyn_kwargs])
  | cache_None =>
      match static_values (static_argnums w) args with
      | Ok vals => Ok (key_of_values vals)
      | Err e => Err e
      end
  | cache_other => Err ValueError_invalid_cache_type
  end.

(** [clear_cache]. *)
Definition clear_cache (w : StatefulFunction) : StatefulFunction :=
  {| fun_ := fun_ w; static_argnums := static_argnums w; state_returns := state_returns w;
     cache_type := cache_type w;
     _jaxpr := ∅; _out_shapes := ∅; _jaxpr_out_tree := ∅; _state_trace := ∅ |}.

(** Assignments to and removals from the four tables. *)
Definition set_state_trace (k : cache_key) (tr : StateTrace) (w : StatefulFunction) :=
  {| fun_ := fun_ w; static_argnums := static_argnums w; state_returns := state_returns w;
     cache_type := cache_type w;
     _jaxpr := _jaxpr w; _out_shapes := _out_shapes w; _jaxpr_out_tree := _jaxpr_out_tree w;
     _state_trace := <[k := tr]> (_state_trace w) |}.

Definition pop_state_trace (k : cache_key) (w : StatefulFunction) :=
  {| fun_ := fun_ w; static_argnums := static_argnums w; state_returns := state_returns w;
     cache_type := cache_type w;
     _jaxpr := _jaxpr w; _out_shapes := _out_shapes w; _jaxpr_out_tree := _jaxpr_out_tree w;
     _state_trace := delete k (_state_trace w) |}.

Definition set_jaxpr_out_tree (k : cache_key) (d : pytree ()) (w : StatefulFunction) :=
  {| fun_ := fun_ w; static_argnums := static_argnums w; state_returns := state_returns w;
     cache_type := cache_type w;
     _jaxpr := _jaxpr w; _out_shapes := _out_shapes w;
     _jaxpr_out_tree := <[k := d]> (_jaxpr_out_tree w);
     _state_trace := _state_trace w |}.

Definition set_out_shapes (k : cache_key) (sh : pytree aval) (w : StatefulFunction) :=
  {| fun_ := fun_ w; static_argnums := static_argnums w; state_returns := state_returns w;
     cache_type := cache_type w;
     _jaxpr := _jaxpr w; _out_shapes := <[k := sh]> (_out_shapes w);
     _jaxpr_out_tree := _jaxpr_out_tree w;
     _state_trace := _state_trace w |}.

Definition set_jaxpr (k : cache_key) (j : ClosedJaxpr) (w : StatefulFunction) :=
  {| fun_ := fun_ w; static_argnums := static_argnums w; state_returns := state_returns w;
     cache_type := cache_type w;
     _jaxpr := <[k := j]> (_jaxpr w); _out_shapes := _out_shapes w;
     _jaxpr_out_tree := _jaxpr_out_tree w;
     _state_trace := _state_trace w |}.

(** [_init_trace_and_newarg]: a new [StateTrace] whose [new_arg] is bound to
    the frame on top of JAX's trace stack (here: the frame passed along). *)
Definition _init_trace_and_newarg : StateTrace := [].

(** The first leaf of [out] that is a State object, if any: the loop over
    [jax.tree.leaves(out)] in [_wrapped_fun_to_eval]. *)
Fixpoint first_state (leaves : list pyobj) : option cell :=
  match leaves with
  | [] => None
  | OState c :: _ => Some c
  | _ :: rest => first_state rest
  end.

(** [_wrapped_fun_to_eval(cache_key, *args, **kwargs)], run against the frame
    of the trace in progress.  The tracer stored under [cache_key] and the
    local [_state_trace] are one object: what the table shows after the call
    is the tracer as the call left it, whether it returned or raised.  An
    exception raised inside the [with] block leaves before
    [recovery_original_values] is reached. *)
Definition _wrapped_fun_to_eval (cache_key : cache_key)
    (args : list (pytree jval)) (kwargs : pytree jval)
    (frame : JaxprStackFrame) (m : machine)
  : result (pytree pyobj) * JaxprStackFrame * machine :=
  let _state_trace := _init_trace_and_newarg in
  let s0 := {| ts_trace := _state_trace; ts_frame := frame; ts_cells := cells m |} in
  let '(r, s1) := run_traced (py_call (fun_ (self m)) args kwargs) s0 in
  let m1 := {| self := set_state_trace cache_key (ts_trace s1) (self m);
               cells := ts_cells s1;
               fun_calls := S (fun_calls m) |} in
  match r with
  | Err e => (Err e, ts_frame s1, m1)
  | Ok out =>
      match collect_values [read; write] true (ts_trace s1) (cells m1) with
      | Err e => (Err e, ts_frame s1, m1)
      | Ok state_values =>
          let m2 := with_cells m1 (recovery_original_values (ts_trace s1) (cells m1)) in
          match first_state (tree_leaves out) with
          | Some c => (Err (ValueError_state_returned c), ts_frame s1, m2)
          | None =>
              (Ok (PNode [out; PNode (map (tree_map OArr) state_values)]), ts_frame s1, m2)
          end
      end
  end.

(** [argnums_partial]: the call made with the dynamic arguments puts them
    back at their positions among the fixed ones. *)
Fixpoint merge_dyn {A} (static_argnums : list Z) (i : nat) (args dyn : list A) : list A :=
  match args with
  | [] => []
  | a :: args' =>
      if is_static static_argnums i then a :: merge_dyn static_argnums (S i) args' dyn
      else
        match dyn with
        | d :: dyn' => d :: merge_dyn static_argnums (S i) args' dyn'
        | [] => a :: merge_dyn static_argnums (S i) args' []
        end
  end.

(** A callable handed to [_make_jaxpr]: what [_check_callable] sees of it,
    and what calling it does inside the trace. *)
Record traced_callable := {
  tc_info : pyinfo;
  tc_call : list (pytree jval) → pytree jval → JaxprStackFrame → machine →
            result (pytree pyobj) * JaxprStackFrame * machine;
}.

(** The head of [_make_jaxpr]'s [make_jaxpr_f]: the static arguments are
    split off ([argnums_partial], when there are static positions), the
    dynamic ones and [kwargs] are flattened and abstracted, the frame of the
    trace gets one input variable per leaf, and [fun] is to be called on the
    tracers of these variables, put back in the shape and at the positions of
    the arguments. *)
Definition trace_inputs (static_argnums : list Z)
    (args : list (pytree jval)) (kwargs : pytree jval)
  : option (list (pytree jval) * pytree jval * JaxprStackFrame) :=
  let dyn_args :=
    match static_argnums with
    | [] => args
    | _ => select_dyn static_argnums 0 args
    end in
  let flat_args := tree_leaves (PNode [PNode dyn_args; kwargs]) in
  let in_tree := tree_structure (PNode [PNode dyn_args; kwargs]) in
  let in_avals := map wrapped_abstractify flat_args in
  let frame := {| invars := in_avals |} in
  let in_tracers := map Tracer (seq 0 (length in_avals)) in
  match tree_unflatten in_tree in_tracers with
  | Some (PNode [PNode py_args; py_kwargs]) =>
      let full_args :=
        match static_argnums with
        | [] => py_args
        | _ => merge_dyn static_argnums 0 args py_args
        end in
      Some (full_args, py_kwargs, frame)
  | _ => None
  end.

(** [_make_jaxpr(fun, static_argnums, return_shape=True)] applied to [args]
    and [kwargs]: the check of [fun], the inputs of the trace, the call of
    [fun] on them ([pe.trace_to_jaxpr_dynamic2]), and the jaxpr with the
    shapes of its outputs. *)
Definition _make_jaxpr (fun_ : traced_callable) (static_argnums : list Z)
    (args : list (pytree jval)) (kwargs : pytree jval) (m : machine)
  : result (ClosedJaxpr * pytree aval) * machine :=
  match _check_callable (tc_info fun_) with
  | Err e => (Err e, m)
  | Ok _ =>
      match trace_inputs static_argnums args kwargs with
      | Some (full_args, py_kwargs, frame) =>
          match tc_call fun_ full_args py_kwargs frame m with
          | (Err e, _, m1) => (Err e, m1)
          | (Ok ans, frame1, m1) =>
              match mapM full_raise (tree_leaves ans) with
              | None => (Err TypeError_invalid_jax_type, m1)
              | Some out_tracers =>
                  let closed_jaxpr :=
                    {| jaxpr_invars := invars frame1; jaxpr_outvars := out_tracers |} in
                  let out_shapes_flat := map wrapped_abstractify out_tracers in
                  match tree_unflatten (tree_structure ans) out_shapes_flat with
                  | Some shapes => (Ok (closed_jaxpr, shapes), m1)
                  | None => (Err JaxError, m1)
                  end
              end
          end
      | None => (Err JaxError, m)
      end
  end.

(** [make_jaxpr] (the method). *)
Definition make_jaxpr (args : list (pytree jval)) (kwargs : pytree jval) (m : machine)
  : result () * machine :=
  match get_arg_cache_key (self m) args kwargs with
  | Err e => (Err e, m)
  | Ok cache_key =>
      if decide (is_Some (_state_trace (self m) !! cache_key)) then (Ok (), m)
      else
        let traced :=
          {| tc_info := partial_bound_method_info;
             tc_call := _wrapped_fun_to_eval cache_key |} in
        match _make_jaxpr traced (static_argnums (self m)) args kwargs m with
        | (Ok (jaxpr, PNode [out_shapes; state_shapes]), m1) =>
            let w := set_jaxpr_out_tree cache_key
                       (tree_structure (PNode [out_shapes; state_shapes])) (self m1) in
            let w := set_out_shapes cache_key (PNode [out_shapes; state_shapes]) w in
            let w := set_jaxpr cache_key jaxpr w in
            (Ok (), with_self m1 w)
        | (Ok _, m1) =>
            (Err ValueError_unpack, with_self m1 (pop_state_trace cache_key (self m1)))
        | (Err e, m1) =>
            (Err e, with_self m1 (pop_state_trace cache_key (self m1)))
        end
  end.

(** [jaxpr_call]. *)
Definition jaxpr_call (w : StatefulFunction) (state_vals : list (pytree jval))
    (args : list (pytree jval)) (kwargs : pytree jval)
  : result (list (pytree jval) * pytree jval) :=
  match get_arg_cache_key w args kwargs with
  | Err e => Err e
  | Ok cache_key =>
      match get_states w cache_key with
      | Err e => Err e
      | Ok states =>
          if decide (length state_vals = length states) then
            let args := select_dyn (static_argnums w) 0 args in
            let args := tree_leaves (PNode [PNode args; kwargs; PNode state_vals]) in
            match get_jaxpr w cache_key with
            | Err e => Err e
            | Ok closed_jaxpr =>
                match get_out_treedef w cache_key with
                | Err e => Err e
                | Ok out_treedef =>
                    match eval_jaxpr closed_jaxpr args with
                    | Err e => Err e
                    | Ok jaxpr_outs =>
                        match tree_unflatten out_treedef jaxpr_outs with
                        | Some (PNode [out; PNode new_state_vals]) =>
                            if decide (length new_state_vals = length state_vals)
                            then Ok (new_state_vals, out)
                            else Err AssertionError
                        | _ => Err JaxError
                        end
                    end
                end
            end
          else Err AssertionError
      end
  end.

(** [[st.value for st in states]]. *)
Fixpoint read_values (sts : list cell) (cells : gmap cell (pytree jval))
  : result (list (pytree jval)) :=
  match sts with
  | [] => Ok []
  | st :: rest =>
      match state_get st cells with
      | Err e => Err e
      | Ok v =>
          match read_values rest cells with
          | Ok vs => Ok (v :: vs)
          | Err e => Err e
          end
      end
  end.

(** [for st, val in zip(states, state_vals): st.value = val]; an exception
    keeps the assignments made before it. *)
Fixpoint assign_values (pairs : list (cell * pytree jval)) (cells : gmap cell (pytree jval))
  : result () * gmap cell (pytree jval) :=
  match pairs with
  | [] => (Ok (), cells)
  | (st, val) :: rest =>
      match state_set st val cells with
      | Err e => (Err e, cells)
      | Ok cells1 => assign_values rest cells1
      end
  end.

(** [jaxpr_call_auto]. *)
Definition jaxpr_call_auto (args : list (pytree jval)) (kwargs : pytree jval) (m : machine)
  : result (pytree jval) * machine :=
  match get_arg_cache_key (self m) args kwargs with
  | Err e => (Err e, m)
  | Ok cache_key =>
      match get_states (self m) cache_key with
      | Err e => (Err e, m)
      | Ok states =>
          match read_values states (cells m) with
          | Err e => (Err e, m)
          | Ok vals =>
              match jaxpr_call (self m) vals args kwargs with
              | Err e => (Err e, m)
              | Ok (state_vals, out) =>
                  match assign_values (zip states state_vals) (cells m) with
                  | (Err e, cells1) => (Err e, with_cells m cells1)
                  | (Ok _, cells1) => (Ok out, with_cells m cells1)
                  end
              end
          end
      end
  end.

(** [compile_and_get_states_by_static_args]. *)
Definition compile_and_get_states_by_static_args (args : list (pytree jval))
    (kwargs : pytree jval) (m : machine) : result (list cell) * machine :=
  match get_arg_cache_key (self m) args kwargs with
  | Err e => (Err e, m)
  | Ok cache_key =>
      if decide (is_Some (_state_trace (self m) !! cache_key))
      then (get_states (self m) cache_key, m)
      else
        match make_jaxpr args kwargs m with
        | (Err e, m1) => (Err e, m1)
        | (Ok _, m1) => (get_states (self m1) cache_key, m1)
        end
  end.

(** The call of [self.fun] that a trace of [args], [kwargs] makes from the
    machine [m]: its result and the tracer, frame and cells it leaves. *)
Definition traced_call (m : machine) (args : list (pytree jval)) (kwargs : pytree jval)
  : option (result (pytree pyobj) * trace_state) :=
  match trace_inputs (static_argnums (self m)) args kwargs with
  | Some (full_args, py_kwargs, frame) =>
      Some (run_traced (py_call (fun_ (self m)) full_args py_kwargs)
              {| ts_trace := _init_trace_and_newarg; ts_frame := frame; ts_cells := cells m |})
  | None => None
  end.

(** The public operations of a wrapper. *)
Inductive operation :=
| op_make_jaxpr (args : list (pytree jval)) (kwargs : pytree jval)
| op_clear_cache
| op_get_jaxpr (k : cache_key)
| op_get_out_shapes (k : cache_key)
| op_get_out_treedef (k : cache_key)
| op_get_states (k : cache_key)
| op_get_read_states (k : cache_key)
| op_get_write_states (k : cache_key)
| op_get_arg_cache_key (args : list (pytree jval)) (kwargs : pytree jval)
| op_compile_and_get_states (args : list (pytree jval)) (kwargs : pytree jval)
| op_jaxpr_call (state_vals : list (pytree jval)) (args : list (pytree jval))
    (kwargs : pytree jval)
| op_jaxpr_call_auto (args : list (pytree jval)) (kwargs : pytree jval).

(** The machine an operation leaves, whether it returns or raises. *)
Definition perform (o : operation) (m : machine) : machine :=
  match o with
  | op_make_jaxpr args kwargs => snd (make_jaxpr args kwargs m)
  | op_clear_cache => with_self m (clear_cache (self m))
  | op_compile_and_get_states args kwargs =>
      snd (compile_and_get_states_by_static_args args kwargs m)
  | op_jaxpr_call_auto args kwargs => snd (jaxpr_call_auto args kwargs m)
  | op_get_jaxpr _ | op_get_out_shapes _ | op_get_out_treedef _ | op_get_states _
  | op_get_read_states _ | op_get_write_states _ | op_get_arg_cache_key _ _
  | op_jaxpr_call _ _ _ => m
  end.

(** The machines a wrapper can be found in: just constructed, after a public
    operation, or after its environment assigned State objects. *)
Inductive reachable : machine → Prop :=
| reach_init f sa sr ct w cs :
    StatefulFunction_init f sa sr ct = Ok w →
    reachable {| self := w; cells := cs; fun_calls := 0 |}
| reach_op o m :
    reachable m → reachable (perform o m)
| reach_env m cs :
    reachable m → reachable (with_cells m cs).

(** The four cache tables hold the same keys. *)
Definition tables_agree (w : StatefulFunction) : Prop :=
  dom (_jaxpr w) = dom (_state_trace w) ∧
  dom (_out_shapes w) = dom (_state_trace w) ∧
  dom (_jaxpr_out_tree w) = dom (_state_trace w).

(** No table has an entry for the key. *)
Definition absent (k : cache_key) (w : StatefulFunction) : Prop :=
  _jaxpr w !! k = None ∧ _out_shapes w !! k = None ∧
  _jaxpr_out_tree w !! k = None ∧ _state_trace w !! k = None.

(* ===================================================================== *)
(** ** The helpers of the module and the module-level [make_jaxpr] *)
(* ===================================================================== *)

(** [_assign_state_values(states, state_vals)]: the length assertion, then
    the assignments in order. *)
Definition _assign_state_values (states : list cell) (state_vals : list (pytree jval))
    (cells : gmap cell (pytree jval)) : result () * gmap cell (pytree jval) :=
  if decide (length states = length state_vals)
  then assign_values (zip states state_vals) cells
  else (Err AssertionError, cells).

(** What may be given where an index or a sequence of indices is expected: an
    int, a sequence, or an object that is neither an index nor iterable (a
    float, say). *)
Inductive index_like :=
| IInt (i : Z)
| ISeq (items : list index_like)
| INotIndex.

(** [operator.index(x)]; [None] stands for its TypeError. *)
Definition operator_index (x : index_like) : option Z :=
  match x with
  | IInt i => Some i
  | _ => None
  end.

(** [_ensure_index_tuple(x)] for a concrete [x] (which [concrete_or_error]
    hands back): the index as a one-element tuple, or else the tuple of the
    indices of the items; [None] stands for the TypeError of an item that is
    no index or of an [x] that cannot be iterated. *)
Definition _ensure_index_tuple (x : index_like) : option (list Z) :=
  match operator_index x with
  | Some i => Some [i]
  | None =>
      match x with
      | ISeq items => mapM operator_index items
      | _ => None
      end
  end.

(** [treedef.flatten_up_to(full_tree)] for the treedef of [prefix_tree]: the
    subtrees of [full_tree] at the leaves of [prefix_tree], left to right;
    [None] stands for the ValueError raised when [prefix_tree] is not a
    prefix of [full_tree]. *)
Fixpoint flatten_up_to {A B} (prefix_tree : pytree A) (full_tree : pytree B)
  : option (list (pytree B)) :=
  match prefix_tree with
  | PLeaf _ => Some [full_tree]
  | PNode ps =>
      match full_tree with
      | PLeaf _ => None
      | PNode fs =>
          (fix go (ps : list (pytree A)) (fs : list (pytree B)) : option (list (pytree B)) :=
             match ps, fs with
             | [], [] => Some []
             | p :: ps', f :: fs' =>
                 match flatten_up_to p f, go ps' fs' with
                 | Some l, Some l' => Some (l ++ l')
                 | _, _ => None
                 end
             | _, _ => None
             end) ps fs
      end
  end.

(** The list-level traversal inside [flatten_up_to], named. *)
Fixpoint flatten_up_to_list {A B} (ps : list (pytree A)) (fs : list (pytree B))
  : option (list (pytree B)) :=
  match ps, fs with
  | [], [] => Some []
  | p :: ps', f :: fs' =>
      match flatten_up_to p f, flatten_up_to_list ps' fs' with
      | Some l, Some l' => Some (l ++ l')
      | _, _ => None
      end
  | _, _ => None
  end.

(** [_broadcast_prefix(prefix_tree, full_tree, is_leaf)]: [jax.tree.map]
    calls [add_leaves] on each leaf [x] of [prefix_tree] (what [is_leaf]
    accepts is a leaf) and the subtree of [full_tree] at its place, which
    appends [x] once per leaf of the subtree. *)
Definition _broadcast_prefix {A B} (prefix_tree : pytree A) (full_tree : pytree B)
  : option (list A) :=
  match flatten_up_to prefix_tree full_tree with
  | Some subtrees =>
      Some (concat (zip_with (λ x subtree, replicate (length (tree_leaves subtree)) x)
                      (tree_leaves prefix_tree) subtrees))
  | None => None
  end.

(** The two ways [_flat_axes_specs] fails. *)
Inductive axes_error := NotImplementedError | ValueError_not_a_prefix.

(** [_flat_axes_specs(abstracted_axes, *args, **kwargs)]. *)
Definition _flat_axes_specs {A} (abstracted_axes : pytree A)
    (args : list (pytree jval)) (kwargs : pytree jval) : axes_error + list A :=
  match kwargs with
  | PNode [] =>
      match _broadcast_prefix abstracted_axes (PNode args) with
      | Some specs => inr specs
      | None => inl ValueError_not_a_prefix
      end
  | _ => inl NotImplementedError
  end.

(** The function [make_jaxpr_f] that the module-level
    [make_jaxpr(fun, static_argnums, return_shape=..., state_returns=...)]
    returns, run on the machine [m] that holds the [stateful_fun] of its
    closure (built with no [cache_type], so under the [None] policy).  The
    result has its third component when [return_shape] is set; it is
    [get_out_shapes(cache_key)[0]]. *)
Definition make_jaxpr_f (return_shape : bool) (args : list (pytree jval))
    (kwargs : pytree jval) (m : machine)
  : result (ClosedJaxpr * list cell * option (pytree aval)) * machine :=
  match make_jaxpr args kwargs m with
  | (Err e, m1) => (Err e, m1)
  | (Ok _, m1) =>
      match get_arg_cache_key (self m1) args kwargs with
      | Err e => (Err e, m1)
      | Ok cache_key =>
          match get_jaxpr (self m1) cache_key with
          | Err e => (Err e, m1)
          | Ok jaxpr =>
              match get_states (self m1) cache_key with
              | Err e => (Err e, m1)
              | Ok sts =>
                  if return_shape then
                    match get_out_shapes (self m1) cache_key with
                    | Err e => (Err e, m1)
                    | Ok (PNode (out_shapes :: _)) => (Ok (jaxpr, sts, Some out_shapes), m1)
                    | Ok _ => (Err IndexError, m1)
                    end
                  else (Ok (jaxpr, sts, None), m1)
              end
          end
      end
  end.

(* ===================================================================== *)
(** ** Vocabulary of the properties *)
(* ===================================================================== *)

(** The trace [make_jaxpr] starts for a key. *)
Definition traced_partial (k : cache_key) : traced_callable :=
  {| tc_info := partial_bound_method_info; tc_call := _wrapped_fun_to_eval k |}.

(** A wrapper over [f] fresh from its constructor. *)
Definition fresh_wrapper (f : pyfun) (static_argnums : list Z) : StatefulFunction :=
  {| fun_ := f; static_argnums := static_argnums; state_returns := [read; write];
     cache_type := cache_None;
     _jaxpr := ∅; _out_shapes := ∅; _jaxpr_out_tree := ∅; _state_trace := ∅ |}.

(** A machine like [scenario_machine] over another target. *)
Definition machine_over (f : pyfun) : machine :=
  {| self := fresh_wrapper f [];
     cells := {[ 0%nat := PLeaf (Lit 10) ]};
     fun_calls := 0 |}.

(** The machine a trace for the key [k] leaves when it rolls back or is
    rejected, and the one it leaves when it stored its results. *)
Definition after_failed_trace (m : machine) (cs : gmap cell (pytree jval)) : machine :=
  {| self := self m; cells := cs; fun_calls := S (fun_calls m) |}.

Definition after_trace (m : machine) (k : cache_key) (tr : StateTrace)
    (frame : JaxprStackFrame) (out : pytree pyobj) (outs : list jval)
    (svs : list (pytree jval)) (shapes : pytree aval) : machine :=
  {| self :=
       set_jaxpr k {| jaxpr_invars := invars frame;
                      jaxpr_outvars := outs ++ concat (map tree_leaves svs) |}
         (set_out_shapes k shapes
            (set_jaxpr_out_tree k
               (tree_structure (PNode [out; PNode (map (tree_map OArr) svs)]))
               (set_state_trace k tr (self m))));
     cells := cells m;
     fun_calls := S (fun_calls m) |}.

(** The list-level traversal inside [tree_map_st], named. *)
Fixpoint tree_map_st_list {S L L'} (f : L → S → L' * S) (ts : list (pytree L)) (s : S)
  : list (pytree L') * S :=
  match ts with
  | [] => ([], s)
  | t :: ts' =>
      let '(u, s1) := tree_map_st f t s in
      let '(us, s2) := tree_map_st_list f ts' s1 in
      (u :: us, s2)
  end.

(** With [cells0] the State values before the trace: a cell has at most one
    record, a recorded cell holds a value of the structure of its pre-trace
    value, which the record keeps, and a cell without record holds its
    pre-trace value. *)
Record trace_inv (cells0 : gmap cell (pytree jval)) (s : trace_state) : Prop := {
  inv_nodup : NoDup (states (ts_trace s));
  inv_recorded : ∀ r, r ∈ ts_trace s →
    cells0 !! ar_state r = Some (ar_original r) ∧
    ∃ v, ts_cells s !! ar_state r = Some v ∧
         tree_structure v = tree_structure (ar_original r);
  inv_untouched : ∀ c, c ∉ states (ts_trace s) → ts_cells s !! c = cells0 !! c;
}.

(** The trace state after the first access of [c], which held [orig] and now
    holds [v]: a record of category [ty], and the symbolic inputs of [orig]. *)
Definition first_access (c : cell) (ty : category) (orig v : pytree jval)
    (s : trace_state) : trace_state :=
  {| ts_trace := ts_trace s ++ [{| ar_state := c; ar_type := ty; ar_original := orig |}];
     ts_frame := snd (new_arg orig (ts_frame s));
     ts_cells := <[c := v]> (ts_cells s) |}.

(** The trace state after an assignment of [v] to the recorded [c]. *)
Definition later_write (c : cell) (v : pytree jval) (s : trace_state) : trace_state :=
  {| ts_trace := upgrade c (ts_trace s);
     ts_frame := ts_frame s;
     ts_cells := <[c := v]> (ts_cells s) |}.

(** Two pytrees of the same structure with leaves related one by one. *)
Definition tree_rel {A B} (R : A → B → Prop) (t : pytree A) (u : pytree B) : Prop :=
  tree_structure t = tree_structure u ∧ Forall2 R (tree_leaves t) (tree_leaves u).

(** Results leaf by leaf: arrays related, the same State object, or both
    some other object. *)
Inductive obj_rel (R : jval → jval → Prop) : pyobj → pyobj → Prop :=
| obj_rel_arr a b : R a b → obj_rel R (OArr a) (OArr b)
| obj_rel_state c : obj_rel R (OState c) (OState c)
| obj_rel_opaque : obj_rel R OOpaque OOpaque.

(** Two calls that go through the same reads, assignments and exits, on
    related values. *)
Inductive prog_rel (R : jval → jval → Prop) : prog → prog → Prop :=
| prog_rel_return out out' :
    tree_rel (obj_rel R) out out' → prog_rel R (Return out) (Return out')
| prog_rel_raise e :
    prog_rel R (Raise e) (Raise e)
| prog_rel_get c k k' :
    (∀ v v', tree_rel R v v' → prog_rel R (k v) (k' v')) →
    prog_rel R (GetValue c k) (GetValue c k')
| prog_rel_set c v v' k k' :
    tree_rel R v v' → prog_rel R k k' →
    prog_rel R (SetValue c v k) (SetValue c v' k').

(** A relation on values that literals and the primitives respect. *)
Definition admissible (R : jval → jval → Prop) : Prop :=
  (∀ z, R (Lit z) (Lit z)) ∧
  (∀ op a a' b b', R a a' → R b b' → R (jax_bind op a b) (jax_bind op a' b')).

(** A concrete value: an array, no tracer. *)
Definition concrete (v : jval) : Prop :=
  match v with
  | Lit _ => True
  | _ => False
  end.

(** Two argument lists of one call shape, counting positions from [i]: at a
    static position the same concrete value, at a dynamic position related
    values. *)
Fixpoint args_rel (R : jval → jval → Prop) (static_argnums : list Z) (i : nat)
    (args args' : list (pytree jval)) : Prop :=
  match args, args' with
  | [], [] => True
  | a :: rest, a' :: rest' =>
      (if is_static static_argnums i
       then a = a' ∧ Forall concrete (tree_leaves a)
       else tree_rel R a a') ∧
      args_rel R static_argnums (S i) rest rest'
  | _, _ => False
  end.

(** A function that is pure given its State cells: what it does depends on
    its static arguments, on the structure of its other arguments and of the
    values it reads, and on array values only through the primitives.  Run on
    related arguments it makes related calls, for every relation the
    primitives respect. *)
Definition traceable (static_argnums : list Z)
    (body : list (pytree jval) → pytree jval → prog) : Prop :=
  ∀ R, admissible R →
    ∀ args args' kwargs kwargs',
      args_rel R static_argnums 0 args args' → tree_rel R kwargs kwargs' →
      prog_rel R (body args kwargs) (body args' kwargs').

(** The State objects of two stores are the same and hold values of the
    same structure. *)
Definition same_structure (cs1 cs2 : gmap cell (pytree jval)) : Prop :=
  ∀ c, match cs1 !! c, cs2 !! c with
       | Some v, Some v' => tree_structure v = tree_structure v'
       | None, None => True
       | _, _ => False
       end.

(** A tracer stands for the value its expression has under the inputs. *)
Definition denotes (env : list jval) (e v : jval) : Prop := eval_jval env e = Some v.

(** The simulation of a traced call by a direct one.  [cells0]: the State
    values when the trace started; [cs0]: the State values direct execution
    and replay start from; [env_in]: the leaves of the dynamic arguments;
    [recorded_states]: the State objects the finished trace recorded, in
    order. *)

(** The leaves of the value a State object holds in [cs0]. *)
Definition seg (cs0 : gmap cell (pytree jval)) (c : cell) : list jval :=
  tree_leaves (default (PNode []) (cs0 !! c)).

(** The inputs of the replay: the arguments, then the State values. *)
Definition replay_env (cs0 : gmap cell (pytree jval)) (env_in : list jval)
    (recorded_states : list cell) : list jval :=
  env_in ++ concat (map (seg cs0) recorded_states).

(** What relates a trace state to the State values of the direct call. *)
Record sim_inv (cells0 cs0 : gmap cell (pytree jval)) (env_in : list jval)
    (recorded_states : list cell)
    (s : trace_state) (cs : gmap cell (pytree jval)) : Prop := {
  sim_trace : trace_inv cells0 s;
  sim_untouched : ∀ c, c ∉ states (ts_trace s) → cs !! c = cs0 !! c;
  sim_recorded : ∀ c, c ∈ states (ts_trace s) →
    ∃ tv dv, ts_cells s !! c = Some tv ∧ cs !! c = Some dv ∧
             tree_rel (denotes (replay_env cs0 env_in recorded_states)) tv dv;
  sim_frame :
    length (invars (ts_frame s)) =
    (length env_in + length (concat (map (seg cs0) (states (ts_trace s)))))%nat;
}.

(** The configuration of a wrapper: what the constructor was given. *)
Definition same_configuration (w w' : StatefulFunction) : Prop :=
  fun_ w' = fun_ w ∧ static_argnums w' = static_argnums w ∧
  state_returns w' = state_returns w ∧ cache_type w' = cache_type w.

(** The entries of the four tables under a key. *)
Definition entries (w : StatefulFunction) (k : cache_key)
  : option ClosedJaxpr * option (pytree aval) * option (pytree ()) * option StateTrace :=
  (_jaxpr w !! k, _out_shapes w !! k, _jaxpr_out_tree w !! k, _state_trace w !! k).

(** What the tables hold under a key with the trace [tr]: a jaxpr, the
    pair of output shapes and State shapes with one State shape per recorded
    State object, the structure of that pair, and as many jaxpr outputs as
    the pair has leaves; no State object is recorded twice. *)
Definition entry_consistent (w : StatefulFunction) (k : cache_key) (tr : StateTrace) : Prop :=
  NoDup (states tr) ∧
  ∃ j out_shapes state_shapes,
    _jaxpr w !! k = Some j ∧
    _out_shapes w !! k = Some (PNode [out_shapes; PNode state_shapes]) ∧
    _jaxpr_out_tree w !! k = Some (tree_structure (PNode [out_shapes; PNode state_shapes])) ∧
    length state_shapes = length (states tr) ∧
    length (jaxpr_outvars j) = length (tree_leaves (PNode [out_shapes; PNode state_shapes])).

Definition cache_consistent (w : StatefulFunction) : Prop :=
  ∀ k tr, _state_trace w !! k = Some tr → entry_consistent w k tr.

(** The leaves of the values the recorded State objects held before the
    trace. *)
Definition recorded_leaves (tr : StateTrace) : list jval :=
  concat (map (λ r, tree_leaves (ar_original r)) tr).

(** The frame grows by the symbolic inputs of the State objects recorded. *)
Definition frame_inv (n0 : nat) (s : trace_state) : Prop :=
  length (invars (ts_frame s)) = (n0 + length (recorded_leaves (ts_trace s)))%nat.

(** The wrapper with another [state_returns]. *)
Definition set_state_returns (sr : list category) (w : StatefulFunction) : StatefulFunction :=
  {| fun_ := fun_ w; static_argnums := static_argnums w; state_returns := sr;
     cache_type := cache_type w;
     _jaxpr := _jaxpr w; _out_shapes := _out_shapes w; _jaxpr_out_tree := _jaxpr_out_tree w;
     _state_trace := _state_trace w |}.

(** The machine whose wrapper has another [state_returns]. *)
Definition with_state_returns (sr : list category) (m : machine) : machine :=
  with_self m (set_state_returns sr (self m)).

(** Two Access Records of the same State object and category, whose
    pre-trace values have the same structure. *)
Definition record_rel (r r2 : access_record) : Prop :=
  ar_state r = ar_state r2 ∧ ar_type r = ar_type r2 ∧
  tree_structure (ar_original r) = tree_structure (ar_original r2).

(** Two runs of a trace in step: the same records up to the pre-trace
    values, the same frame, the same values in the recorded State objects,
    and values of the same structure in the others. *)
Record lockstep (s s2 : trace_state) : Prop := {
  ls_trace : Forall2 record_rel (ts_trace s) (ts_trace s2);
  ls_frame : ts_frame s = ts_frame s2;
  ls_recorded : ∀ c, c ∈ states (ts_trace s) → ts_cells s !! c = ts_cells s2 !! c;
  ls_cells : same_structure (ts_cells s) (ts_cells s2);
}.

(** Two wrappers that answer every accessor alike. *)
Definition same_answers (w w2 : StatefulFunction) : Prop :=
  ∀ k, get_jaxpr w k = get_jaxpr w2 k ∧
       get_out_shapes w k = get_out_shapes w2 k ∧
       get_out_treedef w k = get_out_treedef w2 k ∧
       get_states w k = get_states w2 k ∧
       get_read_states w k = get_read_states w2 k ∧
       get_write_states w k = get_write_states w2 k.

(* ===================================================================== *)
(** ** Example functions and machines *)
(* ===================================================================== *)

(** The function [f(x)] with body [s.value = x + s.value], for [s] the State
    object [0]; it returns [None]. *)
Definition add_to_state_body (args : list (pytree jval)) (kwargs : pytree jval) : prog :=
  match args with
  | [PLeaf x] =>
      GetValue 0%nat (λ v,
        match v with
        | PLeaf sv => SetValue 0%nat (PLeaf (jax_bind Add x sv)) (Return (PNode []))
        | PNode _ => Raise (UserError 0)
        end)
  | _ => Raise (UserError 0)
  end.

Definition add_to_state : pyfun := PyFunction add_to_state_body.

(** A fresh wrapper over [f], with [s] holding 10. *)
Definition scenario_machine : machine :=
  {| self := fresh_wrapper add_to_state [];
     cells := {[ 0%nat := PLeaf (Lit 10) ]};
     fun_calls := 0 |}.

(** The machine after [make_jaxpr(5)]. *)
Definition scenario_traced : machine :=
  snd (make_jaxpr [PLeaf (Lit 5)] (PNode []) scenario_machine).

(** A function that assigns the State object [0] and then fails. *)
Definition write_then_fail : pyfun :=
  PyFunction (λ _ _, SetValue 0%nat (PLeaf (Lit 1)) (Raise (UserError 3))).

(** A fresh wrapper over it, the State object holding 10. *)
Definition failing_machine : machine :=
  {| self := fresh_wrapper write_then_fail [];
     cells := {[ 0%nat := PLeaf (Lit 10) ]};
     fun_calls := 0 |}.

(** A function that reads the State object [0] and then fails. *)
Definition read_then_fail : pyfun :=
  PyFunction (λ _ _, GetValue 0%nat (λ _, Raise (UserError 3))).

(** A function that reads the State object [0] and returns it inside a
    container. *)
Definition returns_state : pyfun :=
  PyFunction (λ _ _,
    GetValue 0%nat (λ v,
      Return (PNode [PLeaf (OArr (Lit 1)); PNode [PLeaf (OState 0%nat)]]))).

(** A wrapper under the ['jit'] policy over [add_to_state], the State object
    holding 10, and the machine after [make_jaxpr(5)]. *)
Definition jit_machine : machine :=
  {| self := {| fun_ := add_to_state; static_argnums := []; state_returns := [read; write];
                cache_type := cache_jit;
                _jaxpr := ∅; _out_shapes := ∅; _jaxpr_out_tree := ∅; _state_trace := ∅ |};
     cells := {[ 0%nat := PLeaf (Lit 10) ]};
     fun_calls := 0 |}.

Definition jit_traced : machine :=
  snd (make_jaxpr [PLeaf (Lit 5)] (PNode []) jit_machine).

(* ===================================================================== *)
(** * Properties *)
(* ===================================================================== *)

(** ** Pytrees: flattening and unflattening *)

Lemma unflatten_from_node {L} ds (xs : list L) :
  unflatten_from (PNode ds) xs =
  match unflatten_list ds xs with
  | Some (ts, rest) => Some (PNode ts, rest)
  | None => None
  end.
Proof.
  simpl.
  assert (H : ∀ ds xs,
    (fix go (ds : list (pytree ())) (xs : list L) : option (list (pytree L) * list L) :=
       match ds with
       | [] => Some ([], xs)
       | d :: ds' =>
           match unflatten_from d xs with
           | Some (t, xs1) =>
               match go ds' xs1 with
               | Some (ts, xs2) => Some (t :: ts, xs2)
               | None => None
               end
           | None => None
           end
       end) ds xs = unflatten_list ds xs).
  { clear. induction ds as [|d ds IH]; intros xs; simpl; [done|].
    destruct (unflatten_from d xs) as [[t xs1]|]; [|done]. by rewrite IH. }
  by rewrite H.
Qed.

Lemma tree_leaves_map {L L'} (f : L → L') (t : pytree L) :
  tree_leaves (tree_map f t) = map f (tree_leaves t).
Proof.
  induction t as [x|ts IH] using pytree_ind'; simpl; [done|].
  induction IH as [|t ts Ht _ IHts]; simpl; [done|].
  by rewrite map_app, Ht, IHts.
Qed.

Lemma tree_structure_map {L L'} (f : L → L') (t : pytree L) :
  tree_structure (tree_map f t) = tree_structure t.
Proof.
  unfold tree_structure.
  induction t as [x|ts IH] using pytree_ind'; simpl; [done|].
  f_equal. induction IH as [|t ts Ht _ IHts]; simpl; [done|].
  by rewrite Ht, IHts.
Qed.

(** Reading the leaves of [t] back through the structure of any tree of the
    same shape rebuilds that tree with the new leaves. *)
Lemma unflatten_from_leaves {L} (t : pytree L) (rest : list L) :
  unflatten_from (tree_structure t) (tree_leaves t ++ rest) = Some (t, rest).
Proof.
  revert rest. induction t as [x|ts IH] using pytree_ind'; intros rest; [done|].
  change (tree_structure (PNode ts)) with (PNode (map (@tree_structure L) ts)).
  rewrite unflatten_from_node. simpl tree_leaves.
  assert (H : unflatten_list (map tree_structure ts)
                (concat (map tree_leaves ts) ++ rest) = Some (ts, rest)).
  { induction IH as [|t ts Ht _ IHts]; simpl; [done|].
    rewrite <- app_assoc, Ht. by rewrite IHts. }
  by rewrite H.
Qed.

Lemma tree_unflatten_leaves {L} (t : pytree L) :
  tree_unflatten (tree_structure t) (tree_leaves t) = Some t.
Proof.
  unfold tree_unflatten.
  rewrite <- (app_nil_r (tree_leaves t)). by rewrite unflatten_from_leaves.
Qed.
(* ===================================================================== *)

(** ** The cache key *)

Lemma py_index_in_range {A} (l : list A) (i : Z) :
  - Z.of_nat (length l) ≤ i → i < Z.of_nat (length l) → is_Some (py_index l i).
Proof.
  intros Hlo Hhi. unfold py_index.
  destruct (decide (0 ≤ i)).
  - apply lookup_lt_is_Some. lia.
  - destruct (decide (- Z.of_nat (length l) ≤ i)); [|lia].
    apply lookup_lt_is_Some. lia.
Qed.

Lemma static_values_spec (static_argnums : list Z) (args : list (pytree jval)) :
  Forall (λ i, - Z.of_nat (length args) ≤ i) static_argnums →
  ∃ vals, static_values static_argnums args = Ok vals ∧
          Forall2 (λ i v, py_index args i = Some v)
                  (filter (λ i, i < Z.of_nat (length args)) static_argnums) vals.
Proof.
  induction 1 as [|i rest Hi _ IH]; simpl.
  - exists []. split; [done|constructor].
  - destruct IH as (vals & Hvals & Hall).
    rewrite filter_cons. destruct (decide (i < Z.of_nat (length args))) as [Hlt|Hge].
    + destruct (py_index_in_range args i Hi Hlt) as [a Ha].
      rewrite Ha, Hvals. exists (a :: vals). split; [done|]. by constructor.
    + exists vals. by split.
Qed.

Lemma static_values_index_error sa (args : list (pytree jval)) :
  Exists (λ i, i < - Z.of_nat (length args)) sa → static_values sa args = Err IndexError.
Proof.
  induction sa as [|i sa IH]; intros H; [by apply Exists_nil in H|].
  simpl. destruct (decide (i < - Z.of_nat (length args))) as [Hi|Hi].
  - rewrite decide_True by lia.
    unfold py_index. rewrite decide_False by lia. by rewrite decide_False by lia.
  - apply Exists_cons in H as [H|H]; [done|].
    destruct (decide (i < Z.of_nat (length args))) as [Hlt|Hge]; [|by apply IH].
    destruct (py_index_in_range args i) as [a Ha]; [lia|done|].
    rewrite Ha. by rewrite IH.
Qed.

(** [args[i]] as a lookup at the position [i] stands for. *)
Lemma py_index_lookup {A} (l : list A) (i : Z) (a : A) :
  py_index l i = Some a →
  l !! Z.to_nat (if decide (0 ≤ i) then i else Z.of_nat (length l) + i) = Some a.
Proof.
  unfold py_index. destruct (decide (0 ≤ i)); [done|].
  by destruct (decide (- Z.of_nat (length l) ≤ i)).
Qed.

(** The list comprehension with a test, one step. *)
Lemma omap_step {A B} (f : A → option B) (x : A) (l : list A) :
  omap f (x :: l) = match f x with Some y => y :: omap f l | None => omap f l end.
Proof. done. Qed.

(** With positions that are not negative, the values are those found at the
    listed positions the call has. *)
Lemma static_values_positions (sa : list Z) (args : list (pytree jval)) :
  Forall (λ i, 0 ≤ i) sa →
  static_values sa args = Ok (omap (λ i, args !! Z.to_nat i) sa).
Proof.
  induction 1 as [|i sa Hi _ IH]; [done|].
  rewrite omap_step. cbn [static_values].
  destruct (decide (i < Z.of_nat (length args))) as [Hlt|Hge].
  - unfold py_index. rewrite (decide_True (P := 0 ≤ i)) by done.
    destruct (lookup_lt_is_Some_2 args (Z.to_nat i)) as [a Ha]; [lia|].
    rewrite Ha, IH. done.
  - rewrite lookup_ge_None_2 by lia. done.
Qed.

Lemma omap_lookup_past {A} (l : list A) (sa : list Z) :
  Forall (λ i, Z.of_nat (length l) ≤ i) sa →
  omap (λ i, l !! Z.to_nat i) sa = [].
Proof.
  induction 1 as [|i sa Hi _ IH]; [done|].
  rewrite omap_step, lookup_ge_None_2 by lia. done.
Qed.

Lemma select_static_snoc {A} (sa : list Z) (l : list A) (a : A) (i : nat) :
  select_static sa i (l ++ [a]) =
  select_static sa i l ++ (if is_static sa (i + length l) then [a] else []).
Proof.
  revert i. induction l as [|b l IH]; intros i; cbn [select_static app length].
  - rewrite Nat.add_0_r. by destruct (is_static sa i).
  - rewrite IH. replace (S i + length l)%nat with (i + S (length l))%nat by lia.
    by destruct (is_static sa i).
Qed.

Lemma omap_lookup_snoc {A} (sa : list Z) (l : list A) (a : A) :
  Forall (λ i, 0 ≤ i) sa →
  Sorted.StronglySorted Z.lt sa →
  omap (λ i, (l ++ [a]) !! Z.to_nat i) sa =
  omap (λ i, l !! Z.to_nat i) sa ++ (if is_static sa (length l) then [a] else []).
Proof.
  intros Hpos Hsorted. induction Hsorted as [|i sa Hsorted IH Hall]; [done|].
  apply list.Forall_cons in Hpos as [Hi Hpos]. specialize (IH Hpos).
  rewrite !omap_step.
  destruct (decide (i < Z.of_nat (length l))) as [Hlt|Hge].
  - (* a position of [l] *)
    rewrite lookup_app_l by lia.
    destruct (lookup_lt_is_Some_2 l (Z.to_nat i)) as [b Hb]; [lia|].
    rewrite Hb, IH. cbn [app]. f_equal.
    assert (is_static (i :: sa) (length l) = is_static sa (length l)) as ->; [|done].
    unfold is_static. apply bool_decide_ext. rewrite elem_of_cons. split; [|tauto].
    intros [?|?]; [lia|done].
  - (* the later entries are past the end *)
    assert (Forall (λ j, Z.of_nat (length (l ++ [a])) ≤ j) sa) as Hpast.
    { eapply List.Forall_impl; [|exact Hall]. cbn beta. intros j Hj.
      rewrite length_app. cbn [length]. lia. }
    assert (Forall (λ j, Z.of_nat (length l) ≤ j) sa) as Hpast'.
    { eapply List.Forall_impl; [|exact Hall]. cbn beta. intros j Hj. lia. }
    rewrite (omap_lookup_past _ _ Hpast), (omap_lookup_past _ _ Hpast').
    rewrite (lookup_ge_None_2 l) by lia. cbn [app].
    destruct (decide (i = Z.of_nat (length l))) as [->|Hne].
    + rewrite Nat2Z.id, lookup_app_r by lia. rewrite Nat.sub_diag. cbn [lookup list_lookup].
      unfold is_static. rewrite bool_decide_eq_true_2; [done|]. by left.
    + rewrite lookup_ge_None_2 by (rewrite length_app; cbn [length]; lia).
      unfold is_static. rewrite bool_decide_eq_false_2; [done|].
      rewrite elem_of_cons. intros [?|Hin]; [lia|].
      rewrite list.Forall_forall in Hall. specialize (Hall _ Hin). lia.
Qed.

(** Listed in increasing order, the positions give the values in position
    order: the static arguments as the split of the arguments has them. *)
Lemma omap_lookup_select_static {A} (sa : list Z) (l : list A) :
  Forall (λ i, 0 ≤ i) sa →
  Sorted.StronglySorted Z.lt sa →
  omap (λ i, l !! Z.to_nat i) sa = select_static sa 0 l.
Proof.
  intros Hpos Hsorted. induction l as [|a l IH] using rev_ind.
  - cbn [select_static]. apply omap_lookup_past.
    eapply List.Forall_impl; [|exact Hpos]. cbn. lia.
  - rewrite omap_lookup_snoc, select_static_snoc, IH by done. done.
Qed.

(** C8.  Under the static-only policy ([cache_type] None) the cache key of a
    call is the tuple of the exact values [args[i]] for the entries [i] of
    [static_argnums] below [len(args)], in the order in which
    [static_argnums] lists them: an entry listed twice gives its value
    twice, an entry at or past [len(args)] gives nothing, a negative entry
    counts from the end.  An entry below [-len(args)] makes the computation
    raise IndexError.  When the entries are positions listed in increasing
    order, the key is the tuple of the static arguments in position order. *)
Theorem static_only_cache_key (w : StatefulFunction) (args : list (pytree jval))
    (kwargs : pytree jval) :
  cache_type w = cache_None →
  (Exists (λ i, i < - Z.of_nat (length args)) (static_argnums w) →
   get_arg_cache_key w args kwargs = Err IndexError) ∧
  (Forall (λ i, - Z.of_nat (length args) ≤ i) (static_argnums w) →
   ∃ vals,
     get_arg_cache_key w args kwargs = Ok (PNode (map (tree_map inl) vals)) ∧
     Forall2 (λ i v, args !! Z.to_nat (if decide (0 ≤ i) then i
                                        else Z.of_nat (length args) + i) = Some v)
             (filter (λ i, i < Z.of_nat (length args)) (static_argnums w)) vals) ∧
  (Forall (λ i, 0 ≤ i) (static_argnums w) →
   Sorted.StronglySorted Z.lt (static_argnums w) →
   get_arg_cache_key w args kwargs =
     Ok (PNode (map (tree_map inl) (select_static (static_argnums w) 0 args)))).
Proof.
  intros Hpolicy. unfold get_arg_cache_key. rewrite Hpolicy.
  split; [|split].
  - intros Hex. by rewrite (static_values_index_error _ _ Hex).
  - intros Hall. destruct (static_values_spec _ _ Hall) as (vals & Hvals & Hfa).
    exists vals. rewrite Hvals. split; [done|].
    eapply list.Forall2_impl; [exact Hfa|]. intros i v. apply py_index_lookup.
  - intros Hpos Hsorted.
    rewrite (static_values_positions _ _ Hpos).
    by rewrite (omap_lookup_select_static _ _ Hpos Hsorted).
Qed.

Lemma static_only_cache_key_witness :
  (∃ vals,
     get_arg_cache_key (fresh_wrapper PyNotCallable [0; 2; 5])
       [PLeaf (Lit 7); PLeaf (Lit 8); PLeaf (Lit 9)] (PNode [])
       = Ok (PNode (map (tree_map inl) vals)) ∧
     Forall2 (λ i v, [PLeaf (Lit 7); PLeaf (Lit 8); PLeaf (Lit 9)]
                       !! Z.to_nat (if decide (0 ≤ i) then i else 3 + i) = Some v)
             [0; 2] vals) ∧
  get_arg_cache_key (fresh_wrapper PyNotCallable [0; 2; 5])
    [PLeaf (Lit 7); PLeaf (Lit 8); PLeaf (Lit 9)] (PNode [])
    = Ok (PNode (map (tree_map inl) [PLeaf (Lit 7); PLeaf (Lit 9)])).
Proof.
  destruct (static_only_cache_key (fresh_wrapper PyNotCallable [0; 2; 5])
              [PLeaf (Lit 7); PLeaf (Lit 8); PLeaf (Lit 9)] (PNode []) eq_refl)
    as (_ & Hlisted & Hsorted).
  split.
  - apply Hlisted. repeat constructor; simpl; lia.
  - apply Hsorted; repeat constructor; simpl; lia.
Defined.

(** The key is not always the tuple of the static arguments in position
    order (counterexample to C8 as worded): with [static_argnums = (1, 0)]
    the key of [f(7, 8)] is [(8, 7)], not [(7, 8)]; with [(0, 0, -2)] it is
    [(7, 7, 7)]; with [(-1,)] and no argument there is no key but an
    IndexError. *)
Lemma static_only_cache_key_not_position_order :
  get_arg_cache_key (fresh_wrapper PyNotCallable [1; 0])
    [PLeaf (Lit 7); PLeaf (Lit 8)] (PNode [])
    = Ok (PNode [PLeaf (inl (Lit 8)); PLeaf (inl (Lit 7))]) ∧
  select_static [1; 0] 0 [PLeaf (Lit 7); PLeaf (Lit 8)] = [PLeaf (Lit 7); PLeaf (Lit 8)] ∧
  get_arg_cache_key (fresh_wrapper PyNotCallable [1; 0])
    [PLeaf (Lit 7); PLeaf (Lit 8)] (PNode [])
    ≠ Ok (PNode (map (tree_map inl)
                   (select_static [1; 0] 0 [PLeaf (Lit 7); PLeaf (Lit 8)]))) ∧
  get_arg_cache_key (fresh_wrapper PyNotCallable [0; 0; -2])
    [PLeaf (Lit 7); PLeaf (Lit 8)] (PNode [])
    = Ok (PNode [PLeaf (inl (Lit 7)); PLeaf (inl (Lit 7)); PLeaf (inl (Lit 7))]) ∧
  get_arg_cache_key (fresh_wrapper PyNotCallable [-1]) [] (PNode []) = Err IndexError.
Proof.
  split; [reflexivity|]. split; [reflexivity|]. split; [|split; reflexivity].
  intros H. vm_compute in H. discriminate H.
Qed.

(** ** The accessors *)

(** C9.  On a key with no stored trace, [get_jaxpr], [get_out_shapes],
    [get_out_treedef] and [get_states] raise the ValueError "the function is
    not called with the static arguments", and [get_read_states] and
    [get_write_states] raise a bare KeyError instead. *)
Theorem accessors_on_unknown_key :
  let w := fresh_wrapper (PyFunction (λ _ _, Return (PNode []))) [] in
  get_jaxpr w empty_key = Err (ValueError_not_called empty_key) ∧
  get_out_shapes w empty_key = Err (ValueError_not_called empty_key) ∧
  get_out_treedef w empty_key = Err (ValueError_not_called empty_key) ∧
  get_states w empty_key = Err (ValueError_not_called empty_key) ∧
  get_read_states w empty_key = Err (KeyError empty_key) ∧
  get_write_states w empty_key = Err (KeyError empty_key) ∧
  class_of (KeyError empty_key) ≠ class_of (ValueError_not_called empty_key).
Proof. cbv zeta. repeat split; try reflexivity. discriminate. Qed.

Lemma accessors_absent (w : StatefulFunction) (k : cache_key) :
  absent k w →
  get_jaxpr w k = Err (ValueError_not_called k) ∧
  get_out_shapes w k = Err (ValueError_not_called k) ∧
  get_out_treedef w k = Err (ValueError_not_called k) ∧
  get_states w k = Err (ValueError_not_called k) ∧
  get_read_states w k = Err (KeyError k) ∧
  get_write_states w k = Err (KeyError k).
Proof.
  intros (Hj & Hs & Ht & Hst).
  unfold get_jaxpr, get_out_shapes, get_out_treedef, get_states, get_read_states,
    get_write_states.
  by rewrite Hj, Hs, Ht, Hst.
Qed.

(** ** Pytrees: what [unflatten] returns *)

Lemma unflatten_from_inv {L} (d : pytree ()) :
  ∀ (xs : list L) t rest,
    unflatten_from d xs = Some (t, rest) →
    tree_structure t = d ∧ xs = tree_leaves t ++ rest.
Proof.
  induction d as [[]|ds IH] using pytree_ind'; intros xs t rest.
  - destruct xs as [|x xs]; simpl; [done|]. intros [= <- <-]. done.
  - rewrite unflatten_from_node.
    destruct (unflatten_list ds xs) as [[ts rest']|] eqn:Hl; [|done].
    intros [= <- <-].
    enough (map tree_structure ts = ds ∧ xs = concat (map tree_leaves ts) ++ rest') as [H1 H2].
    { split; [|done]. change (tree_structure (PNode ts)) with (PNode (map (@tree_structure L) ts)).
      by rewrite H1. }
    revert xs ts rest' Hl.
    induction IH as [|d ds Hd _ IHds]; intros xs ts rest'; simpl.
    + intros [= <- <-]. done.
    + destruct (unflatten_from d xs) as [[t xs1]|] eqn:Ht; [|done].
      destruct (unflatten_list ds xs1) as [[ts' xs2]|] eqn:Hts; [|done].
      intros [= <- <-].
      destruct (Hd _ _ _ Ht) as [Hs1 ->].
      destruct (IHds _ _ _ Hts) as [Hs2 ->].
      split; [simpl; f_equal; [exact Hs1 | exact Hs2] | simpl; by rewrite app_assoc].
Qed.

Lemma tree_unflatten_inv {L} (d : pytree ()) (xs : list L) t :
  tree_unflatten d xs = Some t → tree_structure t = d ∧ xs = tree_leaves t.
Proof.
  unfold tree_unflatten.
  destruct (unflatten_from d xs) as [[t' [|r rest]]|] eqn:H; try done.
  intros [= <-]. destruct (unflatten_from_inv _ _ _ _ H) as [H1 H2].
  split; [done|]. by rewrite H2, app_nil_r.
Qed.

Lemma tree_structure_leaves_inj {L} (t u : pytree L) :
  tree_structure t = tree_structure u → tree_leaves t = tree_leaves u → t = u.
Proof.
  intros Hs Hl. pose proof (tree_unflatten_leaves t) as Ht.
  rewrite Hs, Hl, tree_unflatten_leaves in Ht. congruence.
Qed.

Lemma tree_structure_pair_inv {L} (t : pytree L) (a b : pytree ()) :
  tree_structure t = PNode [a; b] →
  ∃ ta tb, t = PNode [ta; tb] ∧ tree_structure ta = a ∧ tree_structure tb = b.
Proof.
  destruct t as [x|ts]; [done|].
  change (tree_structure (PNode ts)) with (PNode (map (@tree_structure L) ts)).
  intros [= H]. destruct ts as [|ta [|tb [|? ?]]]; try done.
  injection H as <- <-. by exists ta, tb.
Qed.

(** ** What a trace does to the wrapper *)

Lemma _wrapped_fun_to_eval_self k args kwargs frame m r frame' m' :
  _wrapped_fun_to_eval k args kwargs frame m = (r, frame', m') →
  (∃ tr, self m' = set_state_trace k tr (self m)) ∧ fun_calls m' = S (fun_calls m).
Proof.
  unfold _wrapped_fun_to_eval.
  destruct (run_traced _ _) as [[out|e] s1]; simpl.
  - destruct (collect_values _ _ _ _) as [svs|e]; simpl.
    + destruct (first_state _); intros [= <- <- <-]; simpl; eauto.
    + intros [= <- <- <-]; simpl; eauto.
  - intros [= <- <- <-]; simpl; eauto.
Qed.

Lemma _wrapped_fun_to_eval_ok k args kwargs frame m ans frame' m' :
  _wrapped_fun_to_eval k args kwargs frame m = (Ok ans, frame', m') →
  ∃ out svs, ans = PNode [out; PNode svs].
Proof.
  unfold _wrapped_fun_to_eval.
  destruct (run_traced _ _) as [[out|e] s1]; simpl; [|done].
  destruct (collect_values _ _ _ _) as [svs|e]; simpl; [|done].
  destruct (first_state _); [done|]. intros [= <- <- <-]. eauto.
Qed.

Lemma _make_jaxpr_partial k sa args kwargs m r m1 :
  _make_jaxpr (traced_partial k) sa args kwargs m = (r, m1) →
  ((∃ e, r = Err e) ∧ m1 = m) ∨
  ((∃ tr, self m1 = set_state_trace k tr (self m)) ∧
   fun_calls m1 = S (fun_calls m) ∧
   ∀ j sh, r = Ok (j, sh) → ∃ a b, sh = PNode [a; b]).
Proof.
  unfold _make_jaxpr. simpl.
  destruct (trace_inputs sa args kwargs) as [[[full_args py_kwargs] frame]|].
  2:{ intros [= <- <-]. left. eauto. }
  destruct (_wrapped_fun_to_eval k full_args py_kwargs frame m) as [[[ans|e] frame1] m2] eqn:Hw.
  - destruct (_wrapped_fun_to_eval_self _ _ _ _ _ _ _ _ Hw) as [Htr Hcalls].
    destruct (_wrapped_fun_to_eval_ok _ _ _ _ _ _ _ _ Hw) as (out & svs & ->).
    destruct (mapM full_raise _) as [outs|].
    + destruct (tree_unflatten _ _) as [shapes|] eqn:Hsh.
      * intros [= <- <-]. right. split; [done|]. split; [done|].
        intros j sh [= <- <-].
        destruct (tree_unflatten_inv _ _ _ Hsh) as [Hs _].
        destruct (tree_structure_pair_inv _ _ _ Hs) as (a & b & -> & _). eauto.
      * intros [= <- <-]. right. split; [done|]. split; [done|]. done.
    + intros [= <- <-]. right. split; [done|]. split; [done|]. done.
  - destruct (_wrapped_fun_to_eval_self _ _ _ _ _ _ _ _ Hw) as [Htr Hcalls].
    intros [= <- <-]. right. split; [done|]. split; [done|]. done.
Qed.

(** The ways out of [make_jaxpr]. *)
Lemma make_jaxpr_cases args kwargs m r m' :
  make_jaxpr args kwargs m = (r, m') →
  (∃ e, get_arg_cache_key (self m) args kwargs = Err e ∧ r = Err e ∧ m' = m) ∨
  (∃ k, get_arg_cache_key (self m) args kwargs = Ok k ∧
        is_Some (_state_trace (self m) !! k) ∧ r = Ok () ∧ m' = m) ∨
  (∃ k r1 m1,
      get_arg_cache_key (self m) args kwargs = Ok k ∧
      _state_trace (self m) !! k = None ∧
      _make_jaxpr (traced_partial k) (static_argnums (self m)) args kwargs m = (r1, m1) ∧
      cells m' = cells m1 ∧ fun_calls m' = fun_calls m1 ∧
      ((∃ j a b tr, r1 = Ok (j, PNode [a; b]) ∧ r = Ok () ∧
          self m1 = set_state_trace k tr (self m) ∧
          self m' = set_jaxpr k j (set_out_shapes k (PNode [a; b])
                     (set_jaxpr_out_tree k (tree_structure (PNode [a; b])) (self m1)))) ∨
       (∃ e, r1 = Err e ∧ r = Err e ∧ self m' = pop_state_trace k (self m1) ∧
          (m1 = m ∨ ∃ tr, self m1 = set_state_trace k tr (self m))))).
Proof.
  unfold make_jaxpr.
  destruct (get_arg_cache_key (self m) args kwargs) as [k|e] eqn:Hk.
  2:{ intros [= <- <-]. left. eauto. }
  destruct (decide (is_Some (_state_trace (self m) !! k))) as [Hin|Hout].
  { intros [= <- <-]. right. left. eauto. }
  assert (_state_trace (self m) !! k = None) as Hnone.
  { destruct (_state_trace (self m) !! k) eqn:E; [|done]. exfalso. apply Hout. eauto. }
  fold (traced_partial k).
  destruct (_make_jaxpr (traced_partial k) (static_argnums (self m)) args kwargs m)
    as [r1 m1] eqn:Hmk.
  intros Hmj. right. right.
  exists k, r1, m1. split; [done|]. split; [done|]. split; [done|].
  destruct (_make_jaxpr_partial _ _ _ _ _ _ _ Hmk) as [[[e ->] ->]|(Htr & Hcalls & Hpair)].
  - injection Hmj as <- <-. split; [done|]. split; [done|]. right. exists e. eauto.
  - destruct r1 as [[j sh]|e].
    + destruct (Hpair j sh eq_refl) as (a & b & ->).
      injection Hmj as <- <-. split; [done|]. split; [done|]. left.
      destruct Htr as [tr Htr]. exists j, a, b, tr. eauto.
    + injection Hmj as <- <-. split; [done|]. split; [done|]. right. exists e. eauto.
Qed.

Lemma pop_state_trace_id k w :
  _state_trace w !! k = None → pop_state_trace k w = w.
Proof.
  intros H. destruct w. unfold pop_state_trace. simpl in *. f_equal. by apply delete_id.
Qed.

Lemma pop_set_state_trace k tr w :
  _state_trace w !! k = None → pop_state_trace k (set_state_trace k tr w) = w.
Proof.
  intros H. destruct w. unfold pop_state_trace, set_state_trace. simpl in *. f_equal.
  rewrite delete_insert_eq. by apply delete_id.
Qed.

Lemma tables_agree_lookup w k :
  tables_agree w →
  (is_Some (_jaxpr w !! k) ↔ is_Some (_state_trace w !! k)) ∧
  (is_Some (_out_shapes w !! k) ↔ is_Some (_state_trace w !! k)) ∧
  (is_Some (_jaxpr_out_tree w !! k) ↔ is_Some (_state_trace w !! k)).
Proof.
  intros (H1 & H2 & H3). rewrite <- !elem_of_dom. rewrite H1, H2, H3. done.
Qed.

(** ** The cache *)

(** C4.  When the cache key of a call already has a stored artifact,
    [make_jaxpr] is a no-op: it returns with the machine as it was, so the
    function was not called again, and the stored artifact, shapes, output
    tree and access records are the ones stored before. *)
Theorem make_jaxpr_cached_is_noop args kwargs m k :
  tables_agree (self m) →
  get_arg_cache_key (self m) args kwargs = Ok k →
  is_Some (_jaxpr (self m) !! k) →
  make_jaxpr args kwargs m = (Ok (), m).
Proof.
  intros Hagree Hk Hstored.
  apply (tables_agree_lookup _ k) in Hagree as (Hj & _ & _).
  apply Hj in Hstored.
  unfold make_jaxpr. rewrite Hk. by rewrite decide_True.
Qed.

Lemma make_jaxpr_cached_is_noop_witness :
  make_jaxpr [PLeaf (Lit 5)] (PNode []) scenario_traced = (Ok (), scenario_traced).
Proof.
  apply (make_jaxpr_cached_is_noop _ _ _ empty_key).
  - vm_compute. repeat split; reflexivity.
  - reflexivity.
  - vm_compute. eexists. reflexivity.
Defined.

(** A second [make_jaxpr] of the same call after one that succeeded changes
    nothing: the function is traced once. *)
Lemma make_jaxpr_twice args kwargs m m1 :
  make_jaxpr args kwargs m = (Ok (), m1) →
  make_jaxpr args kwargs m1 = (Ok (), m1).
Proof.
  intros H. destruct (make_jaxpr_cases _ _ _ _ _ H)
    as [(e & _ & [=] & _)|[(k & Hk & Hin & _ & ->)|(k & r1 & m2 & Hk & Hnone & Hmk & _ & _ & Hr)]].
  - done.
  - destruct Hr as [(j & a & b & tr & -> & _ & Hm2 & Hm1)|(e & _ & [=] & _)].
    assert (get_arg_cache_key (self m1) args kwargs = Ok k) as Hk1.
    { rewrite <- Hk. unfold get_arg_cache_key. rewrite Hm1, Hm2. done. }
    unfold make_jaxpr. rewrite Hk1. rewrite decide_True; [done|].
    rewrite Hm1, Hm2. simpl. rewrite lookup_insert_eq. eauto.
Qed.

(** C5.  When [make_jaxpr] raises for a key that had no entry, none of the
    four tables has an entry for the key afterwards (the wrapper is the one
    it was before the call), and the exception is the one the trace raised. *)
Theorem make_jaxpr_failure_rolls_back args kwargs m k e m' :
  get_arg_cache_key (self m) args kwargs = Ok k →
  absent k (self m) →
  make_jaxpr args kwargs m = (Err e, m') →
  absent k (self m') ∧ self m' = self m ∧
  ∃ m1, _make_jaxpr (traced_partial k) (static_argnums (self m)) args kwargs m = (Err e, m1).
Proof.
  intros Hk Habs H.
  destruct (make_jaxpr_cases _ _ _ _ _ H)
    as [(e' & Hk' & _)|[(k' & _ & _ & [=] & _)|(k' & r1 & m1 & Hk' & Hnone & Hmk & _ & _ & Hr)]].
  - congruence.
  - assert (k' = k) as -> by congruence.
    destruct Hr as [(j & a & b & tr & _ & [=] & _)|(e' & -> & [= ->] & Hm' & Hm1)].
    assert (self m' = self m) as Hself.
    { rewrite Hm'. destruct Hm1 as [->|[tr ->]].
      - by apply pop_state_trace_id.
      - by apply pop_set_state_trace. }
    split; [by rewrite Hself|]. split; [done|]. by exists m1.
Qed.

Lemma make_jaxpr_failure_rolls_back_witness :
  absent empty_key (self (snd (make_jaxpr [] (PNode []) failing_machine))) ∧
  self (snd (make_jaxpr [] (PNode []) failing_machine)) = self failing_machine ∧
  ∃ m1, _make_jaxpr (traced_partial empty_key) (static_argnums (self failing_machine))
          [] (PNode []) failing_machine = (Err (UserError 3), m1).
Proof.
  apply (make_jaxpr_failure_rolls_back [] (PNode []) failing_machine empty_key (UserError 3)).
  - reflexivity.
  - repeat split; reflexivity.
  - vm_compute. reflexivity.
Defined.

(** ** The invariant of the tables *)

Lemma tables_agree_make_jaxpr args kwargs m r m' :
  tables_agree (self m) →
  make_jaxpr args kwargs m = (r, m') →
  tables_agree (self m').
Proof.
  intros Hagree H.
  destruct (make_jaxpr_cases _ _ _ _ _ H)
    as [(e & _ & _ & ->)|[(k & _ & _ & _ & ->)|(k & r1 & m1 & Hk & Hnone & Hmk & _ & _ & Hr)]];
    [done|done|].
  destruct Hr as [(j & a & b & tr & _ & _ & Hm1 & Hm')|(e & _ & _ & Hm' & Hm1)].
  - destruct Hagree as (H1 & H2 & H3).
    rewrite Hm', Hm1. unfold tables_agree. simpl.
    rewrite !dom_insert_L, H1, H2, H3. done.
  - assert (self m' = self m) as ->; [|done].
    rewrite Hm'. destruct Hm1 as [->|[tr ->]].
    + by apply pop_state_trace_id.
    + by apply pop_set_state_trace.
Qed.

Lemma jaxpr_call_auto_self args kwargs m :
  self (snd (jaxpr_call_auto args kwargs m)) = self m.
Proof.
  unfold jaxpr_call_auto.
  destruct (get_arg_cache_key _ _ _); [|done].
  destruct (get_states _ _); [|done].
  destruct (read_values _ _); [|done].
  destruct (jaxpr_call _ _ _ _) as [[svs out]|]; [|done].
  by destruct (assign_values _ _) as [[]].
Qed.

Lemma tables_agree_perform o m :
  tables_agree (self m) → tables_agree (self (perform o m)).
Proof.
  intros Hagree. destruct o; simpl; try done.
  - destruct (make_jaxpr args kwargs m) as [r m'] eqn:H.
    by apply (tables_agree_make_jaxpr _ _ _ _ _ Hagree H).
  - unfold compile_and_get_states_by_static_args.
    destruct (get_arg_cache_key _ _ _); [|done].
    destruct (decide _); [done|].
    destruct (make_jaxpr args kwargs m) as [[[]|e] m'] eqn:H; simpl;
      by apply (tables_agree_make_jaxpr _ _ _ _ _ Hagree H).
  - by rewrite jaxpr_call_auto_self.
Qed.

(** C10.  After construction and after any public operation (a
    [make_jaxpr] that returns or raises, [clear_cache], an accessor, a
    replay), the four cache tables hold the same set of keys. *)
Theorem tables_hold_the_same_keys m :
  reachable m → tables_agree (self m).
Proof.
  induction 1 as [f sa sr ct w cs Hinit|o m _ IH|m cs _ IH].
  - unfold StatefulFunction_init in Hinit.
    destruct ct; try discriminate; injection Hinit as <-; unfold tables_agree; simpl;
      by rewrite !dom_empty_L.
  - by apply tables_agree_perform.
  - done.
Qed.

Lemma tables_hold_the_same_keys_witness :
  tables_agree (self (perform (op_make_jaxpr [] (PNode []))
                        (perform (op_make_jaxpr [PLeaf (Lit 5)] (PNode []))
                           {| self := fresh_wrapper add_to_state [];
                              cells := {[ 0%nat := PLeaf (Lit 10) ]};
                              fun_calls := 0 |}))).
Proof.
  apply tables_hold_the_same_keys.
  do 2 apply reach_op.
  apply (reach_init add_to_state [] [read; write] cache_None).
  reflexivity.
Defined.

(** ** The check of the target *)

(** Shown the target itself, [_check_callable] rejects a staticmethod
    object, a generator function and what is not callable. *)
Lemma _check_callable_rejects (f : pyfun) :
  match f with
  | PyFunction _ => _check_callable (pyfun_info f) = Ok ()
  | PyGeneratorFunction _ => _check_callable (pyfun_info f) = Err TypeError_generator
  | PyStaticMethod _ => _check_callable (pyfun_info f) = Err TypeError_staticmethod
  | PyNotCallable => _check_callable (pyfun_info f) = Err TypeError_not_callable
  end.
Proof. by destruct f. Qed.

(** C7.  [make_jaxpr] shows [_check_callable] its own partial object, not
    the target.  A staticmethod target is called and traced, and the trace is
    stored; a generator function and a target that is not callable are
    called too, and what comes back is the TypeError of JAX (a generator
    object is no JAX type) or of the call itself, raised after the call of
    the target, not by the check before it. *)
Theorem make_jaxpr_does_not_check_the_target :
  let traced_static := make_jaxpr [PLeaf (Lit 5)] (PNode [])
                         (machine_over (PyStaticMethod add_to_state)) in
  let traced_generator := make_jaxpr [PLeaf (Lit 5)] (PNode [])
                            (machine_over (PyGeneratorFunction (λ _ _, Return (PNode [])))) in
  let traced_not_callable := make_jaxpr [PLeaf (Lit 5)] (PNode [])
                               (machine_over PyNotCallable) in
  _check_callable (pyfun_info (PyStaticMethod add_to_state)) = Err TypeError_staticmethod ∧
  fst traced_static = Ok () ∧
  fun_calls (snd traced_static) = 1%nat ∧
  is_Some (_jaxpr (self (snd traced_static)) !! empty_key) ∧
  fst traced_generator = Err TypeError_invalid_jax_type ∧
  fun_calls (snd traced_generator) = 1%nat ∧
  fst traced_not_callable = Err TypeError_not_callable ∧
  fun_calls (snd traced_not_callable) = 1%nat.
Proof.
  cbv zeta. repeat split; try (vm_compute; reflexivity).
  vm_compute. eexists. reflexivity.
Qed.

(** ** Symbolic inputs *)

Lemma tree_map_st_node {S L L'} (f : L → S → L' * S) ts s :
  tree_map_st f (PNode ts) s =
  let '(us, s1) := tree_map_st_list f ts s in (PNode us, s1).
Proof.
  simpl.
  assert (H : ∀ ts s,
    (fix go (ts : list (pytree L)) (s : S) : list (pytree L') * S :=
       match ts with
       | [] => ([], s)
       | t :: ts' =>
           let '(u, s1) := tree_map_st f t s in
           let '(us, s2) := go ts' s1 in
           (u :: us, s2)
       end) ts s = tree_map_st_list f ts s).
  { clear. induction ts as [|t ts IH]; intros s; simpl; [done|].
    destruct (tree_map_st f t s) as [u s1]. by rewrite IH. }
  by rewrite H.
Qed.

Lemma new_arg_spec (v : pytree jval) (frame : JaxprStackFrame) :
  tree_structure (new_arg v frame).1 = tree_structure v ∧
  tree_leaves (new_arg v frame).1 =
    map Tracer (seq (length (invars frame)) (length (tree_leaves v))) ∧
  length (invars (new_arg v frame).2) =
    (length (invars frame) + length (tree_leaves v))%nat.
Proof.
  unfold new_arg. revert frame.
  induction v as [x|ts IH] using pytree_ind'; intros frame.
  - simpl. rewrite length_app. simpl. done.
  - rewrite tree_map_st_node.
    change (tree_structure (PNode ts)) with (PNode (map (@tree_structure jval) ts)).
    simpl tree_leaves.
    enough (
      map tree_structure (tree_map_st_list (λ x fr, _new_arg fr (wrapped_abstractify x)) ts frame).1
        = map tree_structure ts ∧
      concat (map tree_leaves
        (tree_map_st_list (λ x fr, _new_arg fr (wrapped_abstractify x)) ts frame).1)
        = map Tracer (seq (length (invars frame)) (length (concat (map tree_leaves ts)))) ∧
      length (invars
        (tree_map_st_list (λ x fr, _new_arg fr (wrapped_abstractify x)) ts frame).2)
        = (length (invars frame) + length (concat (map tree_leaves ts)))%nat) as H.
    { destruct (tree_map_st_list _ ts frame) as [us s1]. simpl in *.
      destruct H as (H1 & H2 & H3). split; [|done].
      change (tree_structure (PNode us)) with (PNode (map (@tree_structure jval) us)).
      by rewrite H1. }
    revert frame. induction IH as [|t ts Ht _ IHts]; intros frame; simpl.
    + rewrite Nat.add_0_r. done.
    + specialize (Ht frame).
      destruct (tree_map_st _ t frame) as [u s1]. simpl in Ht.
      destruct Ht as (Ht1 & Ht2 & Ht3).
      specialize (IHts s1).
      destruct (tree_map_st_list _ ts s1) as [us s2]. simpl in *.
      destruct IHts as (I1 & I2 & I3).
      split; [f_equal; [exact Ht1 | exact I1]|].
      rewrite length_app. split.
      * rewrite Ht2, I2, Ht3. rewrite seq_app, map_app. done.
      * rewrite I3, Ht3. lia.
Qed.

(** ** The state tracer: what holds while a function runs under it *)

Lemma trace_inv_init cells0 frame :
  trace_inv cells0 {| ts_trace := []; ts_frame := frame; ts_cells := cells0 |}.
Proof.
  split; simpl.
  - constructor.
  - intros r Hr. by apply elem_of_nil in Hr.
  - done.
Qed.

Lemma states_app tr r : states (tr ++ [r]) = states tr ++ [ar_state r].
Proof. unfold states. by rewrite map_app. Qed.

Lemma states_upgrade c tr : states (upgrade c tr) = states tr.
Proof.
  unfold states, upgrade. rewrite map_map. apply map_ext.
  intros r. by destruct (decide _).
Qed.

Lemma elem_of_upgrade c tr r :
  r ∈ upgrade c tr →
  ∃ r0, r0 ∈ tr ∧ ar_state r = ar_state r0 ∧ ar_original r = ar_original r0.
Proof.
  unfold upgrade. intros H. apply list_elem_of_fmap in H as (r0 & -> & Hr0).
  exists r0. split; [done|]. by destruct (decide _).
Qed.

Lemma elem_of_states r tr : r ∈ tr → ar_state r ∈ states tr.
Proof. intros H. unfold states. apply list_elem_of_fmap. eauto. Qed.

Lemma recorded_true c tr : recorded c tr = true ↔ c ∈ states tr.
Proof. unfold recorded. apply bool_decide_eq_true. Qed.

Lemma recorded_false c tr : recorded c tr = false ↔ c ∉ states tr.
Proof. unfold recorded. apply bool_decide_eq_false. Qed.

Lemma trace_inv_fresh cells0 s c v0 v ty frame' :
  trace_inv cells0 s →
  c ∉ states (ts_trace s) →
  ts_cells s !! c = Some v0 →
  tree_structure v = tree_structure v0 →
  trace_inv cells0
    {| ts_trace := ts_trace s ++ [{| ar_state := c; ar_type := ty; ar_original := v0 |}];
       ts_frame := frame';
       ts_cells := <[c := v]> (ts_cells s) |}.
Proof.
  intros [Hnd Hrec Hun] Hc Hv0 Hstr. split; simpl.
  - rewrite states_app. simpl. apply list.NoDup_app. split; [done|]. split.
    + intros x Hx Hx'. apply list_elem_of_singleton in Hx' as ->. done.
    + apply list.NoDup_singleton.
  - intros r Hr. apply elem_of_app in Hr as [Hr|Hr].
    + destruct (Hrec r Hr) as (H0 & v1 & Hv1 & Hs1). split; [done|].
      exists v1. split; [|done]. rewrite lookup_insert_ne; [done|].
      intros ->. apply Hc. by apply elem_of_states.
    + apply list_elem_of_singleton in Hr as ->. simpl. split.
      * rewrite <- Hv0. symmetry. by apply Hun.
      * exists v. split; [by rewrite lookup_insert_eq|done].
  - intros c' Hc'. rewrite states_app in Hc'. simpl in Hc'.
    rewrite lookup_insert_ne.
    + apply Hun. intros H. apply Hc'. apply elem_of_app. by left.
    + intros ->. apply Hc'. apply elem_of_app. right. by apply list_elem_of_singleton.
Qed.

Lemma trace_inv_write cells0 s c old v :
  trace_inv cells0 s →
  c ∈ states (ts_trace s) →
  ts_cells s !! c = Some old →
  tree_structure v = tree_structure old →
  trace_inv cells0
    {| ts_trace := upgrade c (ts_trace s);
       ts_frame := ts_frame s;
       ts_cells := <[c := v]> (ts_cells s) |}.
Proof.
  intros [Hnd Hrec Hun] Hc Hold Hstr. split; simpl.
  - by rewrite states_upgrade.
  - intros r Hr. apply elem_of_upgrade in Hr as (r0 & Hr0 & Hst & Hor).
    rewrite Hst, Hor. destruct (Hrec r0 Hr0) as (H0 & v1 & Hv1 & Hs1). split; [done|].
    destruct (decide (ar_state r0 = c)) as [<-|Hne].
    + exists v. rewrite lookup_insert_eq. split; [done|]. congruence.
    + exists v1. by rewrite lookup_insert_ne.
  - intros c' Hc'. rewrite states_upgrade in Hc'.
    rewrite lookup_insert_ne; [by apply Hun|]. by intros ->.
Qed.

Lemma traced_get_inv cells0 c s r s' :
  trace_inv cells0 s → traced_get c s = (r, s') → trace_inv cells0 s'.
Proof.
  intros Hinv. unfold traced_get.
  destruct (ts_cells s !! c) as [v|] eqn:Hv; [|by intros [= <- <-]].
  destruct (recorded c (ts_trace s)) eqn:Hrec; [by intros [= <- <-]|].
  apply recorded_false in Hrec.
  pose proof (new_arg_spec v (ts_frame s)) as (Hs & _ & _).
  destruct (new_arg v (ts_frame s)) as [v' frame']. simpl in Hs.
  intros [= <- <-]. by apply trace_inv_fresh.
Qed.

Lemma traced_set_inv cells0 c v s r s' :
  trace_inv cells0 s → traced_set c v s = (r, s') → trace_inv cells0 s'.
Proof.
  intros Hinv. unfold traced_set.
  destruct (ts_cells s !! c) as [old|] eqn:Hold; [|by intros [= <- <-]].
  destruct (decide (tree_structure v = tree_structure old)) as [Hstr|]; [|by intros [= <- <-]].
  destruct (recorded c (ts_trace s)) eqn:Hrec.
  - apply recorded_true in Hrec. intros [= <- <-]. by apply (trace_inv_write _ _ _ old).
  - apply recorded_false in Hrec.
    destruct (new_arg old (ts_frame s)) as [v' frame'].
    intros [= <- <-]. by apply trace_inv_fresh.
Qed.

Lemma run_traced_inv cells0 p :
  ∀ s r s', trace_inv cells0 s → run_traced p s = (r, s') → trace_inv cells0 s'.
Proof.
  induction p as [out|e|c k IH|c v k IH]; intros s r s' Hinv; simpl.
  - by intros [= <- <-].
  - by intros [= <- <-].
  - destruct (traced_get c s) as [[v|e] s1] eqn:Hg.
    + intros H. eapply IH; [|exact H]. by eapply traced_get_inv.
    + intros [= <- <-]. by eapply traced_get_inv.
  - destruct (traced_set c v s) as [[[]|e] s1] eqn:Hs.
    + intros H. eapply IH; [|exact H]. by eapply traced_set_inv.
    + intros [= <- <-]. by eapply traced_set_inv.
Qed.

(** ** Pytrees: reading leaves into a structure *)

Lemma tree_leaves_structure_length {L} (t : pytree L) :
  length (tree_leaves (tree_structure t)) = length (tree_leaves t).
Proof. unfold tree_structure. by rewrite tree_leaves_map, length_map. Qed.

Lemma tree_structure_leaves_length {L L'} (t : pytree L) (u : pytree L') :
  tree_structure t = tree_structure u → length (tree_leaves t) = length (tree_leaves u).
Proof.
  intros H. by rewrite <- (tree_leaves_structure_length t), H, tree_leaves_structure_length.
Qed.

Lemma unflatten_from_length {L L'} (t : pytree L) :
  ∀ (xs rest : list L'),
    length xs = length (tree_leaves t) →
    ∃ t', unflatten_from (tree_structure t) (xs ++ rest) = Some (t', rest).
Proof.
  induction t as [x|ts IH] using pytree_ind'; intros xs rest Hlen.
  - destruct xs as [|y [|? ?]]; try done. simpl. eauto.
  - change (tree_structure (PNode ts)) with (PNode (map (@tree_structure L) ts)).
    rewrite unflatten_from_node. simpl in Hlen.
    enough (∃ ts', unflatten_list (map tree_structure ts) (xs ++ rest) = Some (ts', rest))
      as [ts' ->] by eauto.
    revert xs Hlen. induction IH as [|t ts Ht _ IHts]; intros xs Hlen; simpl in *.
    + destruct xs; [|done]. simpl. eauto.
    + rewrite length_app in Hlen.
      rewrite <- (take_drop (length (tree_leaves t)) xs), <- app_assoc.
      destruct (Ht (take (length (tree_leaves t)) xs)
                   (drop (length (tree_leaves t)) xs ++ rest)) as [t' ->].
      { rewrite length_take. lia. }
      destruct (IHts (drop (length (tree_leaves t)) xs)) as [ts' ->].
      { rewrite length_drop. lia. }
      eauto.
Qed.

Lemma tree_unflatten_length {L L'} (t : pytree L) (xs : list L') :
  length xs = length (tree_leaves t) →
  ∃ t', tree_unflatten (tree_structure t) xs = Some t' ∧
        tree_structure t' = tree_structure t ∧ tree_leaves t' = xs.
Proof.
  intros Hlen. destruct (unflatten_from_length t xs [] Hlen) as [t' Ht'].
  rewrite app_nil_r in Ht'.
  assert (tree_unflatten (tree_structure t) xs = Some t') as Hu.
  { unfold tree_unflatten. by rewrite Ht'. }
  exists t'. split; [done|].
  destruct (tree_unflatten_inv _ _ _ Hu) as [H1 H2]. done.
Qed.

Lemma tree_structure_node_inv {L L'} (t : pytree L) (us : list (pytree L')) :
  tree_structure t = tree_structure (PNode us) →
  ∃ ts, t = PNode ts ∧ map tree_structure ts = map tree_structure us.
Proof.
  destruct t as [x|ts]; [done|].
  change (tree_structure (PNode ts)) with (PNode (map (@tree_structure L) ts)).
  change (tree_structure (PNode us)) with (PNode (map (@tree_structure L') us)).
  intros [= H]. eauto.
Qed.

(** ** Restoring the State values *)

Lemma recovery_lookup_notin tr :
  ∀ cs c, c ∉ states tr → recovery_original_values tr cs !! c = cs !! c.
Proof.
  unfold recovery_original_values.
  induction tr as [|r tr IH]; intros cs c Hc; simpl; [done|].
  rewrite IH.
  - rewrite lookup_insert_ne; [done|]. intros Heq. apply Hc. rewrite <- Heq. simpl. by left.
  - intros H. apply Hc. simpl. by right.
Qed.

Lemma recovery_lookup_in tr :
  ∀ cs r, NoDup (states tr) → r ∈ tr →
    recovery_original_values tr cs !! ar_state r = Some (ar_original r).
Proof.
  induction tr as [|r0 tr IH]; intros cs r Hnd Hr.
  - by apply elem_of_nil in Hr.
  - simpl in Hnd. apply list.NoDup_cons in Hnd as [Hnotin Hnd].
    apply elem_of_cons in Hr as [->|Hr].
    + change (recovery_original_values (r0 :: tr) cs)
        with (recovery_original_values tr (<[ar_state r0 := ar_original r0]> cs)).
      rewrite recovery_lookup_notin; [|done]. by rewrite lookup_insert_eq.
    + change (recovery_original_values (r0 :: tr) cs)
        with (recovery_original_values tr (<[ar_state r0 := ar_original r0]> cs)).
      by apply IH.
Qed.

Lemma recovery_restores cells0 s :
  trace_inv cells0 s →
  recovery_original_values (ts_trace s) (ts_cells s) = cells0.
Proof.
  intros [Hnd Hrec Hun]. apply map_eq. intros c.
  destruct (decide (c ∈ states (ts_trace s))) as [Hin|Hout].
  - unfold states in Hin. apply list_elem_of_fmap in Hin as (r & -> & Hr).
    rewrite recovery_lookup_in; [|done|done]. symmetry. by apply Hrec.
  - rewrite recovery_lookup_notin; [|done]. by apply Hun.
Qed.

Lemma selected_read_write ty : selected [read; write] ty = true.
Proof. by destruct ty. Qed.

Lemma collect_values_all tr cells :
  (∀ r, r ∈ tr → ∃ v, cells !! ar_state r = Some v ∧
                      tree_structure v = tree_structure (ar_original r)) →
  ∃ vals, collect_values [read; write] true tr cells = Ok vals ∧
          Forall2 (λ r v, cells !! ar_state r = Some v) tr vals.
Proof.
  induction tr as [|r tr IH]; intros H.
  - exists []. split; [done|constructor].
  - destruct IH as (vals & Hvals & Hall).
    { intros r' Hr'. apply H. by right. }
    destruct (H r) as (v & Hv & Hs); [by left|].
    exists (v :: vals). split; [|by constructor].
    simpl. rewrite selected_read_write, Hv, Hvals.
    rewrite bool_decide_eq_true_2; [done|done].
Qed.

Lemma collect_values_traced cells0 s :
  trace_inv cells0 s →
  ∃ vals, collect_values [read; write] true (ts_trace s) (ts_cells s) = Ok vals ∧
          Forall2 (λ r v, ts_cells s !! ar_state r = Some v) (ts_trace s) vals.
Proof.
  intros [_ Hrec _]. apply collect_values_all. intros r Hr.
  destruct (Hrec r Hr) as (_ & v & Hv & Hs). eauto.
Qed.

(** ** The inputs of a trace *)

Lemma is_static_nil i : is_static [] i = false.
Proof. unfold is_static. apply bool_decide_eq_false_2, not_elem_of_nil. Qed.

Lemma select_dyn_nil {A} (args : list A) i : select_dyn [] i args = args.
Proof.
  revert i. induction args as [|a args IH]; intros i; [done|].
  cbn [select_dyn]. rewrite is_static_nil. by rewrite IH.
Qed.

Lemma merge_dyn_nil {A} (args dyn : list A) i :
  length dyn = length args → merge_dyn [] i args dyn = dyn.
Proof.
  revert i dyn. induction args as [|a args IH]; intros i [|d dyn] Hlen; try done.
  cbn [merge_dyn]. rewrite is_static_nil. rewrite IH; [done|]. simpl in Hlen. lia.
Qed.

Lemma trace_inputs_spec sa args kwargs :
  ∃ py_args py_kwargs,
    trace_inputs sa args kwargs =
      Some (merge_dyn sa 0 args py_args, py_kwargs,
            {| invars := map wrapped_abstractify
                           (concat (map tree_leaves (select_dyn sa 0 args))
                            ++ tree_leaves kwargs) |}) ∧
    map tree_structure py_args = map tree_structure (select_dyn sa 0 args) ∧
    tree_structure py_kwargs = tree_structure kwargs ∧
    concat (map tree_leaves py_args) ++ tree_leaves py_kwargs =
      map Tracer (seq 0 (length (concat (map tree_leaves (select_dyn sa 0 args))
                                 ++ tree_leaves kwargs))).
Proof.
  unfold trace_inputs.
  assert (match sa with [] => args | _ => select_dyn sa 0 args end = select_dyn sa 0 args)
    as ->.
  { destruct sa; [|done]. by rewrite select_dyn_nil. }
  set (dyn := select_dyn sa 0 args).
  set (flat := tree_leaves (PNode [PNode dyn; kwargs])).
  assert (flat = concat (map tree_leaves dyn) ++ tree_leaves kwargs) as Hflat.
  { unfold flat. simpl. by rewrite app_nil_r. }
  destruct (tree_unflatten_length (PNode [PNode dyn; kwargs])
              (map Tracer (seq 0 (length (map wrapped_abstractify flat)))))
    as (t' & Hu & Hs & Hl).
  { rewrite length_map, length_seq, length_map. done. }
  rewrite Hu.
  change (tree_structure (PNode [PNode dyn; kwargs]))
    with (PNode [tree_structure (PNode dyn); tree_structure kwargs]) in Hs.
  destruct (tree_structure_pair_inv _ _ _ Hs) as (ta & tb & -> & Hsa & Hsb).
  destruct (tree_structure_node_inv _ _ Hsa) as (py_args & -> & Hmap).
  exists py_args, tb.
  assert (length py_args = length dyn) as Hlen.
  { by rewrite <- (length_map tree_structure py_args), Hmap, length_map. }
  split; [|split; [done|split; [done|]]].
  - rewrite <- Hflat. do 3 f_equal. destruct sa; [|done].
    rewrite merge_dyn_nil; [done|]. unfold dyn in Hlen. by rewrite select_dyn_nil in Hlen.
  - simpl in Hl. rewrite app_nil_r in Hl. rewrite Hl, length_map. by rewrite Hflat.
Qed.

Lemma trace_inputs_total sa args kwargs : is_Some (trace_inputs sa args kwargs).
Proof. destruct (trace_inputs_spec sa args kwargs) as (? & ? & -> & _). eauto. Qed.

(** ** What [make_jaxpr] does for a key it has not seen *)

Lemma mapM_full_raise_OArr (vs : list (pytree jval)) :
  mapM full_raise (concat (map tree_leaves (map (tree_map OArr) vs)))
  = Some (concat (map tree_leaves vs)).
Proof.
  apply mapM_Some. rewrite map_map.
  induction vs as [|v vs IH]; simpl; [constructor|].
  apply Forall2_app; [|done].
  rewrite tree_leaves_map. clear. induction (tree_leaves v); simpl; by constructor.
Qed.

Lemma make_jaxpr_fresh args kwargs m k r0 s1 :
  get_arg_cache_key (self m) args kwargs = Ok k →
  _state_trace (self m) !! k = None →
  traced_call m args kwargs = Some (r0, s1) →
  trace_inv (cells m) s1 ∧
  match r0 with
  | Err e => make_jaxpr args kwargs m = (Err e, after_failed_trace m (ts_cells s1))
  | Ok out =>
      ∃ svs,
        collect_values [read; write] true (ts_trace s1) (ts_cells s1) = Ok svs ∧
        Forall2 (λ r v, ts_cells s1 !! ar_state r = Some v) (ts_trace s1) svs ∧
        match first_state (tree_leaves out) with
        | Some c =>
            make_jaxpr args kwargs m =
              (Err (ValueError_state_returned c), after_failed_trace m (cells m))
        | None =>
            match mapM full_raise (tree_leaves out) with
            | None =>
                make_jaxpr args kwargs m =
                  (Err TypeError_invalid_jax_type, after_failed_trace m (cells m))
            | Some outs =>
                ∃ shapes,
                  make_jaxpr args kwargs m =
                    (Ok (), after_trace m k (ts_trace s1) (ts_frame s1) out outs svs shapes)
            end
        end
  end.
Proof.
  intros Hk Hnone Hcall. unfold traced_call in Hcall.
  destruct (trace_inputs (static_argnums (self m)) args kwargs)
    as [[[full_args py_kwargs] frame]|] eqn:Hin; [|done].
  injection Hcall as Hrun.
  assert (trace_inv (cells m) s1) as Hinv.
  { eapply run_traced_inv; [|exact Hrun]. apply trace_inv_init. }
  split; [done|].
  assert (∀ tr cs, with_self {| self := set_state_trace k tr (self m); cells := cs;
                                fun_calls := S (fun_calls m) |}
                     (pop_state_trace k (set_state_trace k tr (self m)))
                   = after_failed_trace m cs) as Hpop.
  { intros tr cs. unfold with_self, after_failed_trace. simpl.
    by rewrite pop_set_state_trace. }
  unfold make_jaxpr. rewrite Hk.
  rewrite decide_False; [|rewrite Hnone; by intros [? ?]].
  unfold _make_jaxpr. simpl tc_info. simpl _check_callable. cbv iota.
  rewrite Hin. simpl tc_call. unfold _wrapped_fun_to_eval.
  unfold _init_trace_and_newarg in *. rewrite Hrun.
  destruct r0 as [out|e]; simpl.
  2:{ by rewrite Hpop. }
  destruct (collect_values_traced _ _ Hinv) as (svs & Hsvs & Hall).
  exists svs. split; [done|]. split; [done|].
  rewrite Hsvs. rewrite (recovery_restores _ _ Hinv).
  destruct (first_state (tree_leaves out)) as [c|] eqn:Hfirst; simpl.
  { unfold with_cells. simpl. by rewrite Hpop. }
  rewrite app_nil_r.
  destruct (mapM full_raise (tree_leaves out)) as [outs|] eqn:Houts.
  - assert (mapM full_raise
              (tree_leaves out ++ concat (map tree_leaves (map (tree_map OArr) svs)))
            = Some (outs ++ concat (map tree_leaves svs))) as ->.
    { apply mapM_Some. apply Forall2_app.
      - by apply mapM_Some.
      - apply mapM_Some. apply mapM_full_raise_OArr. }
    destruct (tree_unflatten_length (PNode [out; PNode (map (tree_map OArr) svs)])
                (map wrapped_abstractify (outs ++ concat (map tree_leaves svs))))
      as (shapes & Hu & Hs & _).
    { rewrite length_map. simpl. rewrite app_nil_r, !length_app.
      apply length_mapM in Houts. rewrite Houts. f_equal.
      pose proof (mapM_full_raise_OArr svs) as H. apply length_mapM in H. done. }
    rewrite Hu.
    change (tree_structure (PNode [out; PNode (map (tree_map OArr) svs)]))
      with (PNode [tree_structure out; tree_structure (PNode (map (tree_map OArr) svs))]) in Hs.
    destruct (tree_structure_pair_inv _ _ _ Hs) as (a & b & -> & Ha & Hb).
    exists (PNode [a; b]). unfold with_self, with_cells, after_trace. simpl.
    do 2 f_equal.
    change (tree_structure (PNode [a; b])) with (PNode [tree_structure a; tree_structure b]).
    by rewrite Ha, Hb.
  - assert (mapM full_raise
              (tree_leaves out ++ concat (map tree_leaves (map (tree_map OArr) svs)))
            = None) as ->.
    { destruct (mapM full_raise (_ ++ _)) as [l|] eqn:E; [|done].
      apply mapM_Some in E. apply Forall2_app_inv_l in E as (k1 & k2 & E1 & _ & _).
      apply mapM_Some in E1. congruence. }
    unfold with_cells. simpl. by rewrite Hpop.
Qed.

(** ** A returned State object *)

Lemma first_state_elem_of leaves c : first_state leaves = Some c → OState c ∈ leaves.
Proof.
  induction leaves as [|o leaves IH]; simpl; [done|].
  destruct o as [v|c'|]; intros H.
  - right. by apply IH.
  - injection H as ->. by left.
  - right. by apply IH.
Qed.

Lemma first_state_is_Some leaves c : OState c ∈ leaves → is_Some (first_state leaves).
Proof.
  induction leaves as [|o leaves IH]; intros H.
  - by apply elem_of_nil in H.
  - apply elem_of_cons in H as [<-|H]; simpl; [eauto|].
    destruct o; eauto.
Qed.

(** C2.  When the traced function returns a value with a State object at
    some leaf, however deep, a [make_jaxpr] that traces it raises the
    ValueError "State object is not allowed to be returned", for a State
    object of the result; the wrapper is left as it was, so the next attempt
    traces again and fails again. *)
Theorem returned_state_is_rejected args kwargs m k out s1 c :
  get_arg_cache_key (self m) args kwargs = Ok k →
  _state_trace (self m) !! k = None →
  traced_call m args kwargs = Some (Ok out, s1) →
  OState c ∈ tree_leaves out →
  ∃ c' m',
    make_jaxpr args kwargs m = (Err (ValueError_state_returned c'), m') ∧
    OState c' ∈ tree_leaves out ∧
    class_of (ValueError_state_returned c') = CValueError ∧
    self m' = self m ∧ cells m' = cells m.
Proof.
  intros Hk Hnone Hcall Hc.
  destruct (make_jaxpr_fresh _ _ _ _ _ _ Hk Hnone Hcall) as (_ & svs & _ & _ & H).
  destruct (first_state_is_Some _ _ Hc) as [c' Hc'].
  rewrite Hc' in H. exists c', (after_failed_trace m (cells m)).
  split; [done|]. split; [by apply first_state_elem_of|]. done.
Qed.

Lemma returned_state_is_rejected_witness :
  ∃ c' m',
    make_jaxpr [] (PNode []) (machine_over returns_state)
      = (Err (ValueError_state_returned c'), m') ∧
    OState c' ∈ tree_leaves (PNode [PLeaf (OArr (Lit 1)); PNode [PLeaf (OState 0%nat)]]) ∧
    class_of (ValueError_state_returned c') = CValueError ∧
    self m' = self (machine_over returns_state) ∧
    cells m' = cells (machine_over returns_state).
Proof.
  eapply (returned_state_is_rejected [] (PNode []) (machine_over returns_state) empty_key
            (PNode [PLeaf (OArr (Lit 1)); PNode [PLeaf (OState 0%nat)]]) _ 0%nat).
  - reflexivity.
  - reflexivity.
  - vm_compute. reflexivity.
  - simpl. right. left.
Defined.

(** ** Restoration of the State values *)

(** X30.  When [make_jaxpr] returns, every State object holds the value it
    held before the call: the values the function read and assigned during
    the trace are gone from the cells. *)
Theorem trace_restores_state_values args kwargs m m' :
  make_jaxpr args kwargs m = (Ok (), m') →
  cells m' = cells m.
Proof.
  intros H.
  destruct (make_jaxpr_cases _ _ _ _ _ H)
    as [(e & _ & [=] & _)|[(k & _ & _ & _ & ->)|(k & r1 & m1 & Hk & Hnone & _)]]; [done|].
  destruct (trace_inputs_total (static_argnums (self m)) args kwargs) as [[[fa kw] fr] Hin].
  destruct (run_traced (py_call (fun_ (self m)) fa kw)
              {| ts_trace := _init_trace_and_newarg; ts_frame := fr; ts_cells := cells m |})
    as [r0 s1] eqn:Hrun.
  assert (traced_call m args kwargs = Some (r0, s1)) as Hcall.
  { unfold traced_call. by rewrite Hin, Hrun. }
  destruct (make_jaxpr_fresh _ _ _ _ _ _ Hk Hnone Hcall) as (_ & Hres).
  destruct r0 as [out|e]; [|congruence].
  destruct Hres as (svs & _ & _ & Hres).
  destruct (first_state (tree_leaves out)); [congruence|].
  destruct (mapM full_raise (tree_leaves out)); [|congruence].
  destruct Hres as [shapes Hres]. rewrite Hres in H. by injection H as <-.
Qed.

Lemma trace_restores_state_values_witness :
  cells scenario_traced = cells scenario_machine.
Proof.
  apply (trace_restores_state_values [PLeaf (Lit 5)] (PNode []) scenario_machine).
  vm_compute. reflexivity.
Defined.

(** C6.  A trace that raises inside the [with] block leaves without
    [recovery_original_values]: the State object keeps what the trace put
    into it.  After [make_jaxpr] of a function that assigns 1 and raises,
    the State object that held 10 holds 1; after [make_jaxpr] of a function
    that reads the State object and raises, it holds the tracer of the
    trace.  In both cases [make_jaxpr] re-raises the exception and the
    tables are as before the call. *)
Theorem failed_trace_does_not_restore :
  cells failing_machine !! 0%nat = Some (PLeaf (Lit 10)) ∧
  fst (make_jaxpr [] (PNode []) failing_machine) = Err (UserError 3) ∧
  cells (snd (make_jaxpr [] (PNode []) failing_machine)) !! 0%nat = Some (PLeaf (Lit 1)) ∧
  self (snd (make_jaxpr [] (PNode []) failing_machine)) = self failing_machine ∧
  cells (machine_over read_then_fail) !! 0%nat = Some (PLeaf (Lit 10)) ∧
  fst (make_jaxpr [] (PNode []) (machine_over read_then_fail)) = Err (UserError 3) ∧
  cells (snd (make_jaxpr [] (PNode []) (machine_over read_then_fail))) !! 0%nat
    = Some (PLeaf (Tracer 0)) ∧
  self (snd (make_jaxpr [] (PNode []) (machine_over read_then_fail)))
    = self (machine_over read_then_fail).
Proof. repeat split; vm_compute; reflexivity. Qed.

(** ** Replay with write-back *)

Lemma read_values_Forall2 sts cs vals :
  read_values sts cs = Ok vals → Forall2 (λ st v, cs !! st = Some v) sts vals.
Proof.
  revert vals. induction sts as [|st sts IH]; intros vals; simpl.
  - intros [= <-]. constructor.
  - unfold state_get. destruct (cs !! st) as [v|] eqn:Hv; [|done].
    destruct (read_values sts cs) as [vs|]; [|done].
    intros [= <-]. constructor; [done|]. by apply IH.
Qed.

Lemma assign_values_foldl pairs :
  ∀ cs cs', assign_values pairs cs = (Ok (), cs') →
    cs' = foldl (λ acc p, <[p.1 := p.2]> acc) cs pairs.
Proof.
  induction pairs as [|[st val] pairs IH]; intros cs cs'; simpl.
  - by intros [= <-].
  - unfold state_set. destruct (cs !! st) as [old|]; [|done].
    destruct (decide _); [|done]. apply IH.
Qed.

Lemma jaxpr_call_lengths w state_vals args kwargs new_vals out :
  jaxpr_call w state_vals args kwargs = Ok (new_vals, out) →
  length new_vals = length state_vals.
Proof.
  unfold jaxpr_call.
  destruct (get_arg_cache_key _ _ _); [|done].
  destruct (get_states _ _); [|done].
  destruct (decide _); [|done].
  destruct (get_jaxpr _ _); [|done].
  destruct (get_out_treedef _ _); [|done].
  destruct (eval_jaxpr _ _); [|done].
  destruct (tree_unflatten _ _) as [[?|[|o [|[?|nsv] [|? ?]]]]|]; try done.
  destruct (decide _); [|done]. by intros [= <- <-].
Qed.

(** C3.  Each [jaxpr_call_auto] that returns has read the current values of
    the recorded State objects, replayed the stored jaxpr on them with
    [jaxpr_call], and assigned the new values it returned to the same State
    objects, in order.  With [s] at 10 and [f(x)] assigning [x + s] to [s]:
    after the trace [s] is still 10, a replay with 5 leaves 15, a second one
    leaves 20. *)
Theorem jaxpr_call_auto_writes_back :
  (∀ args kwargs m out m',
      jaxpr_call_auto args kwargs m = (Ok out, m') →
      ∃ k sts vals new_vals,
        get_arg_cache_key (self m) args kwargs = Ok k ∧
        get_states (self m) k = Ok sts ∧
        Forall2 (λ st v, cells m !! st = Some v) sts vals ∧
        jaxpr_call (self m) vals args kwargs = Ok (new_vals, out) ∧
        length new_vals = length sts ∧
        cells m' = foldl (λ acc p, <[p.1 := p.2]> acc) (cells m) (zip sts new_vals) ∧
        self m' = self m) ∧
  (let m1 := snd (make_jaxpr [PLeaf (Lit 5)] (PNode []) scenario_machine) in
   let m2 := snd (jaxpr_call_auto [PLeaf (Lit 5)] (PNode []) m1) in
   let m3 := snd (jaxpr_call_auto [PLeaf (Lit 5)] (PNode []) m2) in
   cells scenario_machine !! 0%nat = Some (PLeaf (Lit 10)) ∧
   fst (make_jaxpr [PLeaf (Lit 5)] (PNode []) scenario_machine) = Ok () ∧
   cells m1 !! 0%nat = Some (PLeaf (Lit 10)) ∧
   get_states (self m1) empty_key = Ok [0%nat] ∧
   fst (jaxpr_call_auto [PLeaf (Lit 5)] (PNode []) m1) = Ok (PNode []) ∧
   cells m2 !! 0%nat = Some (PLeaf (Lit 15)) ∧
   cells m3 !! 0%nat = Some (PLeaf (Lit 20))).
Proof.
  split.
  - intros args kwargs m out m'. unfold jaxpr_call_auto.
    destruct (get_arg_cache_key (self m) args kwargs) as [k|] eqn:Hk; [|done].
    destruct (get_states (self m) k) as [sts|] eqn:Hsts; [|done].
    destruct (read_values sts (cells m)) as [vals|] eqn:Hvals; [|done].
    destruct (jaxpr_call (self m) vals args kwargs) as [[new_vals out']|] eqn:Hcall; [|done].
    destruct (assign_values (zip sts new_vals) (cells m)) as [[[]|e] cells1] eqn:Hassign;
      [|done].
    intros [= <- <-]. exists k, sts, vals, new_vals.
    apply read_values_Forall2 in Hvals.
    repeat split; try done.
    + rewrite (jaxpr_call_lengths _ _ _ _ _ _ Hcall). symmetry. by eapply Forall2_length.
    + simpl. by apply assign_values_foldl.
  - cbv zeta. repeat split; vm_compute; reflexivity.
Qed.

(* ===================================================================== *)
(** * Trace and replay against direct execution *)
(* ===================================================================== *)

Lemma eval_jax_bind env op a b :
  eval_jval env (jax_bind op a b) =
  match eval_jval env a, eval_jval env b with
  | Some x, Some y => Some (jax_bind op x y)
  | _, _ => None
  end.
Proof. destruct a, b; reflexivity. Qed.

Lemma denotes_admissible env : admissible (denotes env).
Proof.
  split.
  - done.
  - unfold denotes. intros op a a' b b' Ha Hb. by rewrite eval_jax_bind, Ha, Hb.
Qed.

Lemma denotes_tracers pre l rest :
  Forall2 (denotes (pre ++ l ++ rest)) (map Tracer (seq (length pre) (length l))) l.
Proof.
  revert pre. induction l as [|x l IH]; intros pre; simpl; [constructor|].
  constructor.
  - unfold denotes. simpl. by apply list_lookup_middle.
  - specialize (IH (pre ++ [x])). rewrite length_app in IH. simpl in IH.
    rewrite Nat.add_1_r in IH. rewrite <- app_assoc in IH. exact IH.
Qed.

Lemma denotes_concrete env v : concrete v → denotes env v v.
Proof. by destruct v. Qed.

(** *** Relating trees *)

Lemma tree_rel_leaf {A B} (R : A → B → Prop) a b : R a b → tree_rel R (PLeaf a) (PLeaf b).
Proof. intros H. split; [done|]. simpl. by constructor. Qed.

Lemma tree_rel_leaf_inv {A B} (R : A → B → Prop) a u :
  tree_rel R (PLeaf a) u → ∃ b, u = PLeaf b ∧ R a b.
Proof.
  intros [Hs Hl]. destruct u as [b|us]; [|done].
  exists b. split; [done|]. simpl in Hl. by inversion Hl.
Qed.

Lemma tree_rel_node_inv_shape {A B} (R : A → B → Prop) ts u :
  tree_rel R (PNode ts) u → ∃ us, u = PNode us.
Proof. intros [Hs _]. destruct u as [b|us]; [done|]. eauto. Qed.

Lemma tree_rel_structure {A B} (R : A → B → Prop) t u :
  tree_rel R t u → tree_structure t = tree_structure u.
Proof. by intros [? _]. Qed.

Lemma tree_rel_length {A B} (R : A → B → Prop) t u :
  tree_rel R t u → length (tree_leaves t) = length (tree_leaves u).
Proof. intros [_ H]. by eapply Forall2_length. Qed.

(** Related leaves of lists of trees of matching structures split into
    related trees. *)
Lemma Forall2_tree_rel_split {A B} (R : A → B → Prop) (ts : list (pytree A)) :
  ∀ (us : list (pytree B)) l1 l2,
    map tree_structure ts = map tree_structure us →
    Forall2 R (concat (map tree_leaves ts) ++ l1) (concat (map tree_leaves us) ++ l2) →
    Forall2 (tree_rel R) ts us ∧ Forall2 R l1 l2.
Proof.
  induction ts as [|t ts IH]; intros [|u us] l1 l2 Hs Hl; try done.
  simpl in Hs. injection Hs as Hs1 Hs2. simpl in Hl. rewrite <- !app_assoc in Hl.
  apply Forall2_app_inv in Hl as [Hl1 Hl2].
  2:{ by apply tree_structure_leaves_length. }
  destruct (IH us l1 l2 Hs2 Hl2) as [H1 H2].
  split; [|done]. constructor; [|done]. by split.
Qed.

Lemma Forall2_tree_rel_concat {A B} (R : A → B → Prop)
    (ts : list (pytree A)) (us : list (pytree B)) :
  Forall2 (tree_rel R) ts us →
  map tree_structure ts = map tree_structure us ∧
  Forall2 R (concat (map tree_leaves ts)) (concat (map tree_leaves us)).
Proof.
  induction 1 as [|t u ts us [Hs Hl] _ [IH1 IH2]]; simpl; [split; [done|constructor]|].
  split; [by rewrite Hs, IH1|]. by apply Forall2_app.
Qed.

Lemma merge_dyn_rel R sa (args : list (pytree jval)) :
  ∀ i py,
    Forall2 (tree_rel R) py (select_dyn sa i args) →
    Forall (λ t, Forall concrete (tree_leaves t)) (select_static sa i args) →
    args_rel R sa i (merge_dyn sa i args py) args.
Proof.
  induction args as [|a args IH]; intros i py Hdyn Hstat; simpl in *; [done|].
  destruct (is_static sa i) eqn:Hi.
  - inversion Hstat as [|? ? Ha Hstat']; subst. cbn [args_rel]. rewrite Hi.
    split; [done|]. by apply IH.
  - inversion Hdyn as [|d ? py' ? Hd Hpy]; subst. cbn [args_rel]. rewrite Hi.
    split; [done|]. by apply IH.
Qed.

Lemma args_rel_nil R (args args' : list (pytree jval)) i :
  args_rel R [] i args args' → Forall2 (tree_rel R) args args'.
Proof.
  revert i args'. induction args as [|a args IH]; intros i [|a' args'] H;
    [constructor|done|done|].
  cbn [args_rel] in H. rewrite is_static_nil in H. destruct H as [Ha Hrest].
  constructor; [done|]. by eapply IH.
Qed.

(** *** The steps of a traced call *)

Lemma traced_get_ok c s v s1 :
  traced_get c s = (Ok v, s1) →
  ∃ tv, ts_cells s !! c = Some tv ∧
    ((c ∈ states (ts_trace s) ∧ v = tv ∧ s1 = s) ∨
     ((c ∉ states (ts_trace s)) ∧ v = fst (new_arg tv (ts_frame s)) ∧
      s1 = first_access c read tv v s)).
Proof.
  unfold traced_get, first_access. destruct (ts_cells s !! c) as [tv|]; [|done].
  destruct (recorded c (ts_trace s)) eqn:Hrec.
  - apply recorded_true in Hrec. intros [= <- <-]. exists tv. split; [done|]. by left.
  - apply recorded_false in Hrec.
    destruct (new_arg tv (ts_frame s)) as [v' frame'] eqn:Hna.
    intros [= <- <-]. exists tv. split; [done|]. right. rewrite Hna. by repeat split.
Qed.

Lemma traced_set_ok c v s u s1 :
  traced_set c v s = (Ok u, s1) →
  ∃ old, ts_cells s !! c = Some old ∧ tree_structure v = tree_structure old ∧
    ((c ∈ states (ts_trace s) ∧ s1 = later_write c v s) ∨
     ((c ∉ states (ts_trace s)) ∧ s1 = first_access c write old v s)).
Proof.
  unfold traced_set, first_access, later_write.
  destruct (ts_cells s !! c) as [old|]; [|done].
  destruct (decide (tree_structure v = tree_structure old)) as [Hs|]; [|done].
  destruct (recorded c (ts_trace s)) eqn:Hrec.
  - apply recorded_true in Hrec. intros [= <- <-]. exists old.
    split; [done|]. split; [done|]. by left.
  - apply recorded_false in Hrec.
    destruct (new_arg old (ts_frame s)) as [v' frame'] eqn:Hna.
    intros [= <- <-]. exists old. split; [done|]. split; [done|]. right. rewrite Hna.
    by split.
Qed.

Lemma traced_get_prefix c s r s1 :
  traced_get c s = (r, s1) → states (ts_trace s) `prefix_of` states (ts_trace s1).
Proof.
  destruct r as [v|e].
  - intros H. apply traced_get_ok in H as (tv & _ & [(_ & _ & ->)|(_ & _ & ->)]); [done|].
    simpl. rewrite states_app. by apply prefix_app_r.
  - unfold traced_get. destruct (ts_cells s !! c); [|by intros [= <- <-]].
    destruct (recorded c (ts_trace s)); [done|]. by destruct (new_arg _ _).
Qed.

Lemma traced_set_prefix c v s r s1 :
  traced_set c v s = (r, s1) → states (ts_trace s) `prefix_of` states (ts_trace s1).
Proof.
  destruct r as [u|e].
  - intros H. apply traced_set_ok in H as (old & _ & _ & [(_ & ->)|(_ & ->)]); simpl.
    + by rewrite states_upgrade.
    + rewrite states_app. by apply prefix_app_r.
  - unfold traced_set. destruct (ts_cells s !! c); [|by intros [= <- <-]].
    destruct (decide _); [|by intros [= <- <-]].
    destruct (recorded c (ts_trace s)); [done|]. by destruct (new_arg _ _).
Qed.

Lemma run_traced_prefix p :
  ∀ s r s', run_traced p s = (r, s') → states (ts_trace s) `prefix_of` states (ts_trace s').
Proof.
  induction p as [out|e|c k IH|c v k IH]; intros s r s'; simpl.
  - by intros [= <- <-].
  - by intros [= <- <-].
  - destruct (traced_get c s) as [[v|e] s1] eqn:Hg.
    + intros H. etrans; [by eapply traced_get_prefix|by eapply IH].
    + intros [= <- <-]. by eapply traced_get_prefix.
  - destruct (traced_set c v s) as [[u|e] s1] eqn:Hs.
    + intros H. etrans; [by eapply traced_set_prefix|by eapply IH].
    + intros [= <- <-]. by eapply traced_set_prefix.
Qed.

(** *** The simulation of the traced call by the direct one *)

Section simulation.

Variables (cells0 cs0 : gmap cell (pytree jval)).
Variables (env_in : list jval) (recorded_states : list cell).
Hypothesis Hsame : same_structure cells0 cs0.

Lemma sim_first_access s cs c tv :
  sim_inv cells0 cs0 env_in recorded_states s cs →
  c ∉ states (ts_trace s) →
  ts_cells s !! c = Some tv →
  (states (ts_trace s) ++ [c]) `prefix_of` recorded_states →
  ∃ dv, cs !! c = Some dv ∧ tree_structure tv = tree_structure dv ∧
    tree_rel (denotes (replay_env cs0 env_in recorded_states)) (fst (new_arg tv (ts_frame s))) dv ∧
    ∀ ty v v' cs',
      tree_structure v = tree_structure tv →
      tree_rel (denotes (replay_env cs0 env_in recorded_states)) v v' →
      cs' !! c = Some v' →
      (∀ c', c' ≠ c → cs' !! c' = cs !! c') →
      sim_inv cells0 cs0 env_in recorded_states (first_access c ty tv v s) cs'.
Proof.
  intros [Htr Hun Hrec Hfr] Hc Htv [rest Hrest].
  assert (cells0 !! c = Some tv) as H0.
  { rewrite <- Htv. symmetry. by apply (inv_untouched _ _ Htr). }
  pose proof (Hsame c) as Hs. rewrite H0 in Hs.
  destruct (cs0 !! c) as [dv|] eqn:Hdv; [|done].
  assert (seg cs0 c = tree_leaves dv) as Hseg.
  { unfold seg. by rewrite Hdv. }
  assert (length (tree_leaves tv) = length (seg cs0 c)) as Hlen.
  { rewrite Hseg. by apply tree_structure_leaves_length. }
  exists dv. split; [by rewrite Hun|]. split; [done|].
  pose proof (new_arg_spec tv (ts_frame s)) as (Hns & Hnl & Hnf).
  split.
  - split; [by rewrite Hns|].
    rewrite Hnl, Hfr, Hlen, <- Hseg.
    unfold replay_env. rewrite Hrest.
    rewrite !map_app, !concat_app. simpl. rewrite app_nil_r.
    rewrite <- length_app.
    rewrite <- (app_assoc (concat (map (seg cs0) (states (ts_trace s))))).
    rewrite (app_assoc env_in).
    apply denotes_tracers.
  - intros ty v v' cs' Hstr Hrel Hc' Hother. split.
    + by apply trace_inv_fresh.
    + simpl. rewrite states_app. simpl. intros c' Hnotin.
      assert (c' ≠ c) as Hne.
      { intros ->. apply Hnotin. apply elem_of_app. right. by left. }
      rewrite Hother; [|done]. apply Hun. intros Hin. apply Hnotin.
      apply elem_of_app. by left.
    + simpl. rewrite states_app. simpl. intros c' Hin.
      destruct (decide (c' = c)) as [->|Hne].
      * exists v, v'. by rewrite lookup_insert_eq.
      * apply elem_of_app in Hin as [Hin|Hin].
        -- destruct (Hrec c' Hin) as (tv' & dv' & H1 & H2 & H3).
           exists tv', dv'. rewrite lookup_insert_ne; [|done].
           rewrite Hother; done.
        -- apply list_elem_of_singleton in Hin. done.
    + simpl. rewrite states_app. simpl.
      rewrite Hnf, Hfr, map_app, concat_app, length_app. simpl.
      rewrite app_nil_r. lia.
Qed.

Lemma sim_later_write s cs c old v v' :
  sim_inv cells0 cs0 env_in recorded_states s cs →
  c ∈ states (ts_trace s) →
  ts_cells s !! c = Some old →
  tree_structure v = tree_structure old →
  tree_rel (denotes (replay_env cs0 env_in recorded_states)) v v' →
  sim_inv cells0 cs0 env_in recorded_states (later_write c v s) (<[c := v']> cs).
Proof.
  intros [Htr Hun Hrec Hfr] Hc Hold Hstr Hrel. split.
  - by apply (trace_inv_write _ _ _ old).
  - simpl. rewrite states_upgrade. intros c' Hnotin.
    rewrite lookup_insert_ne; [by apply Hun|]. by intros ->.
  - simpl. rewrite states_upgrade. intros c' Hin.
    destruct (decide (c' = c)) as [->|Hne].
    + exists v, v'. by rewrite !lookup_insert_eq.
    + destruct (Hrec c' Hin) as (tv' & dv' & H1 & H2 & H3).
      exists tv', dv'. by rewrite !lookup_insert_ne.
  - simpl. by rewrite states_upgrade.
Qed.

(** The direct call goes through what the traced call went through, on the
    values the tracers denote under the inputs of the replay. *)
Lemma run_traced_simulated p p' :
  prog_rel (denotes (replay_env cs0 env_in recorded_states)) p p' →
  ∀ s cs out s_f,
    run_traced p s = (Ok out, s_f) →
    states (ts_trace s_f) = recorded_states →
    sim_inv cells0 cs0 env_in recorded_states s cs →
    ∃ out' cs',
      run_direct p' cs = (Ok out', cs') ∧
      tree_rel (obj_rel (denotes (replay_env cs0 env_in recorded_states))) out out' ∧
      sim_inv cells0 cs0 env_in recorded_states s_f cs'.
Proof.
  induction 1 as [out0 out0' Hout|e|c k k' Hk IH|c v v' k k' Hv Hk IH];
    intros s cs out s_f Hrun Hfinal Hsim; simpl in Hrun.
  - injection Hrun as <- <-. exists out0', cs. by split.
  - done.
  - destruct (traced_get c s) as [[tv|e] s1] eqn:Hget; [|done].
    pose proof (run_traced_prefix _ _ _ _ Hrun) as Hpre. rewrite Hfinal in Hpre.
    apply traced_get_ok in Hget as (tv0 & Htv0 & [(Hin & -> & ->)|(Hnotin & Hv & ->)]).
    + destruct (sim_recorded _ _ _ _ _ _ Hsim c Hin) as (tv' & dv & H1 & H2 & H3).
      assert (tv' = tv0) as -> by congruence.
      destruct (IH tv0 dv H3 s cs out s_f Hrun Hfinal Hsim) as (out' & cs' & Hd & Ho & Hs).
      exists out', cs'. split; [|done]. simpl. unfold state_get. by rewrite H2.
    + simpl in Hpre. rewrite states_app in Hpre. simpl in Hpre.
      destruct (sim_first_access _ _ _ _ Hsim Hnotin Htv0 Hpre)
        as (dv & Hdv & Hstr & Hrel & Hnext).
      rewrite <- Hv in Hrel.
      assert (sim_inv cells0 cs0 env_in recorded_states (first_access c read tv0 tv s) cs) as Hsim1.
      { apply (Hnext read tv dv cs); try done.
        pose proof (new_arg_spec tv0 (ts_frame s)) as (Hns & _). by rewrite Hv. }
      destruct (IH tv dv Hrel _ cs out s_f Hrun Hfinal Hsim1) as (out' & cs' & Hd & Ho & Hs).
      exists out', cs'. split; [|done]. simpl. unfold state_get. by rewrite Hdv.
  - destruct (traced_set c v s) as [[u|e] s1] eqn:Hset; [|done].
    pose proof (run_traced_prefix _ _ _ _ Hrun) as Hpre. rewrite Hfinal in Hpre.
    apply traced_set_ok in Hset as (old & Hold & Hstr & [(Hin & ->)|(Hnotin & ->)]).
    + destruct (sim_recorded _ _ _ _ _ _ Hsim c Hin) as (tv' & dv & H1 & H2 & H3).
      assert (tv' = old) as -> by congruence.
      assert (sim_inv cells0 cs0 env_in recorded_states (later_write c v s) (<[c := v']> cs)) as Hsim1.
      { by apply (sim_later_write _ _ _ old). }
      destruct (IH _ _ out s_f Hrun Hfinal Hsim1) as (out' & cs' & Hd & Ho & Hs).
      exists out', cs'. split; [|done]. simpl. unfold state_set. rewrite H2.
      rewrite decide_True; [done|].
      rewrite <- (tree_rel_structure _ _ _ Hv), Hstr. by apply (tree_rel_structure _ _ _ H3).
    + simpl in Hpre. rewrite states_app in Hpre. simpl in Hpre.
      destruct (sim_first_access _ _ _ _ Hsim Hnotin Hold Hpre)
        as (dv & Hdv & Hstr' & _ & Hnext).
      assert (sim_inv cells0 cs0 env_in recorded_states (first_access c write old v s) (<[c := v']> cs)) as Hsim1.
      { apply (Hnext write v v' (<[c := v']> cs)); try done.
        - by rewrite lookup_insert_eq.
        - intros c' Hne. by rewrite lookup_insert_ne. }
      destruct (IH _ _ out s_f Hrun Hfinal Hsim1) as (out' & cs' & Hd & Ho & Hs).
      exists out', cs'. split; [|done]. simpl. unfold state_set. rewrite Hdv.
      rewrite decide_True; [done|].
      rewrite <- (tree_rel_structure _ _ _ Hv), Hstr. done.
Qed.

End simulation.

(** *** Replay *)

Lemma get_arg_cache_key_ext w w' args kwargs :
  static_argnums w = static_argnums w' → cache_type w = cache_type w' →
  get_arg_cache_key w args kwargs = get_arg_cache_key w' args kwargs.
Proof. intros H1 H2. unfold get_arg_cache_key. by rewrite H1, H2. Qed.

Lemma jaxpr_call_eval w state_vals args kwargs k tr j d jaxpr_outs out new_vals :
  get_arg_cache_key w args kwargs = Ok k →
  _state_trace w !! k = Some tr →
  length state_vals = length (states tr) →
  _jaxpr w !! k = Some j →
  _jaxpr_out_tree w !! k = Some d →
  eval_jaxpr j (concat (map tree_leaves (select_dyn (static_argnums w) 0 args))
                ++ tree_leaves kwargs ++ concat (map tree_leaves state_vals))
    = Ok jaxpr_outs →
  tree_unflatten d jaxpr_outs = Some (PNode [out; PNode new_vals]) →
  length new_vals = length state_vals →
  jaxpr_call w state_vals args kwargs = Ok (new_vals, out).
Proof.
  intros Hk Htr Hlen Hj Hd Heval Hun Hlen'.
  unfold jaxpr_call, get_states, get_jaxpr, get_out_treedef.
  rewrite Hk, Htr. rewrite decide_True; [|done].
  rewrite Hj, Hd. simpl tree_leaves. rewrite app_nil_r, Heval, Hun.
  by rewrite decide_True.
Qed.

Lemma read_values_total sts cs :
  (∀ c, c ∈ sts → is_Some (cs !! c)) →
  ∃ vals, read_values sts cs = Ok vals ∧ Forall2 (λ c v, cs !! c = Some v) sts vals.
Proof.
  induction sts as [|c sts IH]; intros H.
  - exists []. split; [done|constructor].
  - destruct IH as (vals & Hvals & Hall).
    { intros c' Hc'. apply H. by right. }
    destruct (H c) as [v Hv]; [by left|].
    exists (v :: vals). split; [|by constructor].
    simpl. unfold state_get. by rewrite Hv, Hvals.
Qed.

Lemma concat_leaves_seg cs sts vals :
  Forall2 (λ c v, cs !! c = Some v) sts vals →
  concat (map tree_leaves vals) = concat (map (seg cs) sts).
Proof.
  induction 1 as [|c v sts vals Hv _ IH]; simpl; [done|].
  rewrite IH. unfold seg at 2. by rewrite Hv.
Qed.

Lemma full_raise_related R (leaves leaves' : list pyobj) outs :
  mapM full_raise leaves = Some outs →
  Forall2 (obj_rel R) leaves leaves' →
  ∃ outs', leaves' = map OArr outs' ∧ Forall2 R outs outs'.
Proof.
  intros H. apply mapM_Some in H. revert leaves'.
  induction H as [|o v leaves outs Ho _ IH]; intros leaves' Hrel.
  - inversion Hrel. exists []. split; [done|constructor].
  - inversion Hrel as [|? o' ? rest Hoo' Hrest]; subst.
    destruct (IH rest Hrest) as (outs' & -> & Hall).
    destruct o as [a| |]; try done. injection Ho as ->.
    inversion Hoo' as [? b Hab| |]; subst.
    exists (b :: outs'). split; [done|]. by constructor.
Qed.

Lemma recorded_values_related R (tcells cs : gmap cell (pytree jval)) tr :
  ∀ svs dvals,
    Forall2 (λ r v, tcells !! ar_state r = Some v) tr svs →
    Forall2 (λ c v, cs !! c = Some v) (states tr) dvals →
    (∀ c, c ∈ states tr →
       ∃ tv dv, tcells !! c = Some tv ∧ cs !! c = Some dv ∧ tree_rel R tv dv) →
    Forall2 (tree_rel R) svs dvals.
Proof.
  induction tr as [|r tr IH]; intros svs dvals Hs Hd Hrel.
  - inversion Hs. inversion Hd. constructor.
  - inversion Hs as [|? sv ? svs' Hsv Hsvs]; subst.
    simpl in Hd. inversion Hd as [|? dv ? dvals' Hdv Hdvals]; subst.
    constructor.
    + destruct (Hrel (ar_state r)) as (tv' & dv' & H1 & H2 & H3); [by left|].
      congruence.
    + apply IH; try done. intros c Hc. apply Hrel. by right.
Qed.

Lemma concrete_related env (t : pytree jval) :
  Forall concrete (tree_leaves t) → tree_rel (denotes env) t t.
Proof.
  intros H. split; [done|].
  induction H as [|v l Hv _ IH]; constructor; [|done]. by apply denotes_concrete.
Qed.

(** *** Round trip *)

Lemma Forall2_impl_elem {A B} (P Q : A → B → Prop) (l : list A) (k : list B) :
  Forall2 P l k → (∀ x y, x ∈ l → P x y → Q x y) → Forall2 Q l k.
Proof.
  induction 1 as [|x y l k Hxy _ IH]; intros H; constructor.
  - apply H; [by left|done].
  - apply IH. intros x' y' Hx'. apply H. by right.
Qed.

(** The round trip, with what the write-back of the new values needs: the
    recorded State objects are distinct, and each new value has the structure
    of the value its State object held. *)
Lemma round_trip
    (body : list (pytree jval) → pytree jval → prog) args kwargs m m1 k cs :
  fun_ (self m) = PyFunction body →
  traceable (static_argnums (self m)) body →
  Forall (λ t, Forall concrete (tree_leaves t))
         (select_static (static_argnums (self m)) 0 args) →
  get_arg_cache_key (self m) args kwargs = Ok k →
  _state_trace (self m) !! k = None →
  make_jaxpr args kwargs m = (Ok (), m1) →
  same_structure (cells m) cs →
  ∃ sts vals new_vals out cs',
    get_states (self m1) k = Ok sts ∧
    read_values sts cs = Ok vals ∧
    jaxpr_call (self m1) vals args kwargs = Ok (new_vals, out) ∧
    run_direct (body args kwargs) cs = (Ok (tree_map OArr out), cs') ∧
    read_values sts cs' = Ok new_vals ∧
    (∀ c, c ∉ sts → cs' !! c = cs !! c) ∧
    NoDup sts ∧
    Forall2 (λ c v, ∃ old, cs !! c = Some old ∧ tree_structure v = tree_structure old)
            sts new_vals ∧
    get_arg_cache_key (self m1) args kwargs = Ok k ∧
    cells m1 = cells m.
Proof.
  intros Hfun Htraceable Hstatic Hk Hnone Hmj Hsame.
  (* the call the trace made *)
  destruct (trace_inputs_spec (static_argnums (self m)) args kwargs)
    as (py_args & py_kwargs & Hin & Hmap & Hskw & Hleaves).
  set (dyn := select_dyn (static_argnums (self m)) 0 args) in *.
  set (env_in := concat (map tree_leaves dyn) ++ tree_leaves kwargs) in *.
  set (targs := merge_dyn (static_argnums (self m)) 0 args py_args) in *.
  set (s0 := {| ts_trace := _init_trace_and_newarg;
                ts_frame := {| invars := map wrapped_abstractify env_in |};
                ts_cells := cells m |}).
  destruct (run_traced (body targs py_kwargs) s0) as [r0 s1] eqn:Hrun.
  assert (traced_call m args kwargs = Some (r0, s1)) as Hcall.
  { unfold traced_call. rewrite Hin, Hfun. simpl. by rewrite <- Hrun. }
  destruct (make_jaxpr_fresh _ _ _ _ _ _ Hk Hnone Hcall) as (Hinv & Hres).
  destruct r0 as [out|e]; [|congruence].
  destruct Hres as (svs & Hcollect & Hsvs & Hres).
  destruct (first_state (tree_leaves out)); [congruence|].
  destruct (mapM full_raise (tree_leaves out)) as [outs|] eqn:Houts; [|congruence].
  destruct Hres as [shapes Hres]. rewrite Hres in Hmj. injection Hmj as <-.
  (* the simulation *)
  set (F := states (ts_trace s1)).
  set (env := replay_env cs env_in F).
  assert (Forall2 (tree_rel (denotes env)) py_args dyn ∧
          Forall2 (denotes env) (tree_leaves py_kwargs) (tree_leaves kwargs)) as [Hargs Hkw].
  { apply Forall2_tree_rel_split; [done|]. rewrite Hleaves.
    change (Forall2 (denotes ([] ++ env_in ++ concat (map (seg cs) F)))
              (map Tracer (seq (length (@nil jval)) (length env_in))) env_in).
    apply denotes_tracers. }
  assert (args_rel (denotes env) (static_argnums (self m)) 0 targs args) as Htargs.
  { by apply merge_dyn_rel. }
  assert (prog_rel (denotes env) (body targs py_kwargs) (body args kwargs)) as Hrel.
  { apply Htraceable; [apply denotes_admissible|done|by split]. }
  assert (sim_inv (cells m) cs env_in F s0 cs) as Hsim0.
  { split.
    - apply trace_inv_init.
    - done.
    - simpl. intros c Hc. by apply elem_of_nil in Hc.
    - simpl. rewrite length_map. lia. }
  destruct (run_traced_simulated (cells m) cs env_in F Hsame _ _ Hrel s0 cs out s1
              Hrun eq_refl Hsim0) as (out' & cs' & Hdirect & Hout & Hsim1).
  (* the values read before and after *)
  destruct (read_values_total F cs) as (vals & Hvals & Hvals2).
  { intros c Hc. unfold F, states in Hc. apply list_elem_of_fmap in Hc as (r & -> & Hr).
    destruct (inv_recorded _ _ Hinv r Hr) as (H0 & _).
    pose proof (Hsame (ar_state r)) as Hs. rewrite H0 in Hs.
    destruct (cs !! ar_state r); [eauto|done]. }
  destruct (read_values_total F cs') as (dvals & Hdvals & Hdvals2).
  { intros c Hc. destruct (sim_recorded _ _ _ _ _ _ Hsim1 c Hc) as (? & dv & _ & -> & _).
    eauto. }
  assert (Forall2 (tree_rel (denotes env)) svs dvals) as Hstate_rel.
  { eapply recorded_values_related; [exact Hsvs|exact Hdvals2|].
    apply (sim_recorded _ _ _ _ _ _ Hsim1). }
  apply Forall2_tree_rel_concat in Hstate_rel as [Hstate_str Hstate_leaves].
  destruct Hout as [Hout_str Hout_leaves].
  destruct (full_raise_related _ _ _ _ Houts Hout_leaves) as (douts & Hdouts & Houts_rel).
  (* the output of the replay *)
  destruct (tree_unflatten_length out douts) as (out_d & _ & Hd_str & Hd_leaves).
  { apply length_mapM in Houts. rewrite Houts. symmetry.
    eapply Forall2_length. exact Houts_rel. }
  assert (out' = tree_map OArr out_d) as ->.
  { apply tree_structure_leaves_inj.
    - by rewrite tree_structure_map, Hd_str.
    - by rewrite tree_leaves_map, Hd_leaves. }
  assert (length vals = length F) as Hlen_vals.
  { symmetry. by eapply Forall2_length. }
  assert (length dvals = length F) as Hlen_dvals.
  { symmetry. by eapply Forall2_length. }
  assert (Forall2 (λ c v, ∃ old, cs !! c = Some old ∧
                                  tree_structure v = tree_structure old) F dvals) as Hnew.
  { eapply Forall2_impl_elem; [exact Hdvals2|]. intros c v Hc Hv.
    destruct (sim_recorded _ _ _ _ _ _ Hsim1 c Hc) as (tv & dv & Htv & Hdv & Htd).
    assert (dv = v) as -> by congruence.
    unfold F, states in Hc. apply list_elem_of_fmap in Hc as (r & -> & Hr).
    destruct (inv_recorded _ _ Hinv r Hr) as (H0 & v0 & Hv0 & Hstr0).
    assert (v0 = tv) as -> by congruence.
    pose proof (Hsame (ar_state r)) as Hs. rewrite H0 in Hs.
    destruct (cs !! ar_state r) as [old|]; [|done].
    exists old. split; [done|].
    rewrite <- (tree_rel_structure _ _ _ Htd). congruence. }
  assert (get_arg_cache_key
            (self (after_trace m k (ts_trace s1) (ts_frame s1) out outs svs shapes))
            args kwargs = Ok k) as Hk1.
  { rewrite <- Hk. by apply get_arg_cache_key_ext. }
  exists F, vals, dvals, out_d, cs'.
  split; [|split; [done|split; [|split; [done|split; [done|split;
    [|split; [exact (inv_nodup _ _ Hinv)|split; [exact Hnew|split; [exact Hk1|done]]]]]]]]].
  - unfold get_states, after_trace. simpl. by rewrite lookup_insert_eq.
  - eapply (jaxpr_call_eval _ _ _ _ k (ts_trace s1)).
    + exact Hk1.
    + unfold after_trace. simpl. by rewrite lookup_insert_eq.
    + done.
    + unfold after_trace. simpl. by rewrite lookup_insert_eq.
    + unfold after_trace. simpl. by rewrite lookup_insert_eq.
    + unfold eval_jaxpr. simpl.
      change (static_argnums (self (after_trace m k (ts_trace s1) (ts_frame s1) out outs
                                      svs shapes))) with (static_argnums (self m)).
      fold dyn. rewrite (concat_leaves_seg _ _ _ Hvals2).
      rewrite app_assoc. fold env_in. fold (replay_env cs env_in F). fold env.
      rewrite decide_True.
      2:{ unfold env, replay_env. rewrite length_app. symmetry.
          apply (sim_frame _ _ _ _ _ _ Hsim1). }
      assert (mapM (eval_jval env) (outs ++ concat (map tree_leaves svs))
              = Some (douts ++ concat (map tree_leaves dvals))) as ->.
      { apply mapM_Some. by apply Forall2_app. }
      reflexivity.
    + assert (tree_structure (PNode [out; PNode (map (tree_map OArr) svs)])
              = tree_structure (PNode [out_d; PNode dvals])) as ->.
      { change (PNode [tree_structure out;
                       PNode (map tree_structure (map (tree_map OArr) svs))]
                = PNode [tree_structure out_d; PNode (map tree_structure dvals)]).
        rewrite Hd_str, <- Hstate_str, map_map. do 4 f_equal.
        apply map_ext. intros t. apply tree_structure_map. }
      assert (douts ++ concat (map tree_leaves dvals)
              = tree_leaves (PNode [out_d; PNode dvals])) as ->.
      { simpl. by rewrite app_nil_r, Hd_leaves. }
      apply tree_unflatten_leaves.
    + congruence.
  - intros c Hc. by apply (sim_untouched _ _ _ _ _ _ Hsim1).
Qed.

(** C1.  Let [f] be pure given its State cells, with concrete static
    arguments, and let [make_jaxpr] have traced it on [args] for a key not
    seen before.  From any State values [cs] of the structure the trace saw,
    [jaxpr_call] of the stored jaxpr on the current values of the recorded
    State objects and on the same [args] returns the output and the new State
    values that the direct call of [f] on [args] returns and leaves in those
    State objects; the direct call touches no other State object. *)
Theorem trace_then_replay_is_direct_execution
    (body : list (pytree jval) → pytree jval → prog) args kwargs m m1 k cs :
  fun_ (self m) = PyFunction body →
  traceable (static_argnums (self m)) body →
  Forall (λ t, Forall concrete (tree_leaves t))
         (select_static (static_argnums (self m)) 0 args) →
  get_arg_cache_key (self m) args kwargs = Ok k →
  _state_trace (self m) !! k = None →
  make_jaxpr args kwargs m = (Ok (), m1) →
  same_structure (cells m) cs →
  ∃ sts vals new_vals out cs',
    get_states (self m1) k = Ok sts ∧
    read_values sts cs = Ok vals ∧
    jaxpr_call (self m1) vals args kwargs = Ok (new_vals, out) ∧
    run_direct (body args kwargs) cs = (Ok (tree_map OArr out), cs') ∧
    read_values sts cs' = Ok new_vals ∧
    (∀ c, c ∉ sts → cs' !! c = cs !! c).
Proof.
  intros Hfun Htraceable Hstatic Hk Hnone Hmj Hsame.
  destruct (round_trip body args kwargs m m1 k cs Hfun Htraceable Hstatic Hk Hnone Hmj Hsame)
    as (sts & vals & new_vals & out & cs' & H1 & H2 & H3 & H4 & H5 & H6 & _).
  exists sts, vals, new_vals, out, cs'. repeat split; assumption.
Qed.

(** *** Replay with write-back after a trace *)

Lemma same_structure_refl cs : same_structure cs cs.
Proof. intros c. by destruct (cs !! c). Qed.

Lemma assign_values_zip sts vals :
  ∀ cs,
    NoDup sts →
    Forall2 (λ c v, ∃ old, cs !! c = Some old ∧ tree_structure v = tree_structure old)
            sts vals →
    ∃ cs1, assign_values (zip sts vals) cs = (Ok (), cs1) ∧
           (∀ c, c ∉ sts → cs1 !! c = cs !! c) ∧
           Forall2 (λ c v, cs1 !! c = Some v) sts vals.
Proof.
  intros cs Hnd H. revert cs H.
  induction vals as [|v vals IH] in sts, Hnd |- *; intros cs H.
  - inversion H; subst. exists cs. simpl. split; [done|]. split; [done|constructor].
  - inversion H as [|c ? sts' ? (old & Hold & Hstr) Hrest]; subst.
    apply list.NoDup_cons in Hnd as [Hc Hnd].
    destruct (IH sts' Hnd (<[c := v]> cs)) as (cs1 & Hassign & Hout & Hin).
    { eapply Forall2_impl_elem; [exact Hrest|].
      intros c' v' Hc' (old' & Hold' & Hstr'). exists old'. split; [|done].
      rewrite lookup_insert_ne; [done|]. by intros ->. }
    exists cs1. split; [|split].
    + simpl. unfold state_set. rewrite Hold. by rewrite decide_True.
    + intros c' Hc'. rewrite Hout.
      * rewrite lookup_insert_ne; [done|]. intros ->. apply Hc'. by left.
      * intros Hin'. apply Hc'. by right.
    + constructor; [|done]. rewrite Hout; [|done]. by rewrite lookup_insert_eq.
Qed.

Lemma Forall2_lookup_agree {A} (cs1 cs2 : gmap cell A) sts vals :
  Forall2 (λ c v, cs1 !! c = Some v) sts vals →
  Forall2 (λ c v, cs2 !! c = Some v) sts vals →
  ∀ c, c ∈ sts → cs1 !! c = cs2 !! c.
Proof.
  intros H1. induction H1 as [|c v sts vals Hv _ IH]; intros H2 c' Hc'.
  - by apply elem_of_nil in Hc'.
  - inversion H2 as [|? ? ? ? Hv2 Hrest]; subst.
    apply elem_of_cons in Hc' as [->|Hc']; [congruence|by apply IH].
Qed.

(** X29.  After the trace of a function that is pure given its State cells,
    [jaxpr_call_auto] on the same arguments returns, and it returns the
    output and leaves the State values that the direct call of the function
    on the same State values returns and leaves. *)
Lemma jaxpr_call_auto_after_trace
    (body : list (pytree jval) → pytree jval → prog) args kwargs m m1 k :
  fun_ (self m) = PyFunction body →
  traceable (static_argnums (self m)) body →
  Forall (λ t, Forall concrete (tree_leaves t))
         (select_static (static_argnums (self m)) 0 args) →
  get_arg_cache_key (self m) args kwargs = Ok k →
  _state_trace (self m) !! k = None →
  make_jaxpr args kwargs m = (Ok (), m1) →
  ∃ out cs',
    jaxpr_call_auto args kwargs m1 = (Ok out, with_cells m1 cs') ∧
    run_direct (body args kwargs) (cells m1) = (Ok (tree_map OArr out), cs').
Proof.
  intros Hfun Htraceable Hstatic Hk Hnone Hmj.
  destruct (round_trip body args kwargs m m1 k (cells m) Hfun Htraceable Hstatic Hk Hnone Hmj
              (same_structure_refl _))
    as (sts & vals & new_vals & out & cs' & Hsts & Hvals & Hcall & Hdirect & Hnew_vals
        & Hframe & Hnd & Hstr & Hk1 & Hcells).
  destruct (assign_values_zip sts new_vals (cells m) Hnd Hstr) as (cs1 & Hassign & Hout & Hin).
  assert (cs1 = cs') as ->.
  { apply map_eq. intros c. destruct (decide (c ∈ sts)) as [Hc|Hc].
    - eapply Forall2_lookup_agree; [exact Hin| |exact Hc]. by apply read_values_Forall2.
    - rewrite Hout, Hframe; done. }
  exists out, cs'. rewrite Hcells. split; [|done].
  unfold jaxpr_call_auto. rewrite Hk1, Hsts, Hcells, Hvals, Hcall, Hassign. done.
Qed.

Lemma add_to_state_traceable : traceable [] add_to_state_body.
Proof.
  intros R [Hlit Hbind] args args' kwargs kwargs' Hargs _. unfold add_to_state_body.
  apply args_rel_nil in Hargs.
  destruct Hargs as [|t t' rest rest' Ht Hrest]; [constructor|].
  destruct t as [x|ts].
  - apply tree_rel_leaf_inv in Ht as (x' & -> & Hx).
    destruct Hrest; [|constructor].
    apply prog_rel_get. intros v v' Hv. destruct v as [sv|vs].
    + apply tree_rel_leaf_inv in Hv as (sv' & -> & Hsv).
      apply prog_rel_set.
      * apply tree_rel_leaf. by apply Hbind.
      * apply prog_rel_return. split; [done|constructor].
    + apply tree_rel_node_inv_shape in Hv as [us ->]. constructor.
  - apply tree_rel_node_inv_shape in Ht as [us ->]. constructor.
Qed.

Lemma trace_then_replay_is_direct_execution_witness :
  ∃ sts vals new_vals out cs',
    get_states (self scenario_traced) empty_key = Ok sts ∧
    read_values sts {[ 0%nat := PLeaf (Lit 100) ]} = Ok vals ∧
    jaxpr_call (self scenario_traced) vals [PLeaf (Lit 5)] (PNode []) = Ok (new_vals, out) ∧
    run_direct (add_to_state_body [PLeaf (Lit 5)] (PNode [])) {[ 0%nat := PLeaf (Lit 100) ]}
      = (Ok (tree_map OArr out), cs') ∧
    read_values sts cs' = Ok new_vals ∧
    (∀ c, c ∉ sts → cs' !! c = ({[ 0%nat := PLeaf (Lit 100) ]} : gmap cell (pytree jval)) !! c).
Proof.
  apply (trace_then_replay_is_direct_execution add_to_state_body
           [PLeaf (Lit 5)] (PNode []) scenario_machine scenario_traced empty_key).
  - reflexivity.
  - apply add_to_state_traceable.
  - simpl. constructor.
  - reflexivity.
  - reflexivity.
  - vm_compute. reflexivity.
  - intros c. simpl. destruct (decide (c = 0%nat)) as [->|Hne].
    + rewrite !lookup_singleton_eq. reflexivity.
    + rewrite !lookup_singleton_ne by done. exact I.
Defined.

(** The replay of the witness: from 100 in the State object, the replay with
    5 returns 105 as its new value, and so does the direct call. *)
Example replay_from_100 :
  jaxpr_call (self scenario_traced) [PLeaf (Lit 100)] [PLeaf (Lit 5)] (PNode [])
    = Ok ([PLeaf (Lit 105)], PNode []) ∧
  (run_direct (add_to_state_body [PLeaf (Lit 5)] (PNode []))
     {[ 0%nat := PLeaf (Lit 100) ]}).2 !! 0%nat = Some (PLeaf (Lit 105)).
Proof. split; vm_compute; reflexivity. Qed.

(* ===================================================================== *)
(** * More properties of the module *)
(* ===================================================================== *)

(** ** The cache key: errors and what it depends on *)

Lemma static_values_errors sa (args : list (pytree jval)) e :
  static_values sa args = Err e →
  e = IndexError ∧ Exists (λ i, i < - Z.of_nat (length args)) sa.
Proof.
  intros He.
  destruct (decide (Forall (λ i, - Z.of_nat (length args) ≤ i) sa)) as [Hall|Hex].
  - destruct (static_values_spec sa args Hall) as (vals & Hv & _). congruence.
  - apply not_Forall_Exists in Hex; [|apply _].
    assert (Exists (λ i, i < - Z.of_nat (length args)) sa) as Hex'.
    { apply Exists_exists in Hex as (i & Hin & Hi). apply Exists_exists.
      exists i. split; [done|]. simpl in Hi. lia. }
    split; [|done]. rewrite (static_values_index_error _ _ Hex') in He. congruence.
Qed.

(** X1.  Under the [None] policy the cache key fails in one way only: a
    static position below [-len(args)] makes [args[i]] raise IndexError; no
    other call fails.  [make_jaxpr] computes the key before anything else, so
    it raises that IndexError with the wrapper and the State values as they
    were. *)
Theorem static_position_below_range args kwargs m :
  cache_type (self m) = cache_None →
  (∀ e, get_arg_cache_key (self m) args kwargs = Err e ↔
        e = IndexError ∧
        Exists (λ i, i < - Z.of_nat (length args)) (static_argnums (self m))) ∧
  (Exists (λ i, i < - Z.of_nat (length args)) (static_argnums (self m)) →
   make_jaxpr args kwargs m = (Err IndexError, m)).
Proof.
  intros Hct. unfold make_jaxpr, get_arg_cache_key. rewrite Hct. split.
  - intros e. split.
    + destruct (static_values _ args) as [vals|e'] eqn:Hv; [done|].
      intros [= <-]. by apply static_values_errors.
    + intros [-> Hex]. by rewrite (static_values_index_error _ _ Hex).
  - intros Hex. by rewrite (static_values_index_error _ _ Hex).
Qed.

Lemma static_position_below_range_witness :
  (∀ e, get_arg_cache_key (fresh_wrapper add_to_state [-1]) [] (PNode []) = Err e ↔
        e = IndexError ∧ Exists (λ i, i < - Z.of_nat (length (@nil (pytree jval)))) [-1]) ∧
  (Exists (λ i, i < - Z.of_nat (length (@nil (pytree jval)))) [-1] →
   make_jaxpr [] (PNode [])
     {| self := fresh_wrapper add_to_state [-1]; cells := ∅; fun_calls := 0 |}
   = (Err IndexError,
      {| self := fresh_wrapper add_to_state [-1]; cells := ∅; fun_calls := 0 |})).
Proof.
  apply (static_position_below_range [] (PNode [])
           {| self := fresh_wrapper add_to_state [-1]; cells := ∅; fun_calls := 0 |}).
  reflexivity.
Defined.

Lemma tree_map_inj {L L'} (f : L → L') `{!Inj (=) (=) f} (t u : pytree L) :
  tree_map f t = tree_map f u → t = u.
Proof.
  revert u. induction t as [x|ts IH] using pytree_ind'; intros [y|us] H; simpl in H; try done.
  - injection H as H. by apply (inj f) in H as ->.
  - injection H as H. f_equal. revert us H.
    induction IH as [|t ts Ht _ IHts]; intros [|u us] H; simpl in H; try done.
    injection H as H1 H2. f_equal; [by apply Ht|by apply IHts].
Qed.

Lemma key_of_values_inj (vals vals' : list (pytree jval)) :
  map (tree_map (@inl jval aval)) vals = map (tree_map inl) vals' → vals = vals'.
Proof.
  intros H. revert vals' H.
  induction vals as [|v vals IH]; intros [|v' vals'] H; simpl in H; try done.
  injection H as H1 H2. f_equal; [|by apply IH].
  by apply (tree_map_inj inl) in H1.
Qed.

Lemma key_of_avals_inj (avals avals' : list aval) :
  map (λ a, PLeaf (@inr jval aval a)) avals = map (λ a, PLeaf (inr a)) avals' → avals = avals'.
Proof.
  intros H. revert avals' H.
  induction avals as [|a avals IH]; intros [|a' avals'] H; simpl in H; try done.
  destruct a, a'. f_equal. apply IH. by injection H.
Qed.

(** X2.  Under the ['jit'] policy the key never fails, and two calls get the
    same key exactly when they agree on the arguments at the static
    positions and on the abstract values of the leaves of the other
    arguments and of the keyword arguments: the values of dynamic arguments
    and the nesting of their leaves do not show in the key. *)
Theorem jit_cache_key_equality w args kwargs args' kwargs' :
  cache_type w = cache_jit →
  (∃ k, get_arg_cache_key w args kwargs = Ok k) ∧
  (get_arg_cache_key w args kwargs = get_arg_cache_key w args' kwargs' ↔
   select_static (static_argnums w) 0 args = select_static (static_argnums w) 0 args' ∧
   map wrapped_abstractify (tree_leaves (PNode (select_dyn (static_argnums w) 0 args))) =
   map wrapped_abstractify (tree_leaves (PNode (select_dyn (static_argnums w) 0 args'))) ∧
   map wrapped_abstractify (tree_leaves kwargs) =
   map wrapped_abstractify (tree_leaves kwargs')).
Proof.
  intros Hct. unfold get_arg_cache_key. rewrite Hct. split; [by eexists|].
  split.
  - intros H. injection H as H1 H2 H3.
    apply key_of_values_inj in H1. apply key_of_avals_inj in H2. apply key_of_avals_inj in H3.
    done.
  - intros (-> & -> & ->). done.
Qed.

Lemma jit_cache_key_equality_witness :
  let w := {| fun_ := add_to_state; static_argnums := [0]; state_returns := [read; write];
              cache_type := cache_jit;
              _jaxpr := ∅; _out_shapes := ∅; _jaxpr_out_tree := ∅; _state_trace := ∅ |} in
  let args := [PLeaf (Lit 1); PNode [PLeaf (Lit 2); PLeaf (Lit 3)]] in
  let args' := [PLeaf (Lit 1); PLeaf (Lit 7); PLeaf (Lit 8)] in
  (∃ k, get_arg_cache_key w args (PNode []) = Ok k) ∧
  (get_arg_cache_key w args (PNode []) = get_arg_cache_key w args' (PNode []) ↔
   select_static (static_argnums w) 0 args = select_static (static_argnums w) 0 args' ∧
   map wrapped_abstractify (tree_leaves (PNode (select_dyn (static_argnums w) 0 args))) =
   map wrapped_abstractify (tree_leaves (PNode (select_dyn (static_argnums w) 0 args'))) ∧
   map wrapped_abstractify (tree_leaves (PNode [] : pytree jval)) =
   map wrapped_abstractify (tree_leaves (PNode [] : pytree jval))).
Proof.
  cbv zeta.
  apply (jit_cache_key_equality
           {| fun_ := add_to_state; static_argnums := [0]; state_returns := [read; write];
              cache_type := cache_jit;
              _jaxpr := ∅; _out_shapes := ∅; _jaxpr_out_tree := ∅; _state_trace := ∅ |}).
  reflexivity.
Defined.

Lemma static_values_agree sa (args args' : list (pytree jval)) :
  length args = length args' →
  Forall (λ i, py_index args i = py_index args' i) sa →
  static_values sa args = static_values sa args'.
Proof.
  intros Hlen. induction 1 as [|i sa Hi _ IH]; simpl; [done|].
  rewrite <- Hlen, <- Hi, IH. done.
Qed.

(** X3.  Under the [None] policy the key is read off the static positions
    alone: two calls with as many positional arguments that agree at every
    position listed in [static_argnums] get the same key (or the same
    error), whatever their other arguments and keyword arguments are. *)
Theorem static_only_key_ignores_dynamic w args kwargs args' kwargs' :
  cache_type w = cache_None →
  length args = length args' →
  Forall (λ i, py_index args i = py_index args' i) (static_argnums w) →
  get_arg_cache_key w args kwargs = get_arg_cache_key w args' kwargs'.
Proof.
  intros Hct Hlen Hall. unfold get_arg_cache_key. rewrite Hct.
  by rewrite (static_values_agree _ _ _ Hlen Hall).
Qed.

Lemma static_only_key_ignores_dynamic_witness :
  get_arg_cache_key (fresh_wrapper add_to_state [1])
    [PLeaf (Lit 1); PLeaf (Lit 2)] (PNode [])
  = get_arg_cache_key (fresh_wrapper add_to_state [1])
      [PNode [PLeaf (Lit 5); PLeaf (Lit 6)]; PLeaf (Lit 2)] (PNode [PLeaf (Lit 9)]).
Proof.
  apply (static_only_key_ignores_dynamic (fresh_wrapper add_to_state [1])).
  - reflexivity.
  - reflexivity.
  - repeat constructor.
Defined.

Lemma select_dyn_out_of_range {A} sa (args : list A) :
  ∀ start,
    Forall (λ i, i < Z.of_nat start ∨ Z.of_nat (start + length args) ≤ i) sa →
    select_dyn sa start args = args.
Proof.
  induction args as [|a args IH]; intros start H; [done|].
  cbn [select_dyn]. unfold is_static. rewrite bool_decide_eq_false_2.
  - f_equal. apply IH. eapply List.Forall_impl; [|exact H].
    simpl. intros i Hi. simpl in Hi. lia.
  - intros Hin. rewrite list.Forall_forall in H. apply H in Hin. simpl in Hin. lia.
Qed.

Lemma merge_dyn_out_of_range {A} sa (args dyn : list A) :
  ∀ start,
    Forall (λ i, i < Z.of_nat start ∨ Z.of_nat (start + length args) ≤ i) sa →
    length dyn = length args →
    merge_dyn sa start args dyn = dyn.
Proof.
  revert dyn. induction args as [|a args IH]; intros dyn start H Hlen.
  - by destruct dyn.
  - destruct dyn as [|d dyn]; [done|].
    cbn [merge_dyn]. unfold is_static. rewrite bool_decide_eq_false_2.
    + f_equal. apply IH; [|by injection Hlen].
      eapply List.Forall_impl; [|exact H]. simpl. intros i Hi. simpl in Hi. lia.
    + intros Hin. rewrite list.Forall_forall in H. apply H in Hin. simpl in Hin. lia.
Qed.

(** X4.  [static_argnums] holds an argument static only through the test
    [i in static_argnums] for [i] in [range(len(args))]: an entry that is
    negative or at least [len(args)] holds nothing static.  With only such
    entries the trace gets every argument as a dynamic input, as with no
    static positions at all, and [jaxpr_call] passes every argument to the
    jaxpr. *)
Theorem out_of_range_static_positions sa args kwargs :
  Forall (λ i, i < 0 ∨ Z.of_nat (length args) ≤ i) sa →
  trace_inputs sa args kwargs = trace_inputs [] args kwargs ∧
  select_dyn sa 0 args = args ∧
  select_static sa 0 args = [].
Proof.
  intros H.
  assert (select_dyn sa 0 args = args) as Hdyn.
  { apply select_dyn_out_of_range. eapply List.Forall_impl; [|exact H].
    simpl. intros i Hi. lia. }
  split; [|split; [done|]].
  - destruct sa as [|i sa]; [done|].
    unfold trace_inputs. rewrite Hdyn.
    destruct (tree_unflatten _ _) as [t|] eqn:Hu; [|done].
    destruct t as [|[|[x|py_args] [|py_kwargs [|]]]]; try done.
    apply tree_unflatten_inv in Hu as [Hs _].
    injection Hs as Hs _.
    rewrite merge_dyn_out_of_range; [done| |].
    + eapply List.Forall_impl; [|exact H]. simpl. intros j Hj. lia.
    + apply (f_equal length) in Hs. by rewrite !length_map in Hs.
  - clear Hdyn. assert (∀ start,
      Forall (λ i, i < Z.of_nat start ∨ Z.of_nat (start + length args) ≤ i) sa →
      select_static sa start args = []) as Hgen.
    { clear H. induction args as [|a args IH]; intros start H; [done|].
      cbn [select_static]. unfold is_static. rewrite bool_decide_eq_false_2.
      - apply IH. eapply List.Forall_impl; [|exact H]. simpl. intros i Hi. simpl in Hi. lia.
      - intros Hin. rewrite list.Forall_forall in H. apply H in Hin. simpl in Hin. lia. }
    apply Hgen. eapply List.Forall_impl; [|exact H]. simpl. intros i Hi. lia.
Qed.

Lemma out_of_range_static_positions_witness :
  trace_inputs [-1; 5] [PLeaf (Lit 1); PLeaf (Lit 2)] (PNode [])
    = trace_inputs [] [PLeaf (Lit 1); PLeaf (Lit 2)] (PNode []) ∧
  select_dyn [-1; 5] 0 [PLeaf (Lit 1); PLeaf (Lit 2)] = [PLeaf (Lit 1); PLeaf (Lit 2)] ∧
  select_static [-1; 5] 0 [PLeaf (Lit 1); PLeaf (Lit 2)] = [].
Proof.
  apply (out_of_range_static_positions [-1; 5] [PLeaf (Lit 1); PLeaf (Lit 2)] (PNode [])).
  repeat constructor; simpl; lia.
Defined.

(** ** One trace and the rest of the cache *)

Lemma make_jaxpr_new_key_calls args kwargs m k :
  get_arg_cache_key (self m) args kwargs = Ok k →
  _state_trace (self m) !! k = None →
  ∃ r1 m1 tr,
    _make_jaxpr (traced_partial k) (static_argnums (self m)) args kwargs m = (r1, m1) ∧
    self m1 = set_state_trace k tr (self m) ∧
    fun_calls m1 = S (fun_calls m).
Proof.
  intros Hk Hnone. unfold _make_jaxpr. simpl tc_info. simpl _check_callable. cbv iota.
  destruct (trace_inputs_total (static_argnums (self m)) args kwargs) as [[[fa kw] fr] Hin].
  rewrite Hin. simpl tc_call.
  destruct (_wrapped_fun_to_eval k fa kw fr m) as [[r fr1] m1] eqn:Hw.
  destruct (_wrapped_fun_to_eval_self _ _ _ _ _ _ _ _ Hw) as [[tr Htr] Hcalls].
  destruct r as [ans|e].
  - destruct (mapM full_raise (tree_leaves ans)); [|by eauto 10].
    destruct (tree_unflatten _ _); by eauto 10.
  - by eauto 10.
Qed.

Lemma make_jaxpr_configuration args kwargs m r m' :
  make_jaxpr args kwargs m = (r, m') → same_configuration (self m) (self m').
Proof.
  intros H. apply make_jaxpr_cases in H as [(e & _ & _ & ->)|[(k & _ & _ & _ & ->)|H]];
    [done|done|].
  destruct H as (k & r1 & m1 & Hk & Hnone & Hmk & _ & _ & Hout).
  assert (same_configuration (self m) (self m1)) as (H1 & H2 & H3 & H4).
  { apply _make_jaxpr_partial in Hmk as [[_ ->]|[[tr ->] _]]; done. }
  destruct Hout as [(j & a & b & tr & _ & _ & _ & ->)|(e & _ & _ & -> & _)]; done.
Qed.

Lemma make_jaxpr_other_entries args kwargs m r m' k k' :
  get_arg_cache_key (self m) args kwargs = Ok k →
  k' ≠ k →
  make_jaxpr args kwargs m = (r, m') →
  entries (self m') k' = entries (self m) k'.
Proof.
  intros Hk Hne Hmj.
  apply make_jaxpr_cases in Hmj as [(e & _ & _ & ->)|[(k0 & _ & _ & _ & ->)|H]];
    [done|done|].
  destruct H as (k0 & r1 & m1 & Hk0 & Hnone & Hmk & _ & _ & Hout).
  assert (k0 = k) as -> by congruence.
  unfold entries.
  destruct Hout as [(j & a & b & tr & _ & _ & -> & ->)|(e & _ & _ & -> & [->|[tr ->]])];
    simpl.
  all: assert (k ≠ k') as Hne' by congruence.
  all: by rewrite ?lookup_delete_ne, ?lookup_insert_ne by done.
Qed.

(** X5.  A call of [make_jaxpr] works on the entries of its own key only:
    whether it returns or raises, the four tables hold under every other key
    what they held before, and [fun], [static_argnums], [state_returns] and
    [cache_type] of the wrapper are what they were. *)
Theorem make_jaxpr_keeps_other_keys args kwargs m r m' k k' :
  get_arg_cache_key (self m) args kwargs = Ok k →
  k' ≠ k →
  make_jaxpr args kwargs m = (r, m') →
  entries (self m') k' = entries (self m) k' ∧ same_configuration (self m) (self m').
Proof.
  intros Hk Hne Hmj. split.
  - by eapply make_jaxpr_other_entries.
  - by eapply make_jaxpr_configuration.
Qed.

Lemma make_jaxpr_keeps_other_keys_witness :
  entries (self scenario_traced) (PNode [PLeaf (inl (Lit 1))])
    = entries (self scenario_machine) (PNode [PLeaf (inl (Lit 1))]) ∧
  same_configuration (self scenario_machine) (self scenario_traced).
Proof.
  apply (make_jaxpr_keeps_other_keys [PLeaf (Lit 5)] (PNode []) scenario_machine
           (Ok ()) scenario_traced empty_key).
  - reflexivity.
  - discriminate.
  - vm_compute. reflexivity.
Defined.

(** X6.  [make_jaxpr] calls the wrapped function exactly once when the key of
    the call has no entry, whether the trace then succeeds or fails, and not
    at all when the key has one. *)
Theorem make_jaxpr_calls_the_function_once args kwargs m k :
  get_arg_cache_key (self m) args kwargs = Ok k →
  fun_calls (snd (make_jaxpr args kwargs m)) =
    if decide (is_Some (_state_trace (self m) !! k))
    then fun_calls m else S (fun_calls m).
Proof.
  intros Hk. destruct (make_jaxpr args kwargs m) as [r m'] eqn:Hmj.
  pose proof Hmj as Hcases.
  apply make_jaxpr_cases in Hcases as [(e & He & _)|[(k0 & Hk0 & Hsome & _ & ->)|H]].
  - congruence.
  - assert (k0 = k) as -> by congruence. by rewrite decide_True.
  - destruct H as (k0 & r1 & m1 & Hk0 & Hnone & Hmk & _ & Hcalls & _).
    assert (k0 = k) as -> by congruence.
    rewrite decide_False; [|rewrite Hnone; by intros [? ?]].
    destruct (make_jaxpr_new_key_calls _ _ _ _ Hk Hnone) as (r1' & m1' & tr & Hmk' & _ & Hc).
    simpl. rewrite Hcalls. congruence.
Qed.

Lemma make_jaxpr_calls_the_function_once_witness :
  fun_calls (snd (make_jaxpr [] (PNode []) failing_machine)) =
    if decide (is_Some (_state_trace (self failing_machine) !! empty_key))
    then fun_calls failing_machine else S (fun_calls failing_machine).
Proof.
  apply (make_jaxpr_calls_the_function_once [] (PNode []) failing_machine empty_key).
  reflexivity.
Defined.

(** X7.  [clear_cache] forgets every trace and nothing else: the
    configuration stays, every one of the six accessors raises for every key
    (the four guarded ones the not-called ValueError, the two unguarded ones
    KeyError), and the next [make_jaxpr] calls the function again. *)
Theorem clear_cache_forgets_every_trace args kwargs m k k0 :
  get_arg_cache_key (self m) args kwargs = Ok k →
  let m0 := with_self m (clear_cache (self m)) in
  same_configuration (self m) (self m0) ∧
  get_jaxpr (self m0) k0 = Err (ValueError_not_called k0) ∧
  get_out_shapes (self m0) k0 = Err (ValueError_not_called k0) ∧
  get_out_treedef (self m0) k0 = Err (ValueError_not_called k0) ∧
  get_states (self m0) k0 = Err (ValueError_not_called k0) ∧
  get_read_states (self m0) k0 = Err (KeyError k0) ∧
  get_write_states (self m0) k0 = Err (KeyError k0) ∧
  fun_calls (snd (make_jaxpr args kwargs m0)) = S (fun_calls m).
Proof.
  intros Hk m0. split; [done|].
  destruct (accessors_absent (self m0) k0) as (H1 & H2 & H3 & H4 & H5 & H6).
  { by repeat split. }
  do 6 (split; [done|]).
  destruct (make_jaxpr_new_key_calls args kwargs m0 k) as (r1 & m1 & tr & Hmk & _ & Hc).
  { done. }
  { done. }
  destruct (make_jaxpr args kwargs m0) as [r m'] eqn:Hmj.
  apply make_jaxpr_cases in Hmj as [(e & He & _)|[(k1 & Hk1 & Hsome & _)|H]].
  - change (get_arg_cache_key (self m) args kwargs = Err e) in He. congruence.
  - simpl in Hsome. rewrite lookup_empty in Hsome. by destruct Hsome.
  - destruct H as (k1 & r1' & m1' & Hk1 & _ & Hmk' & _ & Hcalls & _).
    change (get_arg_cache_key (self m) args kwargs = Ok k1) in Hk1.
    assert (k1 = k) as -> by congruence.
    simpl. rewrite Hcalls.
    change (static_argnums (self m0)) with (static_argnums (self m)) in Hmk, Hmk'.
    rewrite Hmk in Hmk'. injection Hmk' as _ <-. exact Hc.
Qed.

Lemma clear_cache_forgets_every_trace_witness :
  let m0 := with_self scenario_traced (clear_cache (self scenario_traced)) in
  same_configuration (self scenario_traced) (self m0) ∧
  get_jaxpr (self m0) empty_key = Err (ValueError_not_called empty_key) ∧
  get_out_shapes (self m0) empty_key = Err (ValueError_not_called empty_key) ∧
  get_out_treedef (self m0) empty_key = Err (ValueError_not_called empty_key) ∧
  get_states (self m0) empty_key = Err (ValueError_not_called empty_key) ∧
  get_read_states (self m0) empty_key = Err (KeyError empty_key) ∧
  get_write_states (self m0) empty_key = Err (KeyError empty_key) ∧
  fun_calls (snd (make_jaxpr [PLeaf (Lit 5)] (PNode []) m0)) = S (fun_calls scenario_traced).
Proof.
  apply (clear_cache_forgets_every_trace [PLeaf (Lit 5)] (PNode []) scenario_traced
           empty_key empty_key).
  reflexivity.
Defined.

(** X8.  [compile_and_get_states_by_static_args] is [make_jaxpr] followed by
    [get_states] at the key of the call: it raises exactly when [make_jaxpr]
    raises, with the same exception and the same state of the wrapper, and
    otherwise returns the State objects recorded for the key, which
    [get_states] never fails to find. *)
Theorem compile_and_get_states_is_make_jaxpr_then_get_states args kwargs m :
  (∀ e m', compile_and_get_states_by_static_args args kwargs m = (Err e, m') ↔
           make_jaxpr args kwargs m = (Err e, m')) ∧
  (∀ sts m', compile_and_get_states_by_static_args args kwargs m = (Ok sts, m') ↔
             make_jaxpr args kwargs m = (Ok (), m') ∧
             ∃ k, get_arg_cache_key (self m) args kwargs = Ok k ∧
                  get_states (self m') k = Ok sts).
Proof.
  unfold compile_and_get_states_by_static_args.
  destruct (get_arg_cache_key (self m) args kwargs) as [k|e0] eqn:Hk.
  2:{ unfold make_jaxpr. rewrite Hk. split; [intros e m'; split; intros [= <- <-]; done|].
      intros sts m'. split; [done|]. by intros [[=] _]. }
  destruct (decide (is_Some (_state_trace (self m) !! k))) as [Hsome|Hnone].
  - assert (make_jaxpr args kwargs m = (Ok (), m)) as Hmj.
    { unfold make_jaxpr. rewrite Hk. by rewrite decide_True. }
    rewrite Hmj. destruct Hsome as [tr Htr]. unfold get_states. rewrite Htr. split.
    + intros e m'. split; intros [=].
    + intros sts m'. split.
      * intros [= <- <-]. split; [done|]. exists k. by rewrite Htr.
      * intros [[= <-] (k' & [= <-] & Hs)]. rewrite Htr in Hs. congruence.
  - destruct (make_jaxpr args kwargs m) as [[[]|e] m1] eqn:Hmj.
    + pose proof Hmj as Hc.
      apply make_jaxpr_cases in Hc as [(e & _ & [=] & _)|[(k0 & Hk0 & Hs & _)|H]].
      { assert (k0 = k) as -> by congruence. done. }
      destruct H as (k0 & r1 & m1' & Hk0 & _ & _ & _ & _ & Hout).
      assert (k0 = k) as -> by congruence.
      destruct Hout as [(j & a & b & tr & _ & _ & Hs1 & Hs')|(e & _ & [=] & _)].
      assert (_state_trace (self m1) !! k = Some tr) as Htr.
      { rewrite Hs'. simpl. rewrite Hs1. simpl. by rewrite lookup_insert_eq. }
      unfold get_states. rewrite Htr. split.
      * intros e m'. split; intros [=].
      * intros sts m'. split.
        -- intros [= <- <-]. split; [done|]. exists k. by rewrite Htr.
        -- intros [[= <-] (k' & [= <-] & Hs)]. rewrite Htr in Hs. congruence.
    + split.
      * intros e' m'. split; intros [= <- <-]; done.
      * intros sts m'. split; [done|]. by intros [[=] _].
Qed.

(** ** What a successful trace stores *)

Lemma traced_call_total m args kwargs : is_Some (traced_call m args kwargs).
Proof.
  unfold traced_call.
  destruct (trace_inputs_total (static_argnums (self m)) args kwargs) as [[[fa kw] fr] ->].
  by eexists.
Qed.

Lemma make_jaxpr_new_entry args kwargs m m' k :
  get_arg_cache_key (self m) args kwargs = Ok k →
  _state_trace (self m) !! k = None →
  make_jaxpr args kwargs m = (Ok (), m') →
  ∃ s1 out outs svs a b,
    traced_call m args kwargs = Some (Ok out, s1) ∧
    trace_inv (cells m) s1 ∧
    mapM full_raise (tree_leaves out) = Some outs ∧
    Forall2 (λ r v, ts_cells s1 !! ar_state r = Some v) (ts_trace s1) svs ∧
    m' = after_trace m k (ts_trace s1) (ts_frame s1) out outs svs (PNode [a; b]) ∧
    tree_structure a = tree_structure out ∧
    tree_structure b = tree_structure (PNode svs).
Proof.
  intros Hk Hnone Hmj.
  destruct (traced_call_total m args kwargs) as [[r0 s1] Hcall].
  destruct (make_jaxpr_fresh _ _ _ _ _ _ Hk Hnone Hcall) as [Hinv Hres].
  destruct r0 as [out|e]; [|congruence].
  destruct Hres as (svs & _ & Hall & Hres).
  destruct (first_state (tree_leaves out)); [congruence|].
  destruct (mapM full_raise (tree_leaves out)) as [outs|] eqn:Houts; [|congruence].
  destruct Hres as [shapes Hres].
  assert (m' = after_trace m k (ts_trace s1) (ts_frame s1) out outs svs shapes) as ->
    by congruence.
  apply make_jaxpr_cases in Hmj as [(e & _ & [=] & _)|[(k0 & Hk0 & Hs & _)|H]].
  { assert (k0 = k) as -> by congruence. rewrite Hnone in Hs. by destruct Hs. }
  destruct H as (k0 & r1 & m1 & Hk0 & _ & _ & _ & _ & Hout).
  assert (k0 = k) as -> by congruence.
  destruct Hout as [(j & a & b & tr & _ & _ & Hs1 & Hs')|(e & _ & [=] & _)].
  assert (_out_shapes (self (after_trace m k (ts_trace s1) (ts_frame s1) out outs svs shapes))
            !! k = Some (PNode [a; b])) as Hsh.
  { rewrite Hs'. simpl. by rewrite lookup_insert_eq. }
  assert (_jaxpr_out_tree
            (self (after_trace m k (ts_trace s1) (ts_frame s1) out outs svs shapes))
            !! k = Some (tree_structure (PNode [a; b]))) as Htd.
  { rewrite Hs'. simpl. by rewrite lookup_insert_eq. }
  simpl in Hsh, Htd. rewrite lookup_insert_eq in Hsh. rewrite lookup_insert_eq in Htd.
  injection Hsh as ->.
  apply (inj Some) in Htd.
  change (tree_structure (PNode [out; PNode (map (tree_map OArr) svs)]))
    with (PNode [tree_structure out; tree_structure (PNode (map (tree_map OArr) svs))]) in Htd.
  change (tree_structure (PNode [a; b]))
    with (PNode [tree_structure a; tree_structure b]) in Htd.
  injection Htd as Ha Hb.
  exists s1, out, outs, svs, a, b.
  do 5 (split; [done|]). split; [by symmetry|].
  rewrite <- Hb.
  change (PNode (map tree_structure (map (tree_map OArr) svs)) =
          PNode (map tree_structure svs)).
  f_equal. rewrite map_map. apply map_ext. intros t. apply tree_structure_map.
Qed.

Lemma concat_leaves_length {L L'} (ts : list (pytree L)) (us : list (pytree L')) :
  map tree_structure ts = map tree_structure us →
  length (concat (map tree_leaves ts)) = length (concat (map tree_leaves us)).
Proof.
  intros H.
  apply (tree_structure_leaves_length (PNode ts) (PNode us)).
  change (PNode (map tree_structure ts) = PNode (map tree_structure us)). by f_equal.
Qed.

(** ** Every reachable cache is consistent *)

Lemma entry_consistent_after_trace m k tr frame out outs svs a b :
  NoDup (states tr) →
  length svs = length tr →
  mapM full_raise (tree_leaves out) = Some outs →
  tree_structure a = tree_structure out →
  tree_structure b = tree_structure (PNode svs) →
  entry_consistent (self (after_trace m k tr frame out outs svs (PNode [a; b]))) k tr.
Proof.
  intros Hnd Hlen Houts Ha Hb. split; [done|].
  destruct (tree_structure_node_inv b svs Hb) as (ss & -> & Hss).
  exists {| jaxpr_invars := invars frame;
            jaxpr_outvars := outs ++ concat (map tree_leaves svs) |}, a, ss.
  simpl. rewrite !lookup_insert_eq. repeat split.
  - f_equal.
    change (PNode [tree_structure out; PNode (map tree_structure (map (tree_map OArr) svs))]
            = PNode [tree_structure a; PNode (map tree_structure ss)]).
    rewrite Ha, Hss, map_map. do 4 f_equal.
    apply map_ext. intros t. apply tree_structure_map.
  - unfold states. rewrite length_map, <- Hlen.
    apply (f_equal length) in Hss. by rewrite !length_map in Hss.
  - rewrite app_nil_r, !length_app. f_equal.
    + apply length_mapM in Houts. rewrite <- Houts.
      symmetry. by apply tree_structure_leaves_length.
    + symmetry. by apply concat_leaves_length.
Qed.

Lemma entry_consistent_ext w w' k tr :
  _jaxpr w' !! k = _jaxpr w !! k →
  _out_shapes w' !! k = _out_shapes w !! k →
  _jaxpr_out_tree w' !! k = _jaxpr_out_tree w !! k →
  entry_consistent w k tr → entry_consistent w' k tr.
Proof.
  intros H1 H2 H3 [Hnd (j & a & ss & Hj & Hs & Hd & Hrest)].
  split; [done|]. exists j, a, ss. rewrite H1, H2, H3. done.
Qed.

Lemma cache_consistent_make_jaxpr args kwargs m r m' :
  cache_consistent (self m) →
  make_jaxpr args kwargs m = (r, m') →
  cache_consistent (self m').
Proof.
  intros Hc Hmj.
  destruct (get_arg_cache_key (self m) args kwargs) as [k|e] eqn:Hk.
  2:{ unfold make_jaxpr in Hmj. rewrite Hk in Hmj. by injection Hmj as _ <-. }
  destruct (_state_trace (self m) !! k) as [tr0|] eqn:Hnone.
  { unfold make_jaxpr in Hmj. rewrite Hk, Hnone in Hmj.
    rewrite decide_True in Hmj by eauto. by injection Hmj as _ <-. }
  destruct r as [[]|e].
  - destruct (make_jaxpr_new_entry _ _ _ _ _ Hk Hnone Hmj)
      as (s1 & out & outs & svs & a & b & _ & Hinv & Houts & Hall & -> & Ha & Hb).
    intros k' tr' Htr'. destruct (decide (k' = k)) as [->|Hne].
    + simpl in Htr'. rewrite lookup_insert_eq in Htr'. injection Htr' as <-.
      apply entry_consistent_after_trace; try done.
      * apply Hinv.
      * symmetry. by eapply Forall2_length.
    + simpl in Htr'. rewrite lookup_insert_ne in Htr' by done.
      eapply entry_consistent_ext; [| | |by apply Hc]; simpl;
        by rewrite lookup_insert_ne.
  - assert (self m' = self m) as ->; [|done].
    apply make_jaxpr_cases in Hmj as [(e' & _ & _ & ->)|[(k0 & _ & _ & [=] & _)|H]]; [done|].
    destruct H as (k0 & r1 & m1 & Hk0 & _ & _ & _ & _ & Hout).
    assert (k0 = k) as -> by congruence.
    destruct Hout as [(j & a & b & tr & _ & [=] & _)|(e' & _ & _ & -> & [->|[tr ->]])].
    + by apply pop_state_trace_id.
    + by apply pop_set_state_trace.
Qed.

Lemma cache_consistent_perform o m :
  cache_consistent (self m) → cache_consistent (self (perform o m)).
Proof.
  intros Hc. destruct o; simpl; try done.
  - destruct (make_jaxpr args kwargs m) as [r m'] eqn:Hmj. simpl.
    by eapply cache_consistent_make_jaxpr.
  - unfold compile_and_get_states_by_static_args.
    destruct (get_arg_cache_key (self m) args kwargs) as [k|e]; [|done].
    destruct (decide _); [done|].
    destruct (make_jaxpr args kwargs m) as [[[]|e] m'] eqn:Hmj; simpl;
      by eapply cache_consistent_make_jaxpr.
  - by rewrite jaxpr_call_auto_self.
Qed.

Lemma cache_consistent_reachable m : reachable m → cache_consistent (self m).
Proof.
  induction 1 as [f sa sr ct w cs Hinit|o m _ IH|m cs _ IH].
  - destruct ct; simpl in Hinit; try done; injection Hinit as <-;
      intros k tr Htr; simpl in Htr; by rewrite lookup_empty in Htr.
  - by apply cache_consistent_perform.
  - done.
Qed.

Lemma scenario_traced_reachable : reachable scenario_traced.
Proof.
  change scenario_traced
    with (perform (op_make_jaxpr [PLeaf (Lit 5)] (PNode [])) scenario_machine).
  apply reach_op.
  by apply (reach_init add_to_state [] [read; write] cache_None).
Qed.

(** X9.  In every wrapper reachable from the constructor, the entries of a
    traced key fit together: the recorded State objects are pairwise
    distinct; a jaxpr, output shapes and an output tree are stored; the
    shapes are the pair (output shapes, State shapes) with one State shape
    per recorded State object; the stored tree is the structure of that
    pair; and the jaxpr has one output per leaf of it. *)
Theorem traced_entries_fit_together m k sts :
  reachable m →
  get_states (self m) k = Ok sts →
  NoDup sts ∧
  ∃ j out_shapes state_shapes,
    get_jaxpr (self m) k = Ok j ∧
    get_out_shapes (self m) k = Ok (PNode [out_shapes; PNode state_shapes]) ∧
    get_out_treedef (self m) k =
      Ok (tree_structure (PNode [out_shapes; PNode state_shapes])) ∧
    length state_shapes = length sts ∧
    length (jaxpr_outvars j) = length (tree_leaves (PNode [out_shapes; PNode state_shapes])).
Proof.
  intros Hreach Hsts. unfold get_states in Hsts.
  destruct (_state_trace (self m) !! k) as [tr|] eqn:Htr; [|done].
  injection Hsts as <-.
  destruct (cache_consistent_reachable m Hreach k tr Htr)
    as [Hnd (j & a & ss & Hj & Hs & Hd & Hlen & Hout)].
  split; [done|]. exists j, a, ss.
  unfold get_jaxpr, get_out_shapes, get_out_treedef. by rewrite Hj, Hs, Hd.
Qed.

Lemma traced_entries_fit_together_witness :
  NoDup [0%nat] ∧
  ∃ j out_shapes state_shapes,
    get_jaxpr (self scenario_traced) empty_key = Ok j ∧
    get_out_shapes (self scenario_traced) empty_key
      = Ok (PNode [out_shapes; PNode state_shapes]) ∧
    get_out_treedef (self scenario_traced) empty_key =
      Ok (tree_structure (PNode [out_shapes; PNode state_shapes])) ∧
    length state_shapes = length [0%nat] ∧
    length (jaxpr_outvars j) = length (tree_leaves (PNode [out_shapes; PNode state_shapes])).
Proof.
  apply (traced_entries_fit_together scenario_traced empty_key [0%nat]).
  - apply scenario_traced_reachable.
  - reflexivity.
Defined.

(** X10.  On a reachable wrapper [jaxpr_call] cannot fail after the jaxpr was
    evaluated: for a traced key and as many State values as recorded State
    objects, if [eval_jaxpr] returns then [jaxpr_call] returns; unflattening
    the outputs by the stored tree and the second length assertion never
    fail.  The new State values are as many as the recorded State objects,
    and the outputs are the leaves of the result followed by those of the new
    State values. *)
Theorem jaxpr_call_returns_when_evaluation_does m state_vals args kwargs k sts j outs :
  reachable m →
  get_arg_cache_key (self m) args kwargs = Ok k →
  get_states (self m) k = Ok sts →
  length state_vals = length sts →
  get_jaxpr (self m) k = Ok j →
  eval_jaxpr j (tree_leaves (PNode [PNode (select_dyn (static_argnums (self m)) 0 args);
                                    kwargs; PNode state_vals])) = Ok outs →
  ∃ new_vals out,
    jaxpr_call (self m) state_vals args kwargs = Ok (new_vals, out) ∧
    length new_vals = length sts ∧
    tree_leaves out ++ concat (map tree_leaves new_vals) = outs.
Proof.
  intros Hreach Hk Hsts Hlen Hj Heval.
  unfold get_states in Hsts.
  destruct (_state_trace (self m) !! k) as [tr|] eqn:Htr; [|done].
  injection Hsts as <-.
  destruct (cache_consistent_reachable m Hreach k tr Htr)
    as [_ (j' & a & ss & Hj' & _ & Hd & Hss & Hout)].
  unfold get_jaxpr in Hj. rewrite Hj' in Hj. injection Hj as ->.
  assert (length outs = length (jaxpr_outvars j)) as Houts.
  { unfold eval_jaxpr in Heval. destruct (decide _); [|done].
    destruct (mapM _ _) as [outs'|] eqn:Hm; [|done]. injection Heval as <-.
    by apply length_mapM in Hm. }
  destruct (tree_unflatten_length (PNode [a; PNode ss]) outs) as (t' & Hu & Hs & Hl).
  { by rewrite Houts. }
  change (tree_structure (PNode [a; PNode ss]))
    with (PNode [tree_structure a; tree_structure (PNode ss)]) in Hs.
  destruct (tree_structure_pair_inv _ _ _ Hs) as (out & tb & -> & _ & Hb).
  destruct (tree_structure_node_inv tb ss Hb) as (new_vals & -> & Hnv).
  assert (length new_vals = length state_vals) as Hnvl.
  { apply (f_equal length) in Hnv. rewrite !length_map in Hnv. congruence. }
  exists new_vals, out. split; [|split].
  - unfold jaxpr_call. rewrite Hk. unfold get_states, get_jaxpr, get_out_treedef.
    rewrite Htr, Hj', Hd. rewrite decide_True by done.
    rewrite Heval, Hu. by rewrite decide_True.
  - congruence.
  - rewrite <- Hl. simpl. by rewrite app_nil_r.
Qed.

Lemma jaxpr_call_returns_when_evaluation_does_witness :
  ∃ new_vals out,
    jaxpr_call (self scenario_traced) [PLeaf (Lit 100)] [PLeaf (Lit 5)] (PNode [])
      = Ok (new_vals, out) ∧
    length new_vals = length [0%nat] ∧
    tree_leaves out ++ concat (map tree_leaves new_vals) = [Lit 105].
Proof.
  apply (jaxpr_call_returns_when_evaluation_does scenario_traced
           [PLeaf (Lit 100)] [PLeaf (Lit 5)] (PNode []) empty_key [0%nat]
           {| jaxpr_invars := [ShapedArray; ShapedArray];
              jaxpr_outvars := [Prim Add (Tracer 0) (Tracer 1)] |}).
  - apply scenario_traced_reachable.
  - reflexivity.
  - reflexivity.
  - reflexivity.
  - vm_compute. reflexivity.
  - vm_compute. reflexivity.
Defined.

(** ** The read and the written State objects *)

Lemma zip_states_types tr :
  zip (states tr) (types tr) = map (λ r, (ar_state r, ar_type r)) tr.
Proof. unfold states, types. induction tr as [|r tr IH]; simpl; [done|]. by rewrite IH. Qed.

Lemma states_of_type_sublist ty tr : states_of_type ty tr `sublist_of` states tr.
Proof.
  unfold states_of_type. rewrite zip_states_types.
  induction tr as [|r tr IH]; simpl; [done|].
  rewrite filter_cons. destruct (decide _); simpl.
  - by apply sublist_skip.
  - by apply sublist_cons.
Qed.

Lemma elem_of_states_of_type c ty tr :
  c ∈ states_of_type ty tr → ∃ r, r ∈ tr ∧ ar_state r = c ∧ ar_type r = ty.
Proof.
  unfold states_of_type. rewrite zip_states_types.
  intros H. apply list_elem_of_fmap in H as ([c' ty'] & -> & H).
  apply list_elem_of_filter in H as [Hty H]. simpl in Hty.
  apply list_elem_of_fmap in H as (r & [= -> ->] & Hr). eauto.
Qed.

Lemma NoDup_states_record tr r r' :
  NoDup (states tr) → r ∈ tr → r' ∈ tr → ar_state r = ar_state r' → r = r'.
Proof.
  unfold states. induction tr as [|r0 tr IH]; intros Hnd Hr Hr' Heq.
  - by apply elem_of_nil in Hr.
  - simpl in Hnd. apply list.NoDup_cons in Hnd as [Hnotin Hnd].
    apply elem_of_cons in Hr as [->|Hr]; apply elem_of_cons in Hr' as [->|Hr'].
    + done.
    + exfalso. apply Hnotin. rewrite Heq. apply list_elem_of_fmap. eauto.
    + exfalso. apply Hnotin. rewrite <- Heq. apply list_elem_of_fmap. eauto.
    + by apply IH.
Qed.

(** X11.  For a traced key of a reachable wrapper, [get_read_states] and
    [get_write_states] return: each gives, in recording order, some of the
    State objects [get_states] gives, and no State object is in both. *)
Theorem read_and_write_states_split_the_states m k sts :
  reachable m →
  get_states (self m) k = Ok sts →
  ∃ rs ws,
    get_read_states (self m) k = Ok rs ∧
    get_write_states (self m) k = Ok ws ∧
    rs `sublist_of` sts ∧ ws `sublist_of` sts ∧
    ∀ c, c ∈ rs → c ∉ ws.
Proof.
  intros Hreach Hsts. unfold get_states in Hsts.
  destruct (_state_trace (self m) !! k) as [tr|] eqn:Htr; [|done].
  injection Hsts as <-.
  destruct (cache_consistent_reachable m Hreach k tr Htr) as [Hnd _].
  exists (states_of_type read tr), (states_of_type write tr).
  unfold get_read_states, get_write_states. rewrite Htr.
  do 2 (split; [done|]).
  split; [apply states_of_type_sublist|]. split; [apply states_of_type_sublist|].
  intros c Hr Hw.
  apply elem_of_states_of_type in Hr as (r & Hr & Hc & Hty).
  apply elem_of_states_of_type in Hw as (r' & Hr' & Hc' & Hty').
  assert (r = r') as -> by (eapply NoDup_states_record; [done..|congruence]).
  congruence.
Qed.

Lemma read_and_write_states_split_the_states_witness :
  ∃ rs ws,
    get_read_states (self scenario_traced) empty_key = Ok rs ∧
    get_write_states (self scenario_traced) empty_key = Ok ws ∧
    rs `sublist_of` [0%nat] ∧ ws `sublist_of` [0%nat] ∧
    ∀ c, c ∈ rs → c ∉ ws.
Proof.
  apply (read_and_write_states_split_the_states scenario_traced empty_key [0%nat]).
  - apply scenario_traced_reachable.
  - reflexivity.
Defined.

(** ** The inputs and outputs of the traced jaxpr *)

Lemma recorded_leaves_app tr r :
  recorded_leaves (tr ++ [r]) = recorded_leaves tr ++ tree_leaves (ar_original r).
Proof. unfold recorded_leaves. rewrite map_app, concat_app. simpl. by rewrite app_nil_r. Qed.

Lemma recorded_leaves_upgrade c tr : recorded_leaves (upgrade c tr) = recorded_leaves tr.
Proof.
  unfold recorded_leaves, upgrade. rewrite map_map. f_equal. apply map_ext.
  intros r. by destruct (decide _).
Qed.

Lemma traced_get_frame n0 c s r s' :
  frame_inv n0 s → traced_get c s = (r, s') → frame_inv n0 s'.
Proof.
  unfold traced_get, frame_inv. intros Hf.
  destruct (ts_cells s !! c) as [v|]; [|by intros [= <- <-]].
  destruct (recorded c (ts_trace s)); [by intros [= <- <-]|].
  destruct (new_arg v (ts_frame s)) as [v' frame'] eqn:Hna.
  intros [= <- <-]. simpl. rewrite recorded_leaves_app, length_app. simpl.
  pose proof (new_arg_spec v (ts_frame s)) as (_ & _ & Hlen).
  rewrite Hna in Hlen. simpl in Hlen. lia.
Qed.

Lemma traced_set_frame n0 c v s r s' :
  frame_inv n0 s → traced_set c v s = (r, s') → frame_inv n0 s'.
Proof.
  unfold traced_set, frame_inv. intros Hf.
  destruct (ts_cells s !! c) as [old|]; [|by intros [= <- <-]].
  destruct (decide _); [|by intros [= <- <-]].
  destruct (recorded c (ts_trace s)).
  - intros [= <- <-]. simpl. by rewrite recorded_leaves_upgrade.
  - destruct (new_arg old (ts_frame s)) as [v' frame'] eqn:Hna.
    intros [= <- <-]. simpl. rewrite recorded_leaves_app, length_app. simpl.
    pose proof (new_arg_spec old (ts_frame s)) as (_ & _ & Hlen).
    rewrite Hna in Hlen. simpl in Hlen. lia.
Qed.

Lemma run_traced_frame n0 p :
  ∀ s r s', frame_inv n0 s → run_traced p s = (r, s') → frame_inv n0 s'.
Proof.
  induction p as [out|e|c k IH|c v k IH]; intros s r s' Hf Hrun; simpl in Hrun.
  - by injection Hrun as _ <-.
  - by injection Hrun as _ <-.
  - destruct (traced_get c s) as [[v|e] s1] eqn:Hget.
    + eapply IH; [|exact Hrun]. by eapply traced_get_frame.
    + injection Hrun as _ <-. by eapply traced_get_frame.
  - destruct (traced_set c v s) as [[[]|e] s1] eqn:Hset.
    + eapply IH; [|exact Hrun]. by eapply traced_set_frame.
    + injection Hrun as _ <-. by eapply traced_set_frame.
Qed.

Lemma recorded_leaves_seg cells0 tr :
  (∀ r, r ∈ tr → cells0 !! ar_state r = Some (ar_original r)) →
  recorded_leaves tr = concat (map (seg cells0) (states tr)).
Proof.
  unfold recorded_leaves, states. intros H. rewrite map_map. f_equal.
  apply map_ext_in. intros r Hr. unfold seg. rewrite H; [done|].
  by apply list_elem_of_In.
Qed.

Lemma recorded_values_leaves cells0 s svs :
  trace_inv cells0 s →
  Forall2 (λ r v, ts_cells s !! ar_state r = Some v) (ts_trace s) svs →
  length (concat (map tree_leaves svs)) = length (recorded_leaves (ts_trace s)).
Proof.
  intros Hinv Hall. unfold recorded_leaves.
  assert (∀ r, r ∈ ts_trace s →
            ∃ v, ts_cells s !! ar_state r = Some v ∧
                 tree_structure v = tree_structure (ar_original r)) as Hrec.
  { intros r Hr. by apply (inv_recorded _ _ Hinv). }
  clear Hinv. revert Hrec. induction Hall as [|r v tr svs Hv _ IH]; intros Hrec; [done|].
  simpl. rewrite !length_app. f_equal.
  - destruct (Hrec r) as (v' & Hv' & Hstr); [by left|].
    assert (v' = v) as -> by congruence. by apply tree_structure_leaves_length.
  - apply IH. intros r' Hr'. apply Hrec. by right.
Qed.

(** X12.  The jaxpr a new trace stores takes one input per leaf of the dynamic
    arguments and keyword arguments, then one per leaf of the value of each
    recorded State object, and returns one output per leaf of the output
    shapes, then one per leaf of the value of each recorded State object. *)
Theorem traced_jaxpr_arity args kwargs m m' k :
  get_arg_cache_key (self m) args kwargs = Ok k →
  _state_trace (self m) !! k = None →
  make_jaxpr args kwargs m = (Ok (), m') →
  ∃ j sts out_shapes state_shapes,
    get_jaxpr (self m') k = Ok j ∧
    get_states (self m') k = Ok sts ∧
    get_out_shapes (self m') k = Ok (PNode [out_shapes; state_shapes]) ∧
    length (jaxpr_invars j) =
      (length (tree_leaves (PNode [PNode (select_dyn (static_argnums (self m)) 0 args);
                                   kwargs]))
       + length (concat (map (seg (cells m)) sts)))%nat ∧
    length (jaxpr_outvars j) =
      (length (tree_leaves out_shapes) + length (concat (map (seg (cells m)) sts)))%nat ∧
    length (tree_leaves state_shapes) = length (concat (map (seg (cells m)) sts)).
Proof.
  intros Hk Hnone Hmj.
  destruct (make_jaxpr_new_entry _ _ _ _ _ Hk Hnone Hmj)
    as (s1 & out & outs & svs & a & b & Hcall & Hinv & Houts & Hall & -> & Ha & Hb).
  exists {| jaxpr_invars := invars (ts_frame s1);
            jaxpr_outvars := outs ++ concat (map tree_leaves svs) |},
         (states (ts_trace s1)), a, b.
  unfold get_jaxpr, get_states, get_out_shapes. simpl. rewrite !lookup_insert_eq.
  do 3 (split; [done|]).
  assert (recorded_leaves (ts_trace s1) = concat (map (seg (cells m)) (states (ts_trace s1))))
    as Hseg.
  { apply recorded_leaves_seg. intros r Hr. by apply (inv_recorded _ _ Hinv). }
  pose proof (recorded_values_leaves _ _ _ Hinv Hall) as Hsvs. rewrite Hseg in Hsvs.
  split; [|split].
  - unfold traced_call in Hcall.
    destruct (trace_inputs_spec (static_argnums (self m)) args kwargs)
      as (py_args & py_kwargs & Hin & _).
    rewrite Hin in Hcall. injection Hcall as Hrun.
    eapply (run_traced_frame
              (length (concat (map tree_leaves (select_dyn (static_argnums (self m)) 0 args))
                       ++ tree_leaves kwargs))) in Hrun.
    + unfold frame_inv in Hrun. rewrite Hrun, Hseg. by rewrite app_nil_r.
    + unfold frame_inv. simpl. rewrite length_map. lia.
  - rewrite length_app, Hsvs. f_equal.
    apply length_mapM in Houts. rewrite <- Houts.
    symmetry. by apply tree_structure_leaves_length.
  - rewrite <- Hsvs. by apply (tree_structure_leaves_length b (PNode svs)).
Qed.

Lemma traced_jaxpr_arity_witness :
  ∃ j sts out_shapes state_shapes,
    get_jaxpr (self scenario_traced) empty_key = Ok j ∧
    get_states (self scenario_traced) empty_key = Ok sts ∧
    get_out_shapes (self scenario_traced) empty_key = Ok (PNode [out_shapes; state_shapes]) ∧
    length (jaxpr_invars j) =
      (length (tree_leaves (PNode [PNode (select_dyn (static_argnums (self scenario_machine))
                                            0 [PLeaf (Lit 5)]);
                                   PNode []]))
       + length (concat (map (seg (cells scenario_machine)) sts)))%nat ∧
    length (jaxpr_outvars j) =
      (length (tree_leaves out_shapes)
       + length (concat (map (seg (cells scenario_machine)) sts)))%nat ∧
    length (tree_leaves state_shapes) = length (concat (map (seg (cells scenario_machine)) sts)).
Proof.
  apply (traced_jaxpr_arity [PLeaf (Lit 5)] (PNode []) scenario_machine scenario_traced
           empty_key).
  - reflexivity.
  - reflexivity.
  - vm_compute. reflexivity.
Defined.

(** ** [state_returns] *)

Lemma _wrapped_fun_to_eval_state_returns sr k args kwargs frame m :
  _wrapped_fun_to_eval k args kwargs frame (with_state_returns sr m) =
  let '(r, frame1, m1) := _wrapped_fun_to_eval k args kwargs frame m in
  (r, frame1, with_state_returns sr m1).
Proof.
  unfold _wrapped_fun_to_eval. simpl.
  destruct (run_traced _ _) as [[out|e] s1]; [|done].
  simpl. destruct (collect_values _ _ _ _) as [svs|e]; [|done].
  by destruct (first_state _).
Qed.

Lemma _make_jaxpr_state_returns sr k sa args kwargs m :
  _make_jaxpr (traced_partial k) sa args kwargs (with_state_returns sr m) =
  let '(r, m1) := _make_jaxpr (traced_partial k) sa args kwargs m in
  (r, with_state_returns sr m1).
Proof.
  unfold _make_jaxpr. simpl tc_info. simpl _check_callable. cbv iota.
  destruct (trace_inputs sa args kwargs) as [[[fa kw] fr]|]; [|done].
  simpl tc_call. rewrite _wrapped_fun_to_eval_state_returns.
  destruct (_wrapped_fun_to_eval k fa kw fr m) as [[[ans|e] fr1] m1]; [|done].
  destruct (mapM full_raise (tree_leaves ans)); [|done].
  by destruct (tree_unflatten _ _).
Qed.

(** X13.  The [state_returns] of a wrapper is stored, shown by [__repr__] and
    consulted by no operation (the trace collects ['read'] and ['write']
    whatever it says): a wrapper given another [state_returns] traces,
    stores, answers and replays the same. *)
Theorem state_returns_is_never_consulted sr args kwargs state_vals k m :
  make_jaxpr args kwargs (with_state_returns sr m) =
    (fst (make_jaxpr args kwargs m),
     with_state_returns sr (snd (make_jaxpr args kwargs m))) ∧
  jaxpr_call_auto args kwargs (with_state_returns sr m) =
    (fst (jaxpr_call_auto args kwargs m),
     with_state_returns sr (snd (jaxpr_call_auto args kwargs m))) ∧
  jaxpr_call (self (with_state_returns sr m)) state_vals args kwargs =
    jaxpr_call (self m) state_vals args kwargs ∧
  get_states (self (with_state_returns sr m)) k = get_states (self m) k ∧
  get_read_states (self (with_state_returns sr m)) k = get_read_states (self m) k ∧
  get_write_states (self (with_state_returns sr m)) k = get_write_states (self m) k.
Proof.
  split; [|split; [|done]].
  - unfold make_jaxpr.
    change (get_arg_cache_key (self (with_state_returns sr m)) args kwargs)
      with (get_arg_cache_key (self m) args kwargs).
    destruct (get_arg_cache_key (self m) args kwargs) as [ck|e]; [|done].
    change (_state_trace (self (with_state_returns sr m))) with (_state_trace (self m)).
    destruct (decide _); [done|].
    change (static_argnums (self (with_state_returns sr m))) with (static_argnums (self m)).
    pose proof (_make_jaxpr_state_returns sr ck (static_argnums (self m)) args kwargs m) as H.
    unfold traced_partial in H. rewrite H.
    destruct (_make_jaxpr _ _ _ _ m) as [[[j sh]|e] m1]; [|done].
    destruct sh as [|[|a [|b [|]]]]; done.
  - unfold jaxpr_call_auto.
    change (get_arg_cache_key (self (with_state_returns sr m)) args kwargs)
      with (get_arg_cache_key (self m) args kwargs).
    destruct (get_arg_cache_key (self m) args kwargs) as [ck|e]; [|done].
    change (get_states (self (with_state_returns sr m)) ck) with (get_states (self m) ck).
    destruct (get_states (self m) ck) as [sts|e]; [|done].
    change (cells (with_state_returns sr m)) with (cells m).
    destruct (read_values sts (cells m)) as [vals|e]; [|done].
    change (jaxpr_call (self (with_state_returns sr m)) vals args kwargs)
      with (jaxpr_call (self m) vals args kwargs).
    destruct (jaxpr_call (self m) vals args kwargs) as [[svs out]|e]; [|done].
    by destruct (assign_values _ _) as [[[]|e] cs].
Qed.

(** ** Assigning State values *)

Lemma assign_values_frame pairs :
  ∀ cs r cs', assign_values pairs cs = (r, cs') →
    (∀ c, c ∉ pairs.*1 → cs' !! c = cs !! c) ∧ same_structure cs cs'.
Proof.
  induction pairs as [|[st val] pairs IH]; intros cs r cs' H; simpl in H.
  - injection H as _ <-. split; [done|]. apply same_structure_refl.
  - unfold state_set in H. destruct (cs !! st) as [old|] eqn:Hold.
    2:{ injection H as _ <-. split; [done|]. apply same_structure_refl. }
    destruct (decide _) as [Hstr|].
    2:{ injection H as _ <-. split; [done|]. apply same_structure_refl. }
    apply IH in H as [Hframe Hsame]. split.
    + intros c Hc. rewrite Hframe.
      * rewrite lookup_insert_ne; [done|]. intros ->. apply Hc. simpl. by left.
      * intros Hin. apply Hc. simpl. by right.
    + intros c. specialize (Hsame c). destruct (decide (c = st)) as [->|Hne].
      * rewrite lookup_insert_eq in Hsame. rewrite Hold.
        destruct (cs' !! st); [congruence|done].
      * by rewrite lookup_insert_ne in Hsame.
Qed.

Lemma assign_values_assigned pairs :
  ∀ cs cs', assign_values pairs cs = (Ok (), cs') →
    NoDup pairs.*1 → Forall (λ p, cs' !! p.1 = Some p.2) pairs.
Proof.
  induction pairs as [|[st val] pairs IH]; intros cs cs' H Hnd; simpl in H; [constructor|].
  simpl in Hnd. apply list.NoDup_cons in Hnd as [Hnotin Hnd].
  unfold state_set in H. destruct (cs !! st) as [old|]; [|done].
  destruct (decide _); [|done].
  constructor; [|by eapply IH].
  simpl. apply assign_values_frame in H as [Hframe _].
  rewrite Hframe by done. by rewrite lookup_insert_eq.
Qed.

Lemma Forall_zip_Forall2 {A B} (P : A → B → Prop) (l : list A) :
  ∀ k, length l = length k → Forall (λ p, P p.1 p.2) (zip l k) → Forall2 P l k.
Proof.
  induction l as [|x l IH]; intros [|y k] Hlen H; simpl in *; [constructor|done|done|].
  inversion H as [|? ? Hhd Htl]; subst. constructor; [done|].
  apply IH; [lia|done].
Qed.

Lemma assign_values_no_assertion pairs :
  ∀ cs cs', assign_values pairs cs ≠ (Err AssertionError, cs').
Proof.
  induction pairs as [|[st val] pairs IH]; intros cs cs'; simpl; [done|].
  unfold state_set. destruct (cs !! st) as [old|]; [|done].
  destruct (decide _); [apply IH|done].
Qed.

(** X14.  [_assign_state_values] raises AssertionError exactly when the two
    lists differ in length, and then it has assigned nothing.  Whether it
    returns or raises, every State object outside [states] holds what it
    held and every State object holds a value of the structure of its old
    one.  When it returns, the State objects being distinct, each holds the
    value paired with it. *)
Theorem assign_state_values_spec states state_vals cs r cs' :
  _assign_state_values states state_vals cs = (r, cs') →
  (length states ≠ length state_vals ↔ r = Err AssertionError) ∧
  (length states ≠ length state_vals → cs' = cs) ∧
  (∀ c, c ∉ states → cs' !! c = cs !! c) ∧
  same_structure cs cs' ∧
  (r = Ok () → NoDup states → Forall2 (λ st v, cs' !! st = Some v) states state_vals).
Proof.
  unfold _assign_state_values. intros H.
  destruct (decide (length states = length state_vals)) as [Hlen|Hne].
  - assert ((zip states state_vals).*1 = states) as Hfst.
    { apply fst_zip. lia. }
    pose proof (assign_values_frame _ _ _ _ H) as [Hframe Hsame]. rewrite Hfst in Hframe.
    split; [|split; [done|split; [done|split; [done|]]]].
    + split; [done|]. intros ->. by apply assign_values_no_assertion in H.
    + intros -> Hnd. apply assign_values_assigned in H; [|by rewrite Hfst].
      by apply Forall_zip_Forall2.
  - injection H as <- <-.
    split; [done|]. split; [done|]. split; [done|].
    split; [apply same_structure_refl|done].
Qed.

Lemma assign_state_values_spec_witness :
  let cs : gmap cell (pytree jval) := {[ 0%nat := PLeaf (Lit 1) ]} in
  let run := _assign_state_values [0%nat] [PLeaf (Lit 3)] cs in
  (length [0%nat] ≠ length [PLeaf (Lit 3)] ↔ run.1 = Err AssertionError) ∧
  (length [0%nat] ≠ length [PLeaf (Lit 3)] → run.2 = cs) ∧
  (∀ c, c ∉ [0%nat] → run.2 !! c = cs !! c) ∧
  same_structure cs run.2 ∧
  (run.1 = Ok () → NoDup [0%nat] →
   Forall2 (λ st v, run.2 !! st = Some v) [0%nat] [PLeaf (Lit 3)]).
Proof.
  cbv zeta.
  apply (assign_state_values_spec [0%nat] [PLeaf (Lit 3)] {[ 0%nat := PLeaf (Lit 1) ]}).
  apply surjective_pairing.
Defined.

(** ** Index tuples *)

Lemma mapM_operator_index (l : list Z) : mapM operator_index (map IInt l) = Some l.
Proof. induction l as [|i l IH]; simpl; [done|]. by rewrite IH. Qed.

(** X15.  [_ensure_index_tuple] accepts an int, giving the one-element tuple,
    and a sequence of ints, giving their tuple, and nothing else; so what it
    returns it accepts and returns unchanged: the second normalisation of
    [static_argnums], in [_make_jaxpr], changes nothing after the first, in
    the constructor. *)
Theorem ensure_index_tuple_spec x l :
  _ensure_index_tuple x = Some l →
  ((∃ i, x = IInt i ∧ l = [i]) ∨ x = ISeq (map IInt l)) ∧
  _ensure_index_tuple (ISeq (map IInt l)) = Some l.
Proof.
  intros H. split.
  - unfold _ensure_index_tuple in H. destruct x as [i|items|]; simpl in H; [|right|done].
    + injection H as <-. left. by exists i.
    + f_equal. revert l H. induction items as [|x items IH]; intros l H; simpl in H.
      * by injection H as <-.
      * destruct x as [i| |]; simpl in H; try done.
        destruct (mapM operator_index items) as [l'|] eqn:Hm; simpl in H; [|done].
        injection H as <-. simpl. f_equal. by apply IH.
  - simpl. apply mapM_operator_index.
Qed.

Lemma ensure_index_tuple_spec_witness :
  ((∃ i, IInt 3 = IInt i ∧ [3] = [i]) ∨ IInt 3 = ISeq (map IInt [3])) ∧
  _ensure_index_tuple (ISeq (map IInt [3])) = Some [3].
Proof. apply (ensure_index_tuple_spec (IInt 3) [3]). reflexivity. Defined.

(** ** Broadcasting a prefix tree *)

Lemma flatten_up_to_node {A B} (ps : list (pytree A)) (fs : list (pytree B)) :
  flatten_up_to (PNode ps) (PNode fs) = flatten_up_to_list ps fs.
Proof.
  simpl. revert fs. induction ps as [|p ps IH]; intros [|f fs]; simpl; try done.
  by rewrite IH.
Qed.

Lemma flatten_up_to_spec {A B} (prefix_tree : pytree A) :
  ∀ (full_tree : pytree B) subtrees,
    flatten_up_to prefix_tree full_tree = Some subtrees →
    length subtrees = length (tree_leaves prefix_tree) ∧
    concat (map tree_leaves subtrees) = tree_leaves full_tree.
Proof.
  induction prefix_tree as [x|ps IH] using pytree_ind'; intros full subtrees H.
  - simpl in H. injection H as <-. simpl. by rewrite app_nil_r.
  - destruct full as [y|fs]; [done|]. rewrite flatten_up_to_node in H. simpl.
    revert fs subtrees H. induction IH as [|p ps Hp _ IHps]; intros [|f fs] subtrees H;
      simpl in H; try done.
    + by injection H as <-.
    + destruct (flatten_up_to p f) as [l|] eqn:Hl; [|done].
      destruct (flatten_up_to_list ps fs) as [l'|] eqn:Hl'; [|done].
      injection H as <-. apply Hp in Hl as [Hl1 Hl2]. apply IHps in Hl' as [Hl1' Hl2'].
      simpl. rewrite !length_app, map_app, concat_app. by rewrite Hl1, Hl1', Hl2, Hl2'.
Qed.

Lemma broadcast_length {A B} (xs : list A) (subtrees : list (pytree B)) :
  length (concat (zip_with (λ x subtree, replicate (length (tree_leaves subtree)) x)
                    xs subtrees))
  = length (concat (map tree_leaves (take (length xs) subtrees))).
Proof.
  revert subtrees. induction xs as [|x xs IH]; intros [|t ts]; simpl; try done.
  by rewrite !length_app, length_replicate, IH.
Qed.

Lemma broadcast_prefix_length {A B} (prefix_tree : pytree A) (full_tree : pytree B) specs :
  _broadcast_prefix prefix_tree full_tree = Some specs →
  length specs = length (tree_leaves full_tree).
Proof.
  unfold _broadcast_prefix. intros H.
  destruct (flatten_up_to prefix_tree full_tree) as [subtrees|] eqn:Hf; [|done].
  injection H as <-. apply flatten_up_to_spec in Hf as [Hlen Hleaves].
  rewrite broadcast_length, <- Hlen, firstn_all. by rewrite Hleaves.
Qed.

(** X16. When [_broadcast_prefix] returns, it returns one entry per leaf of
    the full tree: the entries line up with the flattened arguments they are
    zipped with.  The entries are the leaves of the prefix tree, each
    repeated once per leaf of the subtree at its place. *)
Theorem broadcast_prefix_covers_the_leaves {A B} (prefix_tree : pytree A)
    (full_tree : pytree B) specs :
  _broadcast_prefix prefix_tree full_tree = Some specs →
  length specs = length (tree_leaves full_tree) ∧
  ∃ subtrees,
    length subtrees = length (tree_leaves prefix_tree) ∧
    concat (map tree_leaves subtrees) = tree_leaves full_tree ∧
    specs = concat (zip_with (λ x subtree, replicate (length (tree_leaves subtree)) x)
                      (tree_leaves prefix_tree) subtrees).
Proof.
  intros H. split; [by apply broadcast_prefix_length in H|].
  unfold _broadcast_prefix in H.
  destruct (flatten_up_to prefix_tree full_tree) as [subtrees|] eqn:Hf; [|done].
  injection H as <-. apply flatten_up_to_spec in Hf as [Hlen Hleaves].
  by exists subtrees.
Qed.

Lemma broadcast_prefix_covers_the_leaves_witness :
  length [1; 2; 2] = length (tree_leaves (PNode [PLeaf 7; PNode [PLeaf 8; PLeaf 9]])) ∧
  ∃ subtrees,
    length subtrees = length (tree_leaves (PNode [PLeaf 1; PLeaf 2])) ∧
    concat (map tree_leaves subtrees)
      = tree_leaves (PNode [PLeaf 7; PNode [PLeaf 8; PLeaf 9]]) ∧
    [1; 2; 2] = concat (zip_with (λ x subtree, replicate (length (tree_leaves subtree)) x)
                          (tree_leaves (PNode [PLeaf 1; PLeaf 2])) subtrees).
Proof.
  apply (broadcast_prefix_covers_the_leaves
           (PNode [PLeaf 1; PLeaf 2]) (PNode [PLeaf 7; PNode [PLeaf 8; PLeaf 9]])).
  reflexivity.
Defined.

Lemma flatten_up_to_same_structure {A B} (prefix_tree : pytree A) :
  ∀ full_tree : pytree B,
    tree_structure prefix_tree = tree_structure full_tree →
    flatten_up_to prefix_tree full_tree = Some (map PLeaf (tree_leaves full_tree)).
Proof.
  induction prefix_tree as [x|ps IH] using pytree_ind'; intros [y|fs] H; try done.
  rewrite flatten_up_to_node. simpl.
  injection H as H. revert fs H.
  induction IH as [|p ps Hp _ IHps]; intros [|f fs] H; simpl in H; try done.
  injection H as H1 H2. simpl. rewrite (Hp f H1), (IHps fs H2). by rewrite map_app.
Qed.

(** X17.  A prefix tree with the very structure of the full tree is broadcast
    to its own leaves: one spec per argument leaf, each used once. *)
Theorem broadcast_prefix_same_structure {A B} (prefix_tree : pytree A)
    (full_tree : pytree B) :
  tree_structure prefix_tree = tree_structure full_tree →
  _broadcast_prefix prefix_tree full_tree = Some (tree_leaves prefix_tree).
Proof.
  intros H. unfold _broadcast_prefix. rewrite (flatten_up_to_same_structure _ _ H).
  f_equal. apply tree_structure_leaves_length in H.
  revert H. generalize (tree_leaves prefix_tree) (tree_leaves full_tree).
  induction l as [|x xs IH]; intros [|y ys] Hlen; simpl in *; try done.
  f_equal. apply IH. lia.
Qed.

Lemma broadcast_prefix_same_structure_witness :
  _broadcast_prefix (PNode [PLeaf 1; PNode [PLeaf 2]]) (PNode [PLeaf 7; PNode [PLeaf 8]])
  = Some (tree_leaves (PNode [PLeaf 1; PNode [PLeaf 2]])).
Proof.
  apply (broadcast_prefix_same_structure
           (PNode [PLeaf 1; PNode [PLeaf 2]]) (PNode [PLeaf 7; PNode [PLeaf 8]])).
  reflexivity.
Defined.

(** X18.  [_flat_axes_specs] raises NotImplementedError exactly when keyword
    arguments are given, whatever the other arguments; when it returns, it
    returns one spec per leaf of the positional arguments, which are then all
    the flattened inputs of the trace. *)
Theorem flat_axes_specs_spec {A} (abstracted_axes : pytree A) args kwargs r :
  _flat_axes_specs abstracted_axes args kwargs = r →
  (kwargs ≠ PNode [] ↔ r = inl NotImplementedError) ∧
  (∀ specs, r = inr specs →
     length specs = length (tree_leaves (PNode [PNode args; kwargs]))).
Proof.
  unfold _flat_axes_specs. intros <-. split.
  - destruct kwargs as [|[|]]; try done.
    destruct (_broadcast_prefix abstracted_axes (PNode args)); split; done.
  - intros specs H. destruct kwargs as [|[|]]; try done.
    destruct (_broadcast_prefix abstracted_axes (PNode args)) as [specs'|] eqn:Hb; [|done].
    injection H as <-.
    apply broadcast_prefix_length in Hb as Hlen.
    rewrite Hlen. simpl. by rewrite !app_nil_r.
Qed.

Lemma flat_axes_specs_spec_witness :
  ((PNode [] : pytree jval) ≠ PNode [] ↔
   (inr [1; 2; 2] : axes_error + list Z) = inl NotImplementedError) ∧
  (∀ specs, (inr [1; 2; 2] : axes_error + list Z) = inr specs →
     length specs =
     length (tree_leaves (PNode [PNode [PLeaf (Lit 7); PNode [PLeaf (Lit 8); PLeaf (Lit 9)]];
                                 PNode []]))).
Proof.
  apply (flat_axes_specs_spec (PNode [PLeaf 1; PLeaf 2])
           [PLeaf (Lit 7); PNode [PLeaf (Lit 8); PLeaf (Lit 9)]] (PNode [])).
  reflexivity.
Defined.

(** ** The module-level [make_jaxpr] *)

Lemma get_arg_cache_key_configuration w w' args kwargs :
  same_configuration w w' →
  get_arg_cache_key w' args kwargs = get_arg_cache_key w args kwargs.
Proof. intros (_ & H1 & _ & H2). by apply get_arg_cache_key_ext. Qed.

Lemma make_jaxpr_ok_traced args kwargs m m' :
  make_jaxpr args kwargs m = (Ok (), m') →
  ∃ k tr, get_arg_cache_key (self m) args kwargs = Ok k ∧
          _state_trace (self m') !! k = Some tr.
Proof.
  intros Hmj.
  apply make_jaxpr_cases in Hmj as [(e & _ & [=] & _)|[(k & Hk & [tr Htr] & _ & ->)|H]].
  - by exists k, tr.
  - destruct H as (k & r1 & m1 & Hk & _ & _ & _ & _ & Hout).
    destruct Hout as [(j & a & b & tr & _ & _ & Hs1 & Hs')|(e & _ & [=] & _)].
    exists k, tr. split; [done|]. rewrite Hs'. simpl. rewrite Hs1. simpl.
    by rewrite lookup_insert_eq.
Qed.

Lemma reachable_make_jaxpr args kwargs m r m' :
  reachable m → make_jaxpr args kwargs m = (r, m') → reachable m'.
Proof.
  intros Hreach Hmj.
  change m' with (snd (r, m')). rewrite <- Hmj.
  by apply (reach_op (op_make_jaxpr args kwargs)).
Qed.

(** X19.  The function the module-level [make_jaxpr] returns raises what the
    method [make_jaxpr] raises and nothing else: when the method returns on
    a reachable wrapper, the accessors find the entries of the key, and the
    function returns the stored jaxpr, the recorded State objects and, with
    [return_shape], the shapes of the output of the traced function, without
    those of the State values. *)
Theorem make_jaxpr_f_returns_the_entries return_shape args kwargs m r m' :
  reachable m →
  make_jaxpr args kwargs m = (r, m') →
  match r with
  | Err e => make_jaxpr_f return_shape args kwargs m = (Err e, m')
  | Ok _ =>
      ∃ k j sts out_shapes state_shapes,
        get_arg_cache_key (self m) args kwargs = Ok k ∧
        get_jaxpr (self m') k = Ok j ∧
        get_states (self m') k = Ok sts ∧
        get_out_shapes (self m') k = Ok (PNode [out_shapes; PNode state_shapes]) ∧
        make_jaxpr_f return_shape args kwargs m =
          (Ok (j, sts, if return_shape then Some out_shapes else None), m')
  end.
Proof.
  intros Hreach Hmj. unfold make_jaxpr_f. rewrite Hmj.
  destruct r as [[]|e]; [|done].
  destruct (make_jaxpr_ok_traced _ _ _ _ Hmj) as (k & tr & Hk & Htr).
  pose proof (reachable_make_jaxpr _ _ _ _ _ Hreach Hmj) as Hreach'.
  destruct (cache_consistent_reachable m' Hreach' k tr Htr)
    as [_ (j & a & ss & Hj & Hs & _)].
  rewrite (get_arg_cache_key_configuration (self m) (self m'));
    [|by eapply make_jaxpr_configuration].
  exists k, j, (states tr), a, ss. rewrite Hk.
  unfold get_jaxpr, get_states, get_out_shapes. rewrite Hj, Htr, Hs.
  by destruct return_shape.
Qed.

Lemma make_jaxpr_f_returns_the_entries_witness :
  ∃ k j sts out_shapes state_shapes,
    get_arg_cache_key (self scenario_machine) [PLeaf (Lit 5)] (PNode []) = Ok k ∧
    get_jaxpr (self scenario_traced) k = Ok j ∧
    get_states (self scenario_traced) k = Ok sts ∧
    get_out_shapes (self scenario_traced) k = Ok (PNode [out_shapes; PNode state_shapes]) ∧
    make_jaxpr_f true [PLeaf (Lit 5)] (PNode []) scenario_machine =
      (Ok (j, sts, if true then Some out_shapes else None), scenario_traced).
Proof.
  apply (make_jaxpr_f_returns_the_entries true [PLeaf (Lit 5)] (PNode [])
           scenario_machine (Ok ()) scenario_traced).
  - by apply (reach_init add_to_state [] [read; write] cache_None).
  - vm_compute. reflexivity.
Defined.

(** X20.  The function the module-level [make_jaxpr] returns keeps its
    wrapper: once a call has returned, every later call whose arguments have
    the same cache key returns the same jaxpr, State objects and shapes and
    leaves the machine as it is; the function is not traced again.  The
    policy being [None], with no static position that is every later call,
    whatever its arguments. *)
Theorem make_jaxpr_f_answers_from_the_cache return_shape args kwargs m res m1 :
  make_jaxpr_f return_shape args kwargs m = (Ok res, m1) →
  (∀ args' kwargs',
     get_arg_cache_key (self m) args' kwargs' = get_arg_cache_key (self m) args kwargs →
     make_jaxpr_f return_shape args' kwargs' m1 = (Ok res, m1)) ∧
  (static_argnums (self m) = [] → cache_type (self m) = cache_None →
   ∀ args' kwargs', make_jaxpr_f return_shape args' kwargs' m1 = (Ok res, m1)).
Proof.
  intros H.
  assert (∀ args' kwargs',
     get_arg_cache_key (self m) args' kwargs' = get_arg_cache_key (self m) args kwargs →
     make_jaxpr_f return_shape args' kwargs' m1 = (Ok res, m1)) as Hgen.
  { intros args' kwargs' Hkeys. unfold make_jaxpr_f in H.
    destruct (make_jaxpr args kwargs m) as [[[]|e] m'] eqn:Hmj; [|done].
    pose proof (make_jaxpr_configuration _ _ _ _ _ Hmj) as Hconf.
    rewrite (get_arg_cache_key_configuration _ _ _ _ Hconf) in H.
    destruct (get_arg_cache_key (self m) args kwargs) as [k|e] eqn:Hk; [|done].
    destruct (get_jaxpr (self m') k) as [j|e] eqn:Hj; [|done].
    destruct (get_states (self m') k) as [sts|e] eqn:Hsts; [|done].
    assert (m' = m1) as ->.
    { destruct return_shape; [|congruence].
      destruct (get_out_shapes (self m') k) as [[|[|]]|]; congruence. }
    assert (make_jaxpr args' kwargs' m1 = (Ok (), m1)) as Hmj'.
    { unfold make_jaxpr.
      rewrite (get_arg_cache_key_configuration _ _ _ _ Hconf), Hkeys.
      rewrite decide_True; [done|].
      unfold get_states in Hsts. destruct (_state_trace (self m1) !! k); [eauto|done]. }
    unfold make_jaxpr_f. rewrite Hmj'.
    rewrite (get_arg_cache_key_configuration _ _ _ _ Hconf), Hkeys, Hj, Hsts. exact H. }
  split; [done|].
  intros Hsa Hct args' kwargs'. apply Hgen.
  unfold get_arg_cache_key. by rewrite Hct, Hsa.
Qed.

Lemma make_jaxpr_f_answers_from_the_cache_witness :
  let res := ({| jaxpr_invars := [ShapedArray; ShapedArray];
                 jaxpr_outvars := [Prim Add (Tracer 0) (Tracer 1)] |}, [0%nat], None) in
  (∀ args' kwargs',
     get_arg_cache_key (self scenario_machine) args' kwargs'
       = get_arg_cache_key (self scenario_machine) [PLeaf (Lit 5)] (PNode []) →
     make_jaxpr_f false args' kwargs' scenario_traced = (Ok res, scenario_traced)) ∧
  (static_argnums (self scenario_machine) = [] →
   cache_type (self scenario_machine) = cache_None →
   ∀ args' kwargs', make_jaxpr_f false args' kwargs' scenario_traced = (Ok res, scenario_traced)).
Proof.
  cbv zeta.
  apply (make_jaxpr_f_answers_from_the_cache false [PLeaf (Lit 5)] (PNode [])
           scenario_machine).
  vm_compute. reflexivity.
Defined.

(** ** The default key of the accessors *)

(** X21.  On a wrapper with no static position under the [None] policy, the
    key of every call is [()], the default key of the accessors: after a
    [make_jaxpr] that returned, the accessors called without a key find the
    trace. *)
Theorem default_key_finds_the_trace args kwargs m m' :
  reachable m →
  static_argnums (self m) = [] →
  cache_type (self m) = cache_None →
  make_jaxpr args kwargs m = (Ok (), m') →
  get_arg_cache_key (self m) args kwargs = Ok empty_key ∧
  ∃ j shapes d sts rs ws,
    get_jaxpr (self m') empty_key = Ok j ∧
    get_out_shapes (self m') empty_key = Ok shapes ∧
    get_out_treedef (self m') empty_key = Ok d ∧
    get_states (self m') empty_key = Ok sts ∧
    get_read_states (self m') empty_key = Ok rs ∧
    get_write_states (self m') empty_key = Ok ws.
Proof.
  intros Hreach Hsa Hct Hmj.
  assert (get_arg_cache_key (self m) args kwargs = Ok empty_key) as Hk.
  { unfold get_arg_cache_key. by rewrite Hct, Hsa. }
  split; [done|].
  destruct (make_jaxpr_ok_traced _ _ _ _ Hmj) as (k & tr & Hk' & Htr).
  assert (k = empty_key) as -> by congruence.
  pose proof (reachable_make_jaxpr _ _ _ _ _ Hreach Hmj) as Hreach'.
  destruct (cache_consistent_reachable m' Hreach' _ tr Htr)
    as [_ (j & a & ss & Hj & Hs & Hd & _)].
  exists j, (PNode [a; PNode ss]), (tree_structure (PNode [a; PNode ss])),
         (states tr), (states_of_type read tr), (states_of_type write tr).
  unfold get_jaxpr, get_out_shapes, get_out_treedef, get_states, get_read_states,
    get_write_states.
  by rewrite Hj, Hs, Hd, Htr.
Qed.

Lemma default_key_finds_the_trace_witness :
  get_arg_cache_key (self scenario_machine) [PLeaf (Lit 5)] (PNode []) = Ok empty_key ∧
  ∃ j shapes d sts rs ws,
    get_jaxpr (self scenario_traced) empty_key = Ok j ∧
    get_out_shapes (self scenario_traced) empty_key = Ok shapes ∧
    get_out_treedef (self scenario_traced) empty_key = Ok d ∧
    get_states (self scenario_traced) empty_key = Ok sts ∧
    get_read_states (self scenario_traced) empty_key = Ok rs ∧
    get_write_states (self scenario_traced) empty_key = Ok ws.
Proof.
  apply (default_key_finds_the_trace [PLeaf (Lit 5)] (PNode []) scenario_machine
           scenario_traced).
  - by apply (reach_init add_to_state [] [read; write] cache_None).
  - reflexivity.
  - reflexivity.
  - vm_compute. reflexivity.
Defined.

Lemma perform_configuration o m : same_configuration (self m) (self (perform o m)).
Proof.
  destruct o; simpl; try done.
  - destruct (make_jaxpr args kwargs m) as [r m'] eqn:Hmj. simpl.
    by eapply make_jaxpr_configuration.
  - unfold compile_and_get_states_by_static_args.
    destruct (get_arg_cache_key (self m) args kwargs) as [k|e]; [|done].
    destruct (decide _); [done|].
    destruct (make_jaxpr args kwargs m) as [[[]|e] m'] eqn:Hmj; simpl;
      by eapply make_jaxpr_configuration.
  - by rewrite jaxpr_call_auto_self.
Qed.

Lemma jit_key_not_empty w args kwargs :
  cache_type w = cache_jit → get_arg_cache_key w args kwargs ≠ Ok empty_key.
Proof. intros Hct. unfold get_arg_cache_key. by rewrite Hct. Qed.

Lemma absent_entries w k :
  absent k w ↔ entries w k = (None, None, None, None).
Proof.
  unfold absent, entries. split.
  - by intros (-> & -> & -> & ->).
  - intros [= -> -> -> ->]. done.
Qed.

Lemma absent_make_jaxpr_jit args kwargs m r m' :
  cache_type (self m) = cache_jit →
  absent empty_key (self m) →
  make_jaxpr args kwargs m = (r, m') →
  absent empty_key (self m').
Proof.
  intros Hct Habs Hmj.
  destruct (get_arg_cache_key (self m) args kwargs) as [k|e] eqn:Hk.
  - apply absent_entries. rewrite (make_jaxpr_other_entries _ _ _ _ _ k _ Hk) by
      (try exact Hmj; intros <-; by eapply jit_key_not_empty).
    by apply absent_entries.
  - unfold make_jaxpr in Hmj. rewrite Hk in Hmj. by injection Hmj as _ <-.
Qed.

Lemma absent_empty_key_jit m :
  reachable m → cache_type (self m) = cache_jit → absent empty_key (self m).
Proof.
  induction 1 as [f sa sr ct w cs Hinit|o m _ IH|m cs _ IH]; intros Hct.
  - destruct ct; simpl in Hinit; try done; injection Hinit as <-; by repeat split.
  - pose proof (perform_configuration o m) as (_ & _ & _ & Hct').
    rewrite Hct in Hct'. symmetry in Hct'. specialize (IH Hct'). clear Hct.
    destruct o; simpl; try done.
    + destruct (make_jaxpr args kwargs m) as [r m'] eqn:Hmj. simpl.
      by eapply absent_make_jaxpr_jit.
    + unfold compile_and_get_states_by_static_args.
      destruct (get_arg_cache_key (self m) args kwargs) as [k|e]; [|done].
      destruct (decide _); [done|].
      destruct (make_jaxpr args kwargs m) as [[[]|e] m'] eqn:Hmj; simpl;
        by eapply absent_make_jaxpr_jit.
    + by rewrite jaxpr_call_auto_self.
  - by apply IH.
Qed.

(** X22.  Under the ['jit'] policy a key is a triple, never [()]: no reachable
    wrapper has an entry under the default key of the accessors, so that
    every accessor called without a key raises, whatever was traced. *)
Theorem default_key_is_never_a_jit_key m :
  reachable m →
  cache_type (self m) = cache_jit →
  (∀ args kwargs, get_arg_cache_key (self m) args kwargs ≠ Ok empty_key) ∧
  get_jaxpr (self m) empty_key = Err (ValueError_not_called empty_key) ∧
  get_out_shapes (self m) empty_key = Err (ValueError_not_called empty_key) ∧
  get_out_treedef (self m) empty_key = Err (ValueError_not_called empty_key) ∧
  get_states (self m) empty_key = Err (ValueError_not_called empty_key) ∧
  get_read_states (self m) empty_key = Err (KeyError empty_key) ∧
  get_write_states (self m) empty_key = Err (KeyError empty_key).
Proof.
  intros Hreach Hct. split.
  - intros args kwargs. by apply jit_key_not_empty.
  - apply accessors_absent. by apply absent_empty_key_jit.
Qed.

Lemma default_key_is_never_a_jit_key_witness :
  (∀ args kwargs, get_arg_cache_key (self jit_traced) args kwargs ≠ Ok empty_key) ∧
  get_jaxpr (self jit_traced) empty_key = Err (ValueError_not_called empty_key) ∧
  get_out_shapes (self jit_traced) empty_key = Err (ValueError_not_called empty_key) ∧
  get_out_treedef (self jit_traced) empty_key = Err (ValueError_not_called empty_key) ∧
  get_states (self jit_traced) empty_key = Err (ValueError_not_called empty_key) ∧
  get_read_states (self jit_traced) empty_key = Err (KeyError empty_key) ∧
  get_write_states (self jit_traced) empty_key = Err (KeyError empty_key).
Proof.
  apply (default_key_is_never_a_jit_key jit_traced).
  - change jit_traced with (perform (op_make_jaxpr [PLeaf (Lit 5)] (PNode [])) jit_machine).
    apply reach_op. by apply (reach_init add_to_state [] [read; write] cache_jit).
  - reflexivity.
Defined.

(** ** Replay: what it leaves alone *)

(** X23.  [jaxpr_call_auto] runs no Python of the traced function and
    assigns recorded State objects only: whether it returns or raises, the
    wrapper is unchanged, the function has not been called, every State
    object that is not recorded for the key holds what it held, and every
    State object holds a value of the structure of its old one. *)
Theorem jaxpr_call_auto_frame args kwargs m r m' :
  jaxpr_call_auto args kwargs m = (r, m') →
  self m' = self m ∧ fun_calls m' = fun_calls m ∧
  same_structure (cells m) (cells m') ∧
  ∀ k sts, get_arg_cache_key (self m) args kwargs = Ok k →
           get_states (self m) k = Ok sts →
           ∀ c, c ∉ sts → cells m' !! c = cells m !! c.
Proof.
  unfold jaxpr_call_auto. intros H.
  destruct (get_arg_cache_key (self m) args kwargs) as [k|e] eqn:Hk.
  2:{ injection H as _ <-. repeat split; try done. apply same_structure_refl. }
  destruct (get_states (self m) k) as [sts|e] eqn:Hsts.
  2:{ injection H as _ <-. repeat split; try done. apply same_structure_refl. }
  destruct (read_values sts (cells m)) as [vals|e] eqn:Hvals.
  2:{ injection H as _ <-. repeat split; try done. apply same_structure_refl. }
  destruct (jaxpr_call (self m) vals args kwargs) as [[state_vals out]|e] eqn:Hcall.
  2:{ injection H as _ <-. repeat split; try done. apply same_structure_refl. }
  destruct (assign_values (zip sts state_vals) (cells m)) as [r0 cs1] eqn:Hassign.
  assert (m' = with_cells m cs1) as -> by (destruct r0; by injection H as _ <-).
  apply assign_values_frame in Hassign as [Hframe Hsame].
  split; [done|]. split; [done|]. split; [done|].
  intros k' sts' [= <-] Hs' c Hc. rewrite Hsts in Hs'. injection Hs' as <-.
  simpl. apply Hframe.
  intros Hin. apply Hc.
  apply list_elem_of_fmap in Hin as ([c' v] & -> & Hin).
  by apply elem_of_zip_l in Hin.
Qed.

Lemma jaxpr_call_auto_frame_witness :
  let run := jaxpr_call_auto [PLeaf (Lit 5)] (PNode []) scenario_traced in
  self run.2 = self scenario_traced ∧ fun_calls run.2 = fun_calls scenario_traced ∧
  same_structure (cells scenario_traced) (cells run.2) ∧
  ∀ k sts, get_arg_cache_key (self scenario_traced) [PLeaf (Lit 5)] (PNode []) = Ok k →
           get_states (self scenario_traced) k = Ok sts →
           ∀ c, c ∉ sts → cells run.2 !! c = cells scenario_traced !! c.
Proof.
  cbv zeta.
  apply (jaxpr_call_auto_frame [PLeaf (Lit 5)] (PNode []) scenario_traced
           (jaxpr_call_auto [PLeaf (Lit 5)] (PNode []) scenario_traced).1).
  apply surjective_pairing.
Defined.

(** X24.  Replay of a key that was never traced: [jaxpr_call] and
    [jaxpr_call_auto] raise the not-called ValueError of [get_states], and
    [jaxpr_call_auto] leaves the machine as it is. *)
Theorem replay_of_an_untraced_key state_vals args kwargs m k :
  get_arg_cache_key (self m) args kwargs = Ok k →
  _state_trace (self m) !! k = None →
  jaxpr_call (self m) state_vals args kwargs = Err (ValueError_not_called k) ∧
  jaxpr_call_auto args kwargs m = (Err (ValueError_not_called k), m) ∧
  class_of (ValueError_not_called k) = CValueError.
Proof.
  intros Hk Hnone. unfold jaxpr_call_auto, jaxpr_call, get_states.
  by rewrite Hk, Hnone.
Qed.

Lemma replay_of_an_untraced_key_witness :
  jaxpr_call (self scenario_machine) [PLeaf (Lit 10)] [PLeaf (Lit 5)] (PNode [])
    = Err (ValueError_not_called empty_key) ∧
  jaxpr_call_auto [PLeaf (Lit 5)] (PNode []) scenario_machine
    = (Err (ValueError_not_called empty_key), scenario_machine) ∧
  class_of (ValueError_not_called empty_key) = CValueError.
Proof.
  apply (replay_of_an_untraced_key [PLeaf (Lit 10)] [PLeaf (Lit 5)] (PNode [])
           scenario_machine empty_key); reflexivity.
Defined.

(** ** [_make_jaxpr] and what it is given *)

(** X25.  [_make_jaxpr] checks the callable it is given before anything else:
    for a staticmethod object, for an object that is not callable and for a
    generator function it raises TypeError without calling it, whatever the
    arguments, and the machine is as it was. *)
Theorem inner_make_jaxpr_checks_its_callable (f : traced_callable) sa args kwargs m :
  isinstance_staticmethod (tc_info f) = true ∨ callable (tc_info f) = false ∨
    isgeneratorfunction (tc_info f) = true →
  ∃ e, _make_jaxpr f sa args kwargs m = (Err e, m) ∧ class_of e = CTypeError.
Proof.
  intros H. unfold _make_jaxpr, _check_callable.
  destruct (isinstance_staticmethod (tc_info f)); [by eexists|].
  destruct (callable (tc_info f)); simpl; [|by eexists].
  destruct (isgeneratorfunction (tc_info f)); [by eexists|].
  by destruct H as [|[|]].
Qed.

Lemma inner_make_jaxpr_checks_its_callable_witness :
  ∃ e, _make_jaxpr {| tc_info := pyfun_info (PyStaticMethod add_to_state);
                      tc_call := λ _ _ fr m, (Ok (PNode []), fr, m) |}
         [] [PLeaf (Lit 5)] (PNode []) scenario_machine = (Err e, scenario_machine) ∧
       class_of e = CTypeError.
Proof.
  apply (inner_make_jaxpr_checks_its_callable
           {| tc_info := pyfun_info (PyStaticMethod add_to_state);
              tc_call := λ _ _ fr m, (Ok (PNode []), fr, m) |}).
  left. reflexivity.
Defined.

Lemma merge_dyn_spec {A B} (f : A → B) sa (args : list A) :
  ∀ i dyn,
    map f dyn = map f (select_dyn sa i args) →
    map f (merge_dyn sa i args dyn) = map f args ∧
    select_static sa i (merge_dyn sa i args dyn) = select_static sa i args ∧
    select_dyn sa i (merge_dyn sa i args dyn) = dyn.
Proof.
  induction args as [|a args IH]; intros i dyn H.
  - destruct dyn; [done|]. done.
  - cbn [merge_dyn select_dyn select_static] in *.
    destruct (is_static sa i) eqn:Hi.
    + cbn [select_dyn select_static]. rewrite Hi.
      destruct (IH (S i) dyn H) as (H1 & H2 & H3).
      simpl. by rewrite H1, H2, H3.
    + destruct dyn as [|d dyn]; [done|]. simpl in H. injection H as Hd H.
      cbn [select_dyn select_static]. rewrite Hi.
      destruct (IH (S i) dyn H) as (H1 & H2 & H3).
      simpl. by rewrite Hd, H1, H2, H3.
Qed.

(** X26.  The arguments the traced callable is called with: [_make_jaxpr]
    never fails to build them; they have the structure of the arguments of
    the call; the arguments at static positions are passed as they are; the
    leaves of the other arguments and then of the keyword arguments are the
    tracers of the input variables of the frame, in order, one variable per
    leaf. *)
Theorem traced_arguments sa args kwargs :
  ∃ full_args py_kwargs frame,
    trace_inputs sa args kwargs = Some (full_args, py_kwargs, frame) ∧
    map tree_structure full_args = map tree_structure args ∧
    tree_structure py_kwargs = tree_structure kwargs ∧
    select_static sa 0 full_args = select_static sa 0 args ∧
    concat (map tree_leaves (select_dyn sa 0 full_args)) ++ tree_leaves py_kwargs =
      map Tracer (seq 0 (length (invars frame))) ∧
    length (invars frame) =
      length (tree_leaves (PNode [PNode (select_dyn sa 0 args); kwargs])).
Proof.
  destruct (trace_inputs_spec sa args kwargs) as (py_args & py_kwargs & Hin & Hs & Hk & Hl).
  destruct (merge_dyn_spec tree_structure sa args 0 py_args Hs) as (H1 & H2 & H3).
  eexists _, _, _. split; [exact Hin|].
  split; [done|]. split; [done|]. split; [done|]. simpl.
  rewrite H3, Hl, length_map, app_nil_r. done.
Qed.

(** ** A trace depends on values through their structure only *)

Lemma record_rel_states tr tr2 :
  Forall2 record_rel tr tr2 → states tr = states tr2 ∧ types tr = types tr2.
Proof.
  induction 1 as [|r r2 tr tr2 (Hs & Ht & _) _ [IH1 IH2]]; [done|].
  unfold states, types in *. simpl. by rewrite Hs, Ht, IH1, IH2.
Qed.

Lemma avals_eq (l l2 : list aval) : length l = length l2 → l = l2.
Proof.
  revert l2. induction l as [|[] l IH]; intros [|[] l2] H; simpl in H; try done.
  f_equal. apply IH. lia.
Qed.

Lemma new_arg_structure v v2 frame :
  tree_structure v = tree_structure v2 → new_arg v frame = new_arg v2 frame.
Proof.
  intros Hs.
  destruct (new_arg_spec v frame) as (H1 & H2 & H3).
  destruct (new_arg_spec v2 frame) as (H1' & H2' & H3').
  pose proof (tree_structure_leaves_length _ _ Hs) as Hlen.
  destruct (new_arg v frame) as [t [l]], (new_arg v2 frame) as [t2 [l2]]. simpl in *.
  f_equal.
  - apply tree_structure_leaves_inj; congruence.
  - f_equal. apply avals_eq. lia.
Qed.

Lemma upgrade_rel c tr tr2 :
  Forall2 record_rel tr tr2 → Forall2 record_rel (upgrade c tr) (upgrade c tr2).
Proof.
  induction 1 as [|r r2 tr tr2 (Hs & Ht & Ho) _ IH]; [constructor|].
  simpl. constructor; [|done].
  rewrite <- Hs, <- Ht. by destruct (decide _).
Qed.

Lemma same_structure_lookup cs cs2 c :
  same_structure cs cs2 →
  (cs !! c = None ∧ cs2 !! c = None) ∨
  ∃ v v2, cs !! c = Some v ∧ cs2 !! c = Some v2 ∧ tree_structure v = tree_structure v2.
Proof.
  intros H. specialize (H c). destruct (cs !! c), (cs2 !! c); try done; eauto 6.
Qed.

Lemma same_structure_insert cs cs2 c v v2 :
  same_structure cs cs2 → tree_structure v = tree_structure v2 →
  same_structure (<[c := v]> cs) (<[c := v2]> cs2).
Proof.
  intros H Hv c'. destruct (decide (c' = c)) as [->|Hne].
  - by rewrite !lookup_insert_eq.
  - rewrite !lookup_insert_ne by done. apply H.
Qed.

Lemma lockstep_first_access s s2 c ty orig orig2 v :
  lockstep s s2 →
  tree_structure orig = tree_structure orig2 →
  lockstep (first_access c ty orig v s) (first_access c ty orig2 v s2).
Proof.
  intros [Htr Hfr Hrec Hcs] Ho. split; simpl.
  - apply Forall2_app; [done|]. by repeat constructor.
  - rewrite Hfr. by rewrite (new_arg_structure _ _ _ Ho).
  - intros c' Hc'. rewrite states_app in Hc'. simpl in Hc'.
    destruct (decide (c' = c)) as [->|Hne]; [by rewrite !lookup_insert_eq|].
    rewrite !lookup_insert_ne by done. apply Hrec.
    apply elem_of_app in Hc' as [|Hc']; [done|].
    by apply list_elem_of_singleton in Hc'.
  - by apply same_structure_insert.
Qed.

Lemma lockstep_later_write s s2 c v :
  lockstep s s2 → lockstep (later_write c v s) (later_write c v s2).
Proof.
  intros [Htr Hfr Hrec Hcs]. split; simpl.
  - by apply upgrade_rel.
  - done.
  - intros c' Hc'. rewrite states_upgrade in Hc'.
    destruct (decide (c' = c)) as [->|Hne]; [by rewrite !lookup_insert_eq|].
    rewrite !lookup_insert_ne by done. by apply Hrec.
  - by apply same_structure_insert.
Qed.

Lemma traced_get_lockstep c s s2 :
  lockstep s s2 →
  (traced_get c s).1 = (traced_get c s2).1 ∧
  lockstep (traced_get c s).2 (traced_get c s2).2.
Proof.
  intros Hl. pose proof Hl as [Htr Hfr Hrec Hcs].
  destruct (record_rel_states _ _ Htr) as [Hst _].
  unfold traced_get, recorded. rewrite <- Hst.
  destruct (same_structure_lookup _ _ c Hcs) as [[-> ->]|(v & v2 & Hv & Hv2 & Hs)]; [done|].
  rewrite Hv, Hv2. destruct (bool_decide (c ∈ states (ts_trace s))) eqn:Hin.
  - apply bool_decide_eq_true in Hin. apply Hrec in Hin. simpl.
    split; [congruence|done].
  - rewrite <- Hfr, <- (new_arg_structure _ _ _ Hs).
    destruct (new_arg v (ts_frame s)) as [v' frame'] eqn:Hna. simpl. split; [done|].
    pose proof (lockstep_first_access s s2 c read v v2 v' Hl Hs) as H.
    unfold first_access in H. rewrite <- Hfr, <- (new_arg_structure _ _ _ Hs), Hna in H.
    exact H.
Qed.

Lemma traced_set_lockstep c v s s2 :
  lockstep s s2 →
  (traced_set c v s).1 = (traced_set c v s2).1 ∧
  lockstep (traced_set c v s).2 (traced_set c v s2).2.
Proof.
  intros Hl. pose proof Hl as [Htr Hfr Hrec Hcs].
  destruct (record_rel_states _ _ Htr) as [Hst _].
  unfold traced_set, recorded. rewrite <- Hst.
  destruct (same_structure_lookup _ _ c Hcs) as [[-> ->]|(old & old2 & Ho & Ho2 & Hs)];
    [done|].
  rewrite Ho, Ho2. rewrite <- Hs.
  destruct (decide (tree_structure v = tree_structure old)); [|done].
  destruct (bool_decide (c ∈ states (ts_trace s))) eqn:Hin.
  - simpl. split; [done|]. by apply lockstep_later_write.
  - rewrite <- Hfr, <- (new_arg_structure _ _ _ Hs).
    destruct (new_arg old (ts_frame s)) as [v' frame'] eqn:Hna. simpl. split; [done|].
    pose proof (lockstep_first_access s s2 c write old old2 v Hl Hs) as H.
    unfold first_access in H. rewrite <- Hfr, <- (new_arg_structure _ _ _ Hs), Hna in H.
    exact H.
Qed.

Lemma run_traced_lockstep p :
  ∀ s s2, lockstep s s2 →
    (run_traced p s).1 = (run_traced p s2).1 ∧
    lockstep (run_traced p s).2 (run_traced p s2).2.
Proof.
  induction p as [out|e|c k IH|c v k IH]; intros s s2 Hl; simpl; try done.
  - destruct (traced_get_lockstep c s s2 Hl) as [Hr Hl'].
    destruct (traced_get c s) as [[v|e] s1], (traced_get c s2) as [[v2|e2] s1'];
      simpl in Hr, Hl'; try discriminate.
    + injection Hr as <-. by apply IH.
    + injection Hr as <-. by split.
  - destruct (traced_set_lockstep c v s s2 Hl) as [Hr Hl'].
    destruct (traced_set c v s) as [[[]|e] s1], (traced_set c v s2) as [[[]|e2] s1'];
      simpl in Hr, Hl'; try discriminate.
    + by apply IH.
    + injection Hr as <-. by split.
Qed.

Lemma collect_values_lockstep categories check tr tr2 cs cs2 :
  Forall2 record_rel tr tr2 →
  (∀ c, c ∈ states tr → cs !! c = cs2 !! c) →
  collect_values categories check tr cs = collect_values categories check tr2 cs2.
Proof.
  induction 1 as [|r r2 tr tr2 (Hs & Ht & Ho) _ IH]; intros Hrec; [done|].
  simpl. rewrite <- Hs, <- Ht, <- Ho, <- (Hrec (ar_state r)) by (by left).
  rewrite IH; [done|]. intros c Hc. apply Hrec. by right.
Qed.

Lemma states_of_type_rel ty tr tr2 :
  Forall2 record_rel tr tr2 → states_of_type ty tr = states_of_type ty tr2.
Proof.
  intros H. destruct (record_rel_states _ _ H) as [H1 H2].
  unfold states_of_type. by rewrite H1, H2.
Qed.

Lemma same_answers_set_state_trace k tr tr2 w j sh d :
  Forall2 record_rel tr tr2 →
  same_answers
    (set_jaxpr k j (set_out_shapes k sh (set_jaxpr_out_tree k d (set_state_trace k tr w))))
    (set_jaxpr k j (set_out_shapes k sh (set_jaxpr_out_tree k d (set_state_trace k tr2 w)))).
Proof.
  intros Hrel k0.
  unfold get_jaxpr, get_out_shapes, get_out_treedef, get_states, get_read_states,
    get_write_states. simpl.
  do 3 (split; [done|]).
  destruct (decide (k0 = k)) as [->|Hne].
  - rewrite !lookup_insert_eq.
    destruct (record_rel_states _ _ Hrel) as [-> _].
    by rewrite !(states_of_type_rel _ _ _ Hrel).
  - by rewrite !lookup_insert_ne.
Qed.

Lemma same_answers_refl w : same_answers w w.
Proof. by intros k. Qed.

Lemma select_dyn_map {A B} (f : A → B) sa (args : list A) :
  ∀ i, select_dyn sa i (map f args) = map f (select_dyn sa i args).
Proof.
  induction args as [|a args IH]; intros i; [done|].
  cbn [map select_dyn]. destruct (is_static sa i); simpl; by rewrite IH.
Qed.

Lemma merge_dyn_static {A} sa (args args2 : list A) :
  ∀ i dyn,
    length args = length args2 →
    select_static sa i args = select_static sa i args2 →
    length dyn = length (select_dyn sa i args) →
    merge_dyn sa i args dyn = merge_dyn sa i args2 dyn.
Proof.
  revert args2. induction args as [|a args IH]; intros [|a2 args2] i dyn Hlen Hst Hd;
    try done.
  cbn [merge_dyn select_static select_dyn] in *.
  destruct (is_static sa i).
  - injection Hst as -> Hst. f_equal. apply IH; [by injection Hlen|done|done].
  - destruct dyn as [|d dyn]; [done|]. f_equal.
    apply IH; [by injection Hlen|done|by injection Hd].
Qed.

Lemma trace_inputs_structure sa args kwargs args2 kwargs2 :
  map tree_structure args = map tree_structure args2 →
  tree_structure kwargs = tree_structure kwargs2 →
  select_static sa 0 args = select_static sa 0 args2 →
  trace_inputs sa args kwargs = trace_inputs sa args2 kwargs2.
Proof.
  intros Hargs Hkw Hst.
  assert (map tree_structure (select_dyn sa 0 args) = map tree_structure (select_dyn sa 0 args2))
    as Hdyn by (by rewrite <- !select_dyn_map, Hargs).
  assert (length args = length args2) as Hlen.
  { apply (f_equal length) in Hargs. by rewrite !length_map in Hargs. }
  destruct (trace_inputs_spec sa args kwargs) as (py & pk & H1 & Hs1 & Hk1 & Hl1).
  destruct (trace_inputs_spec sa args2 kwargs2) as (py2 & pk2 & H2 & Hs2 & Hk2 & Hl2).
  rewrite H1, H2.
  assert (length (concat (map tree_leaves (select_dyn sa 0 args)) ++ tree_leaves kwargs)
          = length (concat (map tree_leaves (select_dyn sa 0 args2)) ++ tree_leaves kwargs2))
    as Hn.
  { rewrite !length_app. f_equal.
    - by apply concat_leaves_length.
    - by apply tree_structure_leaves_length. }
  assert (PNode [PNode py; pk] = PNode [PNode py2; pk2]) as Heq.
  { apply tree_structure_leaves_inj.
    - change (PNode [PNode (map tree_structure py); tree_structure pk]
              = PNode [PNode (map tree_structure py2); tree_structure pk2]).
      congruence.
    - simpl. rewrite !app_nil_r. rewrite Hl1, Hl2. by rewrite Hn. }
  injection Heq as -> ->.
  do 2 f_equal.
  - f_equal. apply merge_dyn_static; [done|done|].
    apply (f_equal length) in Hs1. by rewrite !length_map in Hs1.
  - f_equal. apply avals_eq. by rewrite !length_map.
Qed.

Lemma _wrapped_fun_to_eval_lockstep k args kwargs frame m m2 :
  self m2 = self m →
  same_structure (cells m) (cells m2) →
  ∃ r frame1 tr tr2 cs cs2 n n2,
    _wrapped_fun_to_eval k args kwargs frame m =
      (r, frame1, {| self := set_state_trace k tr (self m); cells := cs; fun_calls := n |}) ∧
    _wrapped_fun_to_eval k args kwargs frame m2 =
      (r, frame1, {| self := set_state_trace k tr2 (self m); cells := cs2; fun_calls := n2 |}) ∧
    Forall2 record_rel tr tr2.
Proof.
  intros Hself Hcs. unfold _wrapped_fun_to_eval. rewrite Hself.
  set (p := py_call (fun_ (self m)) args kwargs).
  set (s0 := {| ts_trace := _init_trace_and_newarg; ts_frame := frame; ts_cells := cells m |}).
  set (s0' := {| ts_trace := _init_trace_and_newarg; ts_frame := frame;
                 ts_cells := cells m2 |}).
  assert (lockstep s0 s0') as Hl0.
  { split; simpl; [constructor|done| |done]. intros c Hc. by apply elem_of_nil in Hc. }
  destruct (run_traced_lockstep p s0 s0' Hl0) as [Hr Hl].
  destruct (run_traced p s0) as [r s1], (run_traced p s0') as [r' s1']. simpl in Hr, Hl.
  subst r'. destruct Hl as [Htr Hfr Hrec Hcs1].
  destruct r as [out|e]; [|rewrite Hfr; by eauto 12].
  simpl.
  rewrite <- (collect_values_lockstep _ _ _ _ _ _ Htr Hrec).
  destruct (collect_values _ _ _ _) as [svs|e]; [|rewrite Hfr; by eauto 12].
  destruct (first_state _); rewrite Hfr; unfold with_cells; simpl; by eauto 12.
Qed.

(** X27.  What a trace stores depends on the dynamic arguments and on the
    State values through their structure only.  Two wrappers with the same
    tables and configuration, over State objects that hold values of the same
    structure, called with arguments of the same structure that agree at the
    static positions and have the same key, return or raise alike, and
    afterwards answer every accessor alike: the same jaxpr, shapes, output
    tree and recorded State objects with the same categories. *)
Theorem trace_depends_on_structure_only args kwargs args2 kwargs2 m m2 :
  self m2 = self m →
  same_structure (cells m) (cells m2) →
  map tree_structure args = map tree_structure args2 →
  tree_structure kwargs = tree_structure kwargs2 →
  select_static (static_argnums (self m)) 0 args
    = select_static (static_argnums (self m)) 0 args2 →
  get_arg_cache_key (self m) args kwargs = get_arg_cache_key (self m) args2 kwargs2 →
  (make_jaxpr args kwargs m).1 = (make_jaxpr args2 kwargs2 m2).1 ∧
  same_answers (self (make_jaxpr args kwargs m).2) (self (make_jaxpr args2 kwargs2 m2).2).
Proof.
  intros Hself Hcs Hargs Hkw Hst Hkey.
  unfold make_jaxpr. rewrite Hself, <- Hkey.
  destruct (get_arg_cache_key (self m) args kwargs) as [k|e].
  2:{ simpl. rewrite Hself. split; [done|apply same_answers_refl]. }
  destruct (decide _).
  { simpl. rewrite Hself. split; [done|apply same_answers_refl]. }
  unfold _make_jaxpr. simpl tc_info. simpl _check_callable. cbv iota.
  rewrite <- (trace_inputs_structure _ _ _ _ _ Hargs Hkw Hst).
  destruct (trace_inputs_total (static_argnums (self m)) args kwargs) as [[[fa kw] fr] ->].
  simpl tc_call.
  destruct (_wrapped_fun_to_eval_lockstep k fa kw fr m m2 Hself Hcs)
    as (r & fr1 & tr & tr2 & cs & cs2 & c1 & c2 & -> & -> & Hrel).
  assert (∀ tr0, pop_state_trace k (set_state_trace k tr0 (self m)) = self m) as Hpop.
  { intros tr0. apply pop_set_state_trace.
    destruct (_state_trace (self m) !! k) eqn:E; [|done]. exfalso. eauto. }
  destruct r as [ans|e].
  2:{ simpl. rewrite !Hpop. split; [done|apply same_answers_refl]. }
  destruct (mapM full_raise (tree_leaves ans)) as [outs|].
  2:{ simpl. rewrite !Hpop. split; [done|apply same_answers_refl]. }
  destruct (tree_unflatten _ _) as [shapes|].
  2:{ simpl. rewrite !Hpop. split; [done|apply same_answers_refl]. }
  destruct shapes as [|[|a [|b [|]]]]; simpl; rewrite ?Hpop;
    try (split; [done|apply same_answers_refl]).
  split; [done|]. by apply same_answers_set_state_trace.
Qed.

Lemma trace_depends_on_structure_only_witness :
  let m2 := {| self := fresh_wrapper add_to_state [];
               cells := {[ 0%nat := PLeaf (Lit 77) ]}; fun_calls := 3 |} in
  (make_jaxpr [PLeaf (Lit 5)] (PNode []) scenario_machine).1
    = (make_jaxpr [PLeaf (Lit 6)] (PNode []) m2).1 ∧
  same_answers (self (make_jaxpr [PLeaf (Lit 5)] (PNode []) scenario_machine).2)
               (self (make_jaxpr [PLeaf (Lit 6)] (PNode []) m2).2).
Proof.
  cbv zeta.
  apply (trace_depends_on_structure_only [PLeaf (Lit 5)] (PNode []) [PLeaf (Lit 6)] (PNode [])
           scenario_machine
           {| self := fresh_wrapper add_to_state [];
              cells := {[ 0%nat := PLeaf (Lit 77) ]}; fun_calls := 3 |}).
  - reflexivity.
  - intros c. simpl. destruct (decide (c = 0%nat)) as [->|Hne].
    + rewrite !lookup_singleton_eq. reflexivity.
    + rewrite !lookup_singleton_ne by done. exact I.
  - reflexivity.
  - reflexivity.
  - reflexivity.
  - reflexivity.
Defined.

Lemma reachable_cache_type m : reachable m → cache_type (self m) ≠ cache_other.
Proof.
  induction 1 as [f sa sr ct w cs Hinit|o m _ IH|m cs _ IH]; [| |done].
  - destruct ct; simpl in Hinit; try done; by injection Hinit as <-.
  - pose proof (perform_configuration o m) as (_ & _ & _ & Hct). by rewrite Hct.
Qed.

(** X28.  The constructor asserts that [cache_type] is [None] or ['jit'], and
    no operation changes it: on a wrapper reachable from the constructor the
    branch of [get_arg_cache_key] that raises the invalid-cache-type
    ValueError is never taken.  The key of a call fails only under the
    [None] policy, and only with the IndexError of a static position below
    [-len(args)]. *)
Theorem invalid_cache_type_is_unreachable m args kwargs :
  reachable m →
  cache_type (self m) ≠ cache_other ∧
  get_arg_cache_key (self m) args kwargs ≠ Err ValueError_invalid_cache_type ∧
  ∀ e, get_arg_cache_key (self m) args kwargs = Err e →
       e = IndexError ∧ cache_type (self m) = cache_None ∧
       Exists (λ i, i < - Z.of_nat (length args)) (static_argnums (self m)).
Proof.
  intros Hreach. pose proof (reachable_cache_type m Hreach) as Hct.
  split; [done|].
  assert (∀ e, get_arg_cache_key (self m) args kwargs = Err e →
            e = IndexError ∧ cache_type (self m) = cache_None ∧
            Exists (λ i, i < - Z.of_nat (length args)) (static_argnums (self m))) as Herr.
  { intros e. unfold get_arg_cache_key.
    destruct (cache_type (self m)); [|done|done].
    destruct (static_values _ args) as [vals|e'] eqn:Hv; [done|].
    intros [= <-]. apply static_values_errors in Hv as [-> Hex]. done. }
  split; [|done].
  intros He. by apply Herr in He as [[=] _].
Qed.

Lemma invalid_cache_type_is_unreachable_witness :
  cache_type (self scenario_traced) ≠ cache_other ∧
  get_arg_cache_key (self scenario_traced) [PLeaf (Lit 5)] (PNode [])
    ≠ Err ValueError_invalid_cache_type ∧
  ∀ e, get_arg_cache_key (self scenario_traced) [PLeaf (Lit 5)] (PNode []) = Err e →
       e = IndexError ∧ cache_type (self scenario_traced) = cache_None ∧
       Exists (λ i, i < - Z.of_nat (length [PLeaf (Lit 5) : pytree jval]))
              (static_argnums (self scenario_traced)).
Proof.
  apply (invalid_cache_type_is_unreachable scenario_traced [PLeaf (Lit 5)] (PNode [])).
  apply scenario_traced_reachable.
Defined.

Lemma jaxpr_call_auto_after_trace_witness :
  ∃ out cs',
    jaxpr_call_auto [PLeaf (Lit 5)] (PNode []) scenario_traced
      = (Ok out, with_cells scenario_traced cs') ∧
    run_direct (add_to_state_body [PLeaf (Lit 5)] (PNode [])) (cells scenario_traced)
      = (Ok (tree_map OArr out), cs').
Proof.
  apply (jaxpr_call_auto_after_trace add_to_state_body [PLeaf (Lit 5)] (PNode [])
           scenario_machine scenario_traced empty_key).
  - reflexivity.
  - apply add_to_state_traceable.
  - simpl. constructor.
  - reflexivity.
  - reflexivity.
  - vm_compute. reflexivity.
Defined.
